(** * MergeableCollection: a shallow embedding and its verified properties

    The development follows [MergeableCollection.cxx] of the MCH evaluation
    package: a container that associates, to each key-path
    [/key1/key2/.../], a hash list of mergeable ROOT objects.

    Layout of the file:
    - [TString]: the operations of ROOT's string class used by the code;
    - [Result] and the monad [M]: C++ evaluation with a mutable heap, where
      dereferencing a null or a deleted pointer is undefined behaviour;
    - the heap ([World]): objects, hash lists, collections and iterators,
      all addressed by pointers, so that sharing is visible;
    - the member functions, named as in the source;
    - the theorems.

    What is not modelled: the text sent to the diagnostics sink
    ([Error], [printf], [LOGP]), except for the adoption of an object,
    where [internalAdopt_reporting] returns it beside the result; the
    order in which a [TMap] hashes its
    keys (a map is an association list iterated in insertion order); a
    container modified while one of the source's loops iterates over it
    (a loop runs over the elements present when it starts). *)

From Stdlib Require Import ZArith String Ascii List Lia Bool Sorted.
From stdpp Require Import gmap strings list.

Open Scope string_scope.
Open Scope list_scope.

Arguments String.append !_ _ : simpl nomatch.
Arguments String.prefix : simpl never.

(** ** Results of C++ evaluation *)

Inductive UB : Type :=
| NullDereference      (* a member is called through a null pointer *)
| UseAfterDelete       (* a deleted (or never allocated) object is used *)
| VectorOutOfRange.    (* back() or operator[] outside a std::vector *)

Inductive Result (A : Type) : Type :=
| Ok (a : A)
| Undefined (why : UB)
| OutOfFuel.

Arguments Ok {A} a.
Arguments Undefined {A} why.
Arguments OutOfFuel {A}.

(** ** TString *)

Module TString.

Definition slash : ascii := "/"%char.

Definition IsNull (s : string) : bool := (String.length s =? 0)%nat.

Definition BeginsWith (pat s : string) : bool := String.prefix pat s.

(** [drop n s]: the characters of [s] from position [n] on. *)
Fixpoint drop (n : nat) (s : string) : string :=
  match n, s with
  | O, _ => s
  | S n', String _ r => drop n' r
  | S _, EmptyString => EmptyString
  end.

Definition EndsWith (pat s : string) : bool :=
  (String.length pat <=? String.length s)%nat &&
  String.eqb (drop (String.length s - String.length pat) s) pat.

Definition Append (s t : string) : string := s +:+ t.
Definition Prepend (s t : string) : string := t +:+ s.

Fixpoint CountChar (c : ascii) (s : string) : nat :=
  match s with
  | EmptyString => 0
  | String a r => (if Ascii.eqb a c then 1 else 0) + CountChar c r
  end.

(** [IndexAt c s start pos]: [s] is the suffix of the string that begins
    at position [pos]; the position of the first [c] at or after
    [start], [None] standing for kNPOS. *)
Fixpoint IndexAt (c : ascii) (s : string) (start pos : nat) : option nat :=
  match s with
  | EmptyString => None
  | String a r =>
      if (start <=? pos)%nat && Ascii.eqb a c then Some pos
      else IndexAt c r start (S pos)
  end.

Definition Index (c : ascii) (s : string) (start : nat) : option nat :=
  IndexAt c s start 0.

Definition First (c : ascii) (s : string) : option nat := Index c s 0.

(** [s(start, len)]: the extent is clipped to the end of the string. *)
Definition Sub (s : string) (start len : nat) : string :=
  substring start len s.

(** Is [pat] a substring of [s]? [Index] of an empty pattern is the start
    index, so the empty pattern is contained in, and begins, every
    string. *)
Fixpoint Contains (pat s : string) : bool :=
  String.prefix pat s ||
  match s with
  | EmptyString => false
  | String _ r => Contains pat r
  end.

(** [ReplaceAll]: scan from the left; after a replacement the search
    resumes behind the inserted text, so the result is not searched
    again. An empty pattern replaces nothing. *)
Fixpoint ReplaceLoop (fuel : nat) (pat rep s : string) : string :=
  match fuel with
  | O => s
  | S fuel' =>
      match s with
      | EmptyString => EmptyString
      | String a r =>
          if String.prefix pat s
          then rep +:+ ReplaceLoop fuel' pat rep (drop (String.length pat) s)
          else String a (ReplaceLoop fuel' pat rep r)
      end
  end.

Definition ReplaceAll (pat rep s : string) : string :=
  if IsNull pat then s else ReplaceLoop (String.length s) pat rep s.

(** [Tokenize]: the maximal runs of characters that are not the
    delimiter; empty tokens are not produced. [cur] is the token being
    read, in reverse. *)
Fixpoint TokenizeAux (delim : ascii) (s : string) (cur : string) : list string :=
  match s with
  | EmptyString => if IsNull cur then [] else [cur]
  | String a r =>
      if Ascii.eqb a delim
      then (if IsNull cur then [] else [cur]) ++ TokenizeAux delim r EmptyString
      else TokenizeAux delim r (cur +:+ String a EmptyString)
  end.

Definition Tokenize (delim : ascii) (s : string) : list string :=
  TokenizeAux delim s EmptyString.

Definition upper (a : ascii) : ascii :=
  let n := nat_of_ascii a in
  if (97 <=? n)%nat && (n <=? 122)%nat then ascii_of_nat (n - 32) else a.

Fixpoint ToUpper (s : string) : string :=
  match s with
  | EmptyString => EmptyString
  | String a r => String (upper a) (ToUpper r)
  end.

End TString.

(** ** The path codec: static and pure member functions *)

(** [correctIdentifier]: "Insure identifier has the right number of
    slashes". *)
Definition correctIdentifier (sidentifier : string) : string :=
  if negb (TString.IsNull sidentifier) then
    let s1 := if negb (TString.EndsWith "/" sidentifier)
              then TString.Append sidentifier "/" else sidentifier in
    let s2 := if negb (TString.BeginsWith "/" s1)
              then TString.Prepend s1 "/" else s1 in
    TString.ReplaceAll "//" "/" s2
  else sidentifier.

(** The loop of [internalDecode] that records the position of every
    separator. [fuel] bounds the number of iterations; [splitIndex] gives
    it one more than the length of the string, and [start] grows by at
    least one in each iteration. *)
Fixpoint splitLoop (fuel : nat) (sidentifier : string) (start : nat)
    (splitIndex : list nat) : list nat :=
  match fuel with
  | O => splitIndex
  | S fuel' =>
      if (start <? String.length sidentifier)%nat then
        match TString.Index TString.slash sidentifier start with
        | None => splitIndex
        | Some pos => splitLoop fuel' sidentifier (pos + 1) (splitIndex ++ [pos])
        end
      else splitIndex
  end.

Definition splitIndex (sidentifier : string) : list nat :=
  splitLoop (S (String.length sidentifier)) sidentifier 0 [].

(** [internalDecode]: "Extract the index-th element of the identifier
    (/key1/key2/.../keyN/objectName); object is index=-1 (i.e. last)".
    [splitIndex.size() - 1] is computed in [size_t] and stored in an
    [Int_t], which gives -1 for the empty vector. *)
Definition internalDecode (identifier : string) (index : Z) : Result string :=
  if (0 <? String.length identifier)%nat && negb (TString.BeginsWith "/" identifier)
  then Ok ""
  else
    let sidentifier := identifier in
    let split := splitIndex sidentifier in
    let nkeys := (Z.of_nat (length split) - 1)%Z in
    if (index >=? nkeys)%Z then Ok ""
    else if (index <? 0)%Z then
      match last split with
      | None => Undefined VectorOutOfRange
      | Some back =>
          Ok (TString.Sub sidentifier (back + 1) (String.length sidentifier - back - 1))
      end
    else
      let i := Z.to_nat index in
      match split !! i, split !! (i + 1)%nat with
      | Some a, Some b => Ok (TString.Sub sidentifier (a + 1) (b - a - 1))
      | _, _ => Undefined VectorOutOfRange
      end.

(** [getKey]: "Extract the index element of the key pair from the
    fullIdentifier". *)
Definition getKey (identifier : string) (index : Z) (idContainsObjName : bool)
  : Result string :=
  if negb idContainsObjName then
    let sidentifier := TString.Append identifier "/dummy" in
    internalDecode sidentifier index
  else internalDecode identifier index.

(** [getObjectName]: "Extract the object name from an identifier". *)
Definition getObjectName (fullIdentifier : string) : Result string :=
  internalDecode fullIdentifier (-1).

(** The [for] loop of [getIdentifier], with [i] running from [n - todo]
    to [n - 1]. *)
Fixpoint getIdentifierLoop (fullIdentifier : string) (i : Z) (todo : nat)
    (identifier : string) : Result string :=
  match todo with
  | O => Ok identifier
  | S todo' =>
      match internalDecode fullIdentifier i with
      | Ok key =>
          getIdentifierLoop fullIdentifier (i + 1) todo' (identifier +:+ "/" +:+ key)
      | Undefined why => Undefined why
      | OutOfFuel => OutOfFuel
      end
  end.

(** [getIdentifier]: "Extract the identifier from the fullIdentifier". *)
Definition getIdentifier (fullIdentifier : string) : Result string :=
  let n := (Z.of_nat (TString.CountChar TString.slash fullIdentifier) - 1)%Z in
  match getIdentifierLoop fullIdentifier 0 (Z.to_nat n) "" with
  | Ok identifier => Ok (identifier +:+ "/")
  | r => r
  end.

(** ** Classes *)

(** A class descriptor ([TClass]): its name, the names of all its base
    classes, and whether [GetMethodWithPrototype("Merge", "TCollection*")]
    finds a method. There is one descriptor per class, so comparing
    [TClass*] pointers is comparing descriptors. *)
Record TClass : Type := mkClass {
  ClassName : string;
  Bases : list string;
  HasMergeMethod : bool
}.

Global Instance TClass_eq_dec : EqDecision TClass.
Proof. solve_decision. Defined.

Definition InheritsFrom (c base : TClass) : bool :=
  String.eqb (ClassName c) (ClassName base) ||
  existsb (String.eqb (ClassName base)) (Bases c).

Definition InheritsFromName (c : TClass) (base : string) : bool :=
  String.eqb (ClassName c) base || existsb (String.eqb base) (Bases c).

(** The descriptors named in the source: [TObject::Class()],
    [TH1::Class()], [TH2::Class()], [TProfile::Class()]. *)
Definition TObject_Class : TClass := mkClass "TObject" [] false.
Definition TH1_Class : TClass := mkClass "TH1" ["TNamed"; "TObject"] true.
Definition TH2_Class : TClass := mkClass "TH2" ["TH1"; "TNamed"; "TObject"] true.
Definition TProfile_Class : TClass :=
  mkClass "TProfile" ["TH1D"; "TH1"; "TNamed"; "TObject"] true.

(** [Class()] is the static member function that ROOT's [ClassDef] gives
    every class, as in [TH1::Class()] above. In [o->IsA()->Class()] it is
    called through an expression of static type [TClass*]: the call is
    [TClass::Class()], the descriptor of the class [TClass] itself, whatever
    the receiver is. *)
Definition TClass_Class_descriptor : TClass :=
  mkClass "TClass" ["TDictionary"; "TNamed"; "TObject"] false.

Definition TClass_Class (receiver : TClass) : TClass := TClass_Class_descriptor.

(** ** The heap *)

Definition loc : Type := nat.

(** A heap cell is either a live object or the place of a deleted one;
    addresses are not used again. *)
Inductive cell (T : Type) : Type :=
| Live (v : T)
| Deleted.

Arguments Live {T} v.
Arguments Deleted {T}.

(** [TMap]: pairs of a key ([TObjString]) and a value (a pointer to a
    [THashList]), in iteration order. [Add] does not look for an existing
    key. *)
Definition TMap : Type := list (string * option loc).

Module MapOf.

(** [GetValue]: the value of the first pair whose key equals [key]; null
    when there is none (or when that value is null). *)
Fixpoint GetValue (m : TMap) (key : string) : option loc :=
  match m with
  | [] => None
  | (k, v) :: rest => if String.eqb k key then v else GetValue rest key
  end.

Definition Add (m : TMap) (key : string) (value : option loc) : TMap :=
  m ++ [(key, value)].

(** [RemoveEntry]: the first pair whose key equals [key] is taken out. *)
Fixpoint RemoveEntry (m : TMap) (key : string) : option (option loc * TMap) :=
  match m with
  | [] => None
  | (k, v) :: rest =>
      if String.eqb k key then Some (v, rest)
      else match RemoveEntry rest key with
           | Some (v', rest') => Some (v', (k, v) :: rest')
           | None => None
           end
  end.

Definition GetSize (m : TMap) : nat := length m.

Definition keys (m : TMap) : list string := map fst m.

(** The loop of [MergeableCollection::Map] that renames the keys of the
    old format, over the keys present when it starts. [None]: the
    source's [return 0x0]. *)
Fixpoint remap (todo : list string) (m : TMap) : option TMap :=
  match todo with
  | [] => Some m
  | str :: todo' =>
      if TString.Contains "./" str then
        let newkey := TString.ReplaceAll "./" "" str in
        let o := GetValue m str in
        match RemoveEntry m str with
        | None => None
        | Some (_, m') => remap todo' (Add m' newkey o)
        end
      else remap todo' m
  end.

End MapOf.

(** [THashList]: the name given by [SetName] and the objects, in list
    order. Every hash list of the source owns its objects. *)
Record THashList : Type := mkHashList {
  hl_name : string;
  hl_items : list loc
}.

(** The fields of [MergeableCollection], with the name and title of its
    base [TFolder]. [fMap = None] is the null pointer. *)
Record MergeableCollection : Type := mkCollection {
  fName : string;
  fTitle : string;
  fMap : option TMap;
  fMustShowEmptyObject : bool;
  fMapVersion : Z;
  fMessages : gmap string Z
}.

(** The iterators made by [TMap::MakeIterator] and
    [THashList::MakeIterator]: what is left to visit. *)
Inductive TIterator : Type :=
| TMapIter (keys : list string)
| TListIter (items : list loc).

(** [MergeableCollectionIterator]. *)
Record MergeableCollectionIterator : Type := mkIterator {
  fkMergeableCollection : loc;
  fMapIterator : option loc;
  fHashListIterator : option loc;
  fDirection : bool
}.

Definition kIterForward : bool := true.

(** An element of the [TCollection] given to [Merge]: a
    [MergeableCollection], or an object of another class. *)
Inductive ListItem : Type :=
| ACollection (l : loc)
| AnotherObject (l : loc).

(** ** The state monad *)

Definition M (W A : Type) : Type := W -> Result (A * W).

Definition ret {W A : Type} (a : A) : M W A := fun w => Ok (a, w).

Definition bind {W A B : Type} (m : M W A) (k : A -> M W B) : M W B :=
  fun w =>
    match m w with
    | Ok (a, w') => k a w'
    | Undefined why => Undefined why
    | OutOfFuel => OutOfFuel
    end.

Definition undefined {W A : Type} (why : UB) : M W A := fun _ => Undefined why.

Definition outOfFuel {W A : Type} : M W A := fun _ => OutOfFuel.

(** The current state. *)
Definition theWorld {W : Type} : M W W := fun w => Ok (w, w).

Definition lift {W A : Type} (r : Result A) : M W A :=
  fun w =>
    match r with
    | Ok a => Ok (a, w)
    | Undefined why => Undefined why
    | OutOfFuel => OutOfFuel
    end.

Notation "'let*' x ':=' m 'in' k" := (bind m (fun x => k))
  (at level 10, x name, m at level 100, k at level 200).
Notation "m ';;' k" := (bind m (fun _ => k))
  (at level 100, k at level 200, right associativity).

(** A loop over the elements of a list, in order. *)
Fixpoint forEach {W A : Type} (l : list A) (body : A -> M W unit) : M W unit :=
  match l with
  | [] => ret tt
  | x :: rest => body x ;; forEach rest body
  end.

(** A loop that carries a local variable. *)
Fixpoint foldM {W A S : Type} (l : list A) (s : S) (body : S -> A -> M W S) : M W S :=
  match l with
  | [] => ret s
  | x :: rest => let* s' := body s x in foldM rest s' body
  end.

(** ** Diagnostics *)

(** What reaches the diagnostics sink: ROOT's [Error(location, message)],
    and [LOGP(severity, message)] of the O2 framework. *)
Inductive Diagnostic : Type :=
| RootError (location message : string)
| Logged (severity message : string).

(** The build of the repository defines the macro
    [MERGEABLE_COLLECTION_STANDALONE] ([target_compile_definitions] in its
    [CMakeLists.txt]): what stands under [#ifndef] of it is left out. *)
Definition MERGEABLE_COLLECTION_STANDALONE : bool := true.

(** ** Objects and the world *)

Section Store.

(** What an object holds besides its name and class (the bins of a
    histogram, say) is left open. *)
Context {Payload : Type}.

Record TObject : Type := mkObject {
  GetName : string;
  IsA : TClass;
  payload : Payload
}.

(** The heap, one map per kind of object, and the name of [gDirectory]
    (null: [None]). *)
Record World : Type := mkWorld {
  objects : gmap loc (cell TObject);
  hlists : gmap loc (cell THashList);
  colls : gmap loc (cell MergeableCollection);
  iterators : gmap loc (cell TIterator);
  gDirectory : option string
}.

Definition set_objects (f : gmap loc (cell TObject) -> gmap loc (cell TObject))
    (w : World) : World :=
  mkWorld (f (objects w)) (hlists w) (colls w) (iterators w) (gDirectory w).

Definition set_hlists (f : gmap loc (cell THashList) -> gmap loc (cell THashList))
    (w : World) : World :=
  mkWorld (objects w) (f (hlists w)) (colls w) (iterators w) (gDirectory w).

Definition set_colls
    (f : gmap loc (cell MergeableCollection) -> gmap loc (cell MergeableCollection))
    (w : World) : World :=
  mkWorld (objects w) (hlists w) (f (colls w)) (iterators w) (gDirectory w).

Definition set_iterators (f : gmap loc (cell TIterator) -> gmap loc (cell TIterator))
    (w : World) : World :=
  mkWorld (objects w) (hlists w) (colls w) (f (iterators w)) (gDirectory w).

(** The capabilities of the stored objects, which belong to ROOT and not
    to this code: [Merge_method base list] is the state of [base] after
    [base->Merge(list)], a call that is taken to change its receiver
    only; [Transform action h name] is the histogram made by
    [ProjectionX], [ProjectionY], [ProfileX] or [ProfileY]. *)
Variable Merge_method : TObject -> list TObject -> Payload.
Variable Transform : string -> TObject -> string -> TObject.

(** *** Pointers *)

Definition read {T : Type} (h : gmap loc (cell T)) (l : loc) : Result T :=
  match h !! l with
  | Some (Live v) => Ok v
  | _ => Undefined UseAfterDelete
  end.

Definition derefObject (l : loc) : M World TObject :=
  fun w => match read (objects w) l with
           | Ok v => Ok (v, w) | Undefined why => Undefined why | OutOfFuel => OutOfFuel
           end.

Definition derefList (l : loc) : M World THashList :=
  fun w => match read (hlists w) l with
           | Ok v => Ok (v, w) | Undefined why => Undefined why | OutOfFuel => OutOfFuel
           end.

Definition derefColl (l : loc) : M World MergeableCollection :=
  fun w => match read (colls w) l with
           | Ok v => Ok (v, w) | Undefined why => Undefined why | OutOfFuel => OutOfFuel
           end.

Definition derefIter (l : loc) : M World TIterator :=
  fun w => match read (iterators w) l with
           | Ok v => Ok (v, w) | Undefined why => Undefined why | OutOfFuel => OutOfFuel
           end.

Definition storeObject (l : loc) (v : TObject) : M World unit :=
  fun w => Ok (tt, set_objects (insert l (Live v)) w).

Definition storeList (l : loc) (v : THashList) : M World unit :=
  fun w => Ok (tt, set_hlists (insert l (Live v)) w).

Definition storeColl (l : loc) (v : MergeableCollection) : M World unit :=
  fun w => Ok (tt, set_colls (insert l (Live v)) w).

Definition storeIter (l : loc) (v : TIterator) : M World unit :=
  fun w => Ok (tt, set_iterators (insert l (Live v)) w).

(** [new]: an address that was never used. *)
Definition newObject (v : TObject) : M World loc :=
  fun w => let l := fresh (dom (objects w)) in
           Ok (l, set_objects (insert l (Live v)) w).

Definition newList (v : THashList) : M World loc :=
  fun w => let l := fresh (dom (hlists w)) in
           Ok (l, set_hlists (insert l (Live v)) w).

Definition newColl (v : MergeableCollection) : M World loc :=
  fun w => let l := fresh (dom (colls w)) in
           Ok (l, set_colls (insert l (Live v)) w).

Definition newIter (v : TIterator) : M World loc :=
  fun w => let l := fresh (dom (iterators w)) in
           Ok (l, set_iterators (insert l (Live v)) w).

(** [delete] of an object, of an iterator ([delete] of a null pointer
    does nothing), and of a hash list, which deletes the objects it
    owns. *)
Definition deleteObject (l : loc) : M World unit :=
  derefObject l ;; fun w => Ok (tt, set_objects (insert l Deleted) w).

Definition deleteIter (p : option loc) : M World unit :=
  match p with
  | None => ret tt
  | Some l => derefIter l ;; fun w => Ok (tt, set_iterators (insert l Deleted) w)
  end.

Definition deleteList (l : loc) : M World unit :=
  let* hl := derefList l in
  forEach (hl_items hl) deleteObject ;;
  fun w => Ok (tt, set_hlists (insert l Deleted) w).

(** [obj->Clone()]: a new object with the same name, class and state. *)
Definition Clone (obj : loc) : M World loc :=
  let* o := derefObject obj in
  newObject o.

(** *** THashList *)

(** [FindObject(name)]: the first object of the list with this name. *)
Fixpoint FindObjectIn (items : list loc) (name : string) : M World (option loc) :=
  match items with
  | [] => ret None
  | l :: rest =>
      let* o := derefObject l in
      if String.eqb (GetName o) name then ret (Some l) else FindObjectIn rest name
  end.

Definition HashList_FindObject (hlist : loc) (name : string) : M World (option loc) :=
  let* hl := derefList hlist in
  FindObjectIn (hl_items hl) name.

Definition HashList_AddLast (hlist : loc) (obj : loc) : M World unit :=
  let* hl := derefList hlist in
  storeList hlist (mkHashList (hl_name hl) (hl_items hl ++ [obj])).

Fixpoint remove_first (obj : loc) (items : list loc) : list loc :=
  match items with
  | [] => []
  | l :: rest => if Nat.eqb l obj then rest else l :: remove_first obj rest
  end.

(** [Remove(obj)]: null when the list does not hold [obj]. *)
Definition HashList_Remove (hlist : loc) (obj : loc) : M World (option loc) :=
  let* hl := derefList hlist in
  if existsb (Nat.eqb obj) (hl_items hl) then
    storeList hlist (mkHashList (hl_name hl) (remove_first obj (hl_items hl))) ;;
    ret (Some obj)
  else ret None.

(** *** MergeableCollection: the map *)

Definition with_fMap (c : MergeableCollection) (m : option TMap) (v : Z)
  : MergeableCollection :=
  mkCollection (fName c) (fTitle c) m (fMustShowEmptyObject c) v (fMessages c).

Definition with_fMessages (c : MergeableCollection) (msgs : gmap string Z)
  : MergeableCollection :=
  mkCollection (fName c) (fTitle c) (fMap c) (fMustShowEmptyObject c)
    (fMapVersion c) msgs.

(** The constructor. *)
Definition new_MergeableCollection (name title : string) : M World loc :=
  newColl (mkCollection name title None false 0 ∅).

(** [Map]: "Wrapper to insure proper key formats (i.e. new vs old)".
    The result tells whether the returned pointer is [fMap] ([true]) or
    null ([false]). *)
Definition Map (this : loc) : M World bool :=
  let* c := derefColl this in
  match fMap c with
  | None => storeColl this (with_fMap c (Some []) 1) ;; ret true
  | Some m =>
      if (fMapVersion c <? 1)%Z then
        match MapOf.remap (MapOf.keys m) m with
        | None => ret false
        | Some m' => storeColl this (with_fMap c (Some m') 1) ;; ret true
        end
      else ret true
  end.

(** [Map()->...]: the map that [Map()] returns, dereferenced. *)
Definition theMap (this : loc) : M World TMap :=
  let* ok := Map this in
  if ok then
    let* c := derefColl this in
    match fMap c with
    | Some m => ret m
    | None => undefined NullDereference
    end
  else undefined NullDereference.

(** [TIter next(Map())]: the keys to visit; none for a null map. *)
Definition keysOfMap (this : loc) : M World (list string) :=
  let* ok := Map this in
  if ok then
    let* c := derefColl this in
    ret (match fMap c with Some m => MapOf.keys m | None => [] end)
  else ret [].

Definition Map_GetValue (this : loc) (key : string) : M World (option loc) :=
  let* m := theMap this in
  ret (MapOf.GetValue m key).

Definition Map_Add (this : loc) (key : string) (value : option loc) : M World unit :=
  let* m := theMap this in
  let* c := derefColl this in
  storeColl this (with_fMap c (Some (MapOf.Add m key value)) (fMapVersion c)).

(** [Map()->DeleteEntry(key)]: the map owns keys and values, so the hash
    list of the removed pair is deleted. *)
Definition Map_DeleteEntry (this : loc) (key : string) : M World bool :=
  let* m := theMap this in
  match MapOf.RemoveEntry m key with
  | None => ret false
  | Some (value, m') =>
      let* c := derefColl this in
      storeColl this (with_fMap c (Some m') (fMapVersion c)) ;;
      match value with
      | Some hlist => deleteList hlist
      | None => ret tt
      end ;;
      ret true
  end.

(** [fMessages[msg]++]. *)
Definition addMessage (this : loc) (msg : string) : M World unit :=
  let* c := derefColl this in
  storeColl this
    (with_fMessages c (<[msg := (default 0%Z (fMessages c !! msg) + 1)%Z]> (fMessages c))).

(** *** MergeableCollection: lookup *)

(** [internalObject]: "Get object for (identifier,objectName)". *)
Definition internalObject (this : loc) (identifier objectName : string)
  : M World (option loc) :=
  let* c := derefColl this in
  match fMap c with
  | None => ret None
  | Some _ =>
      let* hlist := Map_GetValue this identifier in
      match hlist with
      | None =>
          let* w := theWorld in
          addMessage this
            ("Did not find hashlist for identifier=" +:+ identifier +:+ " dir=" +:+
             default "" (gDirectory w)) ;;
          ret None
      | Some hl =>
          let* obj := HashList_FindObject hl objectName in
          match obj with
          | None =>
              addMessage this
                ("Did not find objectName=" +:+ objectName +:+ " in " +:+ identifier) ;;
              ret None
          | Some o => ret (Some o)
          end
      end
  end.

(** [getObject(identifier, objectName)]: "Get object for
    (identifier,objectName) triplet". *)
Definition getObjectAt (this : loc) (identifier objectName : string)
  : M World (option loc) :=
  let sidentifier :=
    if negb (TString.IsNull identifier) then
      let s1 := if negb (TString.BeginsWith "/" identifier)
                then TString.Prepend identifier "/" else identifier in
      if negb (TString.EndsWith "/" s1) then TString.Append s1 "/" else s1
    else identifier in
  internalObject this sidentifier objectName.

(** [getObject(fullIdentifier)]: "Get object key1/key2/.../objectName". *)
Definition getObject (this : loc) (fullIdentifier : string) : M World (option loc) :=
  let nslashes := TString.CountChar TString.slash fullIdentifier in
  if (nslashes =? 0)%nat then getObjectAt this "" fullIdentifier
  else
    let* identifier := lift (getIdentifier fullIdentifier) in
    let* objectName := lift (getObjectName fullIdentifier) in
    getObjectAt this identifier objectName.

(** [numberOfKeys]: "Get the number of keys we have". *)
Definition numberOfKeys (this : loc) : M World Z :=
  let* c := derefColl this in
  ret (match fMap c with
       | Some m => Z.of_nat (MapOf.GetSize m)
       | None => 0%Z
       end).

(** *** MergeableCollection: adoption *)

(** [internalAdopt]: "adopt an obj". The test that the object is
    mergeable only prints an error; [SetDirectory(0)] does not change
    anything modelled here. *)
Definition internalAdopt (this : loc) (identifier : string) (obj : option loc)
  : M World bool :=
  match obj with
  | None => ret false
  | Some o =>
      let* ob := derefObject o in
      let* found := Map_GetValue this identifier in
      let* hlist :=
        match found with
        | Some hl => ret hl
        | None =>
            let* hl := newList (mkHashList "" []) in
            Map_Add this identifier (Some hl) ;;
            let* l := derefList hl in
            storeList hl (mkHashList identifier (hl_items l)) ;;
            ret hl
        end in
      let* existingObj := HashList_FindObject hlist (GetName ob) in
      match existingObj with
      | Some _ => ret false
      | None => HashList_AddLast hlist o ;; ret true
      end
  end.

(** [adopt(identifier, obj)]: "adopt a given object, and associate it
    with pair key". *)
Definition adopt (this : loc) (identifier : string) (obj : option loc) : M World bool :=
  internalAdopt this (correctIdentifier identifier) obj.

(** [adopt(obj)]: "adopt a given object at top level (i.e. no key)". *)
Definition adoptTopLevel (this : loc) (obj : option loc) : M World bool :=
  internalAdopt this "" obj.

(** [internalAdopt] with what it sends to the diagnostics sink, returned
    beside its result: [Error] of ROOT in every build, [LOGP] in a build
    without [MERGEABLE_COLLECTION_STANDALONE] only ([standalone] says
    whether the macro is defined). [internalAdopt] above is its view on
    the result and the store. *)
Definition internalAdopt_reporting (standalone : bool) (this : loc) (identifier : string)
    (obj : option loc) : M World (bool * list Diagnostic) :=
  match obj with
  | None => ret (false, [RootError "adopt" "Cannot adopt a null object"])
  | Some o =>
      let* ob := derefObject o in
      let reported :=
        if negb (InheritsFrom (IsA ob) TObject_Class) || negb (HasMergeMethod (IsA ob))
        then [RootError "adopt" "Cannot adopt an object which is not mergeable!"]
        else [] in
      let* found := Map_GetValue this identifier in
      let* hlist :=
        match found with
        | Some hl => ret hl
        | None =>
            let* hl := newList (mkHashList "" []) in
            Map_Add this identifier (Some hl) ;;
            let* l := derefList hl in
            storeList hl (mkHashList identifier (hl_items l)) ;;
            ret hl
        end in
      let* existingObj := HashList_FindObject hlist (GetName ob) in
      match existingObj with
      | Some existing =>
          if standalone then ret (false, reported)
          else
            let* eo := derefObject existing in
            ret (false,
                 reported ++
                 [Logged "error"
                    ("Cannot adopt an already existing object : " +:+ identifier +:+
                     " -> " +:+ GetName eo)])
      | None => HashList_AddLast hlist o ;; ret (true, reported)
      end
  end.

(** [adopt(identifier, obj)] with what it sends to the diagnostics sink. *)
Definition adopt_reporting (standalone : bool) (this : loc) (identifier : string)
    (obj : option loc) : M World (bool * list Diagnostic) :=
  internalAdopt_reporting standalone this (correctIdentifier identifier) obj.

(** *** MergeableCollection: merging *)

(** [MergeObject]: "Add objToAdd to baseObject". *)
Definition MergeObject (baseObject objToAdd : loc) : M World bool :=
  let* base := derefObject baseObject in
  let* toAdd := derefObject objToAdd in
  if negb (bool_decide (TClass_Class (IsA base) = TClass_Class (IsA toAdd))) then
    ret false
  else if negb (InheritsFrom (IsA base) TObject_Class) ||
          negb (HasMergeMethod (IsA base)) then
    ret false
  else
    let list := [toAdd] in
    storeObject baseObject
      (mkObject (GetName base) (IsA base) (Merge_method base list)) ;;
    ret true.

(** The body of the innermost loop of [Merge]. *)
Definition mergeOne (this : loc) (identifier : string) (obj : loc) : M World unit :=
  let* o := derefObject obj in
  let newid := identifier +:+ GetName o in
  let* thisObject := getObject this newid in
  match thisObject with
  | None =>
      let* clone := Clone obj in
      let* ok := adopt this identifier (Some clone) in
      ret tt
  | Some t => MergeObject t obj ;; ret tt
  end.

(** The objects of a hash list, for [TIter next(list)]; none for a null
    list. *)
Definition itemsOf (hlist : option loc) : M World (list loc) :=
  match hlist with
  | None => ret []
  | Some hl => let* l := derefList hl in ret (hl_items l)
  end.

(** The body of the loop of [Merge] over the collections of the list. *)
Definition mergeCollection (this : loc) (count : Z) (currObj : ListItem) : M World Z :=
  match currObj with
  | AnotherObject _ => ret count
  | ACollection mergeCol =>
      let count := (count + 1)%Z in
      let* mc := derefColl mergeCol in
      match fMap mc with
      | Some _ => Map mergeCol ;; ret tt
      | None => ret tt
      end ;;
      let* mc := derefColl mergeCol in
      forEach (match fMap mc with Some m => MapOf.keys m | None => [] end)
        (fun identifier =>
           let* mc := derefColl mergeCol in
           let* otherList :=
             match fMap mc with
             | Some m => ret (MapOf.GetValue m identifier)
             | None => undefined NullDereference
             end in
           let* objs := itemsOf otherList in
           forEach objs (mergeOne this identifier)) ;;
      ret count
  end.

(** [Merge]: "Merge a list of MergeableCollection objects with this.
    Returns the number of merged objects (including this)". *)
Definition Merge (this : loc) (list : option (list ListItem)) : M World Z :=
  match list with
  | None => ret 0%Z
  | Some l =>
      if (length l =? 0)%nat then ret 1%Z
      else
        let* count := foldM l 0%Z (mergeCollection this) in
        ret (count + 1)%Z
  end.

(** *** MergeableCollection: pruning and attaching *)

(** [prune]: "Delete all objects which match the beginning of the
    identifier; returns the number of entries removed from the Map()". *)
Definition prune (this : loc) (identifier : string) : M World Z :=
  let* keys := keysOfMap this in
  foldM keys 0%Z
    (fun ndeleted key =>
       if TString.BeginsWith identifier key then
         let* ok := Map_DeleteEntry this key in
         ret (if ok : bool then (ndeleted + 1)%Z else ndeleted)
       else ret ndeleted).

(** [attach]: "attach an already existing mergeable collection to this
    one. It is attached at level identifier/. We take ownership of mc.
    If identifier is already existing we kill it if
    pruneFirstIfAlreadyExists is kTRUE (and attach mc) otherwise we
    return kFALSE (and do *not* attach mc)". *)
Definition attach (this : loc) (mc : loc) (identifier : string)
    (pruneFirstIfAlreadyExists : bool) : M World bool :=
  let* hlist := Map_GetValue this identifier in
  let* go :=
    match hlist with
    | Some _ =>
        if negb pruneFirstIfAlreadyExists then ret false
        else
          let* n := prune this identifier in
          if (n =? 0)%Z then ret false else ret true
    | None => ret true
    end in
  if go : bool then
    let* other := derefColl mc in
    forEach (match fMap other with Some m => MapOf.keys m | None => [] end)
      (fun str =>
         let* hl := Map_GetValue mc str in
         let newid := TString.ReplaceAll "//" "/" ("/" +:+ identifier +:+ str) in
         Map_Add this newid hl) ;;
    ret true
  else ret false.

(** *** MergeableCollection: projection *)

(** [project]: "To be implemented : would create a new collection
    starting at /key1/key2/...". *)
Definition project (this : loc) (identifier : string) : M World (option loc) :=
  let* c := derefColl this in
  match fMap c with
  | None => ret None
  | Some _ =>
      let* mergCol :=
        new_MergeableCollection (fName c +:+ " " +:+ identifier) (fTitle c) in
      let* keys := keysOfMap this in
      forEach keys
        (fun currIdentifier =>
           if negb (TString.Contains identifier currIdentifier) then ret tt
           else
             let* list := Map_GetValue this identifier in
             let* objs := itemsOf list in
             forEach objs
               (fun obj =>
                  let* clone := Clone obj in
                  let newkey := TString.ReplaceAll identifier "" currIdentifier in
                  let newkey := if String.eqb newkey "/" then "" else newkey in
                  internalAdopt mergCol newkey (Some clone) ;; ret tt)) ;;
      ret (Some mergCol)
  end.

(** *** MergeableCollection: removal *)

(** [remove]: "Remove a given object (given its
    fullIdentifier=/key1/key2/.../objectName). Note that we do *not*
    remove the /key1/key2/... entry even if there's no more object for
    this triplet". *)
Definition remove (this : loc) (fullIdentifier : string) : M World (option loc) :=
  let* identifier := lift (getIdentifier fullIdentifier) in
  let* hlist := Map_GetValue this identifier in
  match hlist with
  | None => ret None
  | Some hl =>
      let* obj := getObject this fullIdentifier in
      match obj with
      | None => ret None
      | Some o =>
          let* rmObj := HashList_Remove hl o in
          match rmObj with
          | None => ret None
          | Some r => ret (Some r)
          end
      end
  end.

(** *** MergeableCollection: sums *)

(** The loop of [getSum] over the keys of the pattern, all groups but
    the last: [false] as soon as the key of one level is in no
    alternative of its group. *)
Fixpoint keysMatch (identifier : string) (keyMatrix : list (list string))
    (ikeys : list nat) : Result bool :=
  match ikeys with
  | [] => Ok true
  | ikey :: rest =>
      match getKey identifier (Z.of_nat ikey) false with
      | Ok currKey =>
          let subKeyList := nth ikey keyMatrix [] in
          let matchKey := existsb (String.eqb currKey) subKeyList in
          if negb matchKey then Ok false else keysMatch identifier keyMatrix rest
      | Undefined why => Undefined why
      | OutOfFuel => OutOfFuel
      end
  end.

(** The body of the loop of [getSum] over the objects of one list. *)
Definition sumOne (keyMatrix : list (list string)) (sumObject : option loc) (obj : loc)
  : M World (option loc) :=
  let* o := derefObject obj in
  let currKey := GetName o in
  let subKeyList := default [] (last keyMatrix) in
  let matchKey := existsb (String.eqb currKey) subKeyList in
  if negb matchKey then ret sumObject
  else
    match sumObject with
    | None => let* c := Clone obj in ret (Some c)
    | Some s => MergeObject s obj ;; ret (Some s)
    end.

(** [getSum]: "Sum objects. The pattern must be in the form:
    /key1_1,key1_2,.../key2_1,key2_2,.../.../objectName_1,objectName_2...
    The logical or between patterns separated by commas is taken. Exact
    match is required for keys and objectNames". *)
Definition getSum (this : loc) (idPattern : string) : M World (option loc) :=
  let keyList := TString.Tokenize "/" idPattern in
  let keyMatrix := map (TString.Tokenize ",") keyList in
  let* keys := keysOfMap this in
  foldM keys None
    (fun sumObject identifier =>
       let* listMatchPattern :=
         lift (keysMatch identifier keyMatrix (seq 0 (length keyMatrix - 1))) in
       if negb listMatchPattern then ret sumObject
       else
         let* list := Map_GetValue this identifier in
         let* objs := itemsOf list in
         foldM objs sumObject (sumOne keyMatrix)).

(** *** Histogram accessors *)

(** [normalizeName]: "Replace / by _ to build a root-compliant histo
    name". *)
Definition normalizeName (this : loc) (identifier action : string) : M World string :=
  let* c := derefColl this in
  let name := fName c +:+ "_" +:+ identifier +:+ "_" +:+ action in
  ret (TString.ReplaceAll "-" "_" (TString.ReplaceAll "/" "_" name)).

(** [histoWithAction]: "Convert o to an histogram if possible, applying
    a given action if there". *)
Definition histoWithAction (this : loc) (identifier : string) (o : option loc)
    (action : string) : M World (option loc) :=
  match o with
  | None => ret None
  | Some l =>
      let* ob := derefObject l in
      if negb (InheritsFromName (IsA ob) "TH1") then ret None
      else if InheritsFrom (IsA ob) TH2_Class &&
              (String.eqb action "PX" || String.eqb action "PY" ||
               String.eqb action "PFX" || String.eqb action "PFY") then
        let* name := normalizeName this (identifier +:+ "/" +:+ GetName ob) action in
        let* h := newObject (Transform action ob name) in
        ret (Some h)
      else ret (Some l)
  end.

(** [arr->At(i)->String()] on the result of [Tokenize]. *)
Definition tokenAt (arr : list string) (i : nat) : M World string :=
  match arr !! i with
  | Some s => ret s
  | None => undefined NullDereference
  end.

(** [histo(fullIdentifier)]: "Get histogram
    key1/key2/.../objectName:action". *)
Definition histo (this : loc) (fullIdentifier : string) : M World (option loc) :=
  let sfullIdentifier := fullIdentifier in
  let* parts :=
    match TString.First ":" sfullIdentifier with
    | Some _ =>
        let arr := TString.Tokenize ":" sfullIdentifier in
        let* first := tokenAt arr 0 in
        if (1 <? length arr)%nat then
          let* second := tokenAt arr 1 in
          ret (first, TString.ToUpper second)
        else ret (first, "")
    | None => ret (fullIdentifier, "")
    end in
  let fullIdWithoutAction := fst parts in
  let action := snd parts in
  let nslashes := TString.CountChar TString.slash sfullIdentifier in
  let* o :=
    if (nslashes =? 0)%nat then getObjectAt this "" fullIdWithoutAction
    else
      let* identifier := lift (getIdentifier fullIdWithoutAction) in
      let* objectName := lift (getObjectName fullIdWithoutAction) in
      getObjectAt this identifier objectName in
  histoWithAction this fullIdWithoutAction o action.

(** [o->IsA()] through a pointer that may be null. *)
Definition IsA_of (o : option loc) : M World TClass :=
  match o with
  | None => undefined NullDereference
  | Some l => let* ob := derefObject l in ret (IsA ob)
  end.

(** [h2(fullIdentifier)]: "Short-cut method to grab a 2D histogram. Will
    return 0x0 if the object if not a TH2xxx". *)
Definition h2 (this : loc) (fullIdentifier : string) : M World (option loc) :=
  let* o := getObject this fullIdentifier in
  let* cl := IsA_of o in
  if InheritsFrom cl TH2_Class then ret o else ret None.

(** [prof(fullIdentifier)]: "Short-cut method to grab a TProfile
    histogram. Will return 0x0 if the object if not a TProfile". *)
Definition prof (this : loc) (fullIdentifier : string) : M World (option loc) :=
  let* o := getObject this fullIdentifier in
  let* cl := IsA_of o in
  if InheritsFrom cl TProfile_Class then ret o else ret None.

(** *** MergeableCollectionIterator *)

(** [createIterator]: "Create an iterator (must be deleted by the
    client)". *)
Definition createIterator (this : loc) (direction : bool)
  : M World (option MergeableCollectionIterator) :=
  let* c := derefColl this in
  match fMap c with
  | Some _ => ret (Some (mkIterator this None None direction))
  | None => ret None
  end.

Definition inDirection {A : Type} (direction : bool) (l : list A) : list A :=
  if direction then l else rev l.

(** [it->Next()] on a map iterator or a list iterator. *)
Definition TMapIter_Next (it : loc) : M World (option string) :=
  let* i := derefIter it in
  match i with
  | TMapIter [] => ret None
  | TMapIter (k :: rest) => storeIter it (TMapIter rest) ;; ret (Some k)
  | TListIter _ => undefined UseAfterDelete
  end.

Definition TListIter_Next (it : loc) : M World (option loc) :=
  let* i := derefIter it in
  match i with
  | TListIter [] => ret None
  | TListIter (o :: rest) => storeIter it (TListIter rest) ;; ret (Some o)
  | TMapIter _ => undefined UseAfterDelete
  end.

Definition with_cursors (it : MergeableCollectionIterator) (mi li : option loc)
  : MergeableCollectionIterator :=
  mkIterator (fkMergeableCollection it) mi li (fDirection it).

(** [Next]: "Advance to next object in the collection". The iterator is
    passed and returned with the result; [fuel] bounds the calls of
    [Next] by itself. *)
Fixpoint Next (fuel : nat) (it : MergeableCollectionIterator)
  : M World (option loc * MergeableCollectionIterator) :=
  match fuel with
  | O => outOfFuel
  | S fuel' =>
      let* step :=
        match fHashListIterator it with
        | Some li => ret (inr (li, it))
        | None =>
            let* mi :=
              match fMapIterator it with
              | Some mi => ret mi
              | None =>
                  let* c := derefColl (fkMergeableCollection it) in
                  match fMap c with
                  | None => undefined NullDereference
                  | Some m =>
                      newIter (TMapIter (inDirection (fDirection it) (MapOf.keys m)))
                  end
              end in
            let it1 := with_cursors it (Some mi) None in
            let* key := TMapIter_Next mi in
            match key with
            | None => ret (inl it1)
            | Some k =>
                let* list := Map_GetValue (fkMergeableCollection it) k in
                match list with
                | None => ret (inl it1)
                | Some hl =>
                    let* l := derefList hl in
                    let* li :=
                      newIter (TListIter (inDirection (fDirection it) (hl_items l))) in
                    ret (inr (li, with_cursors it1 (Some mi) (Some li)))
                end
            end
        end in
      match step with
      | inl it1 => ret (None, it1)
      | inr (li, it2) =>
          let* obj := TListIter_Next li in
          match obj with
          | None =>
              deleteIter (Some li) ;;
              Next fuel' (with_cursors it2 (fMapIterator it2) None)
          | Some o => ret (Some o, it2)
          end
      end
  end.

(** [Reset]: "Reset the iterator". The two pointers keep their
    values. *)
Definition Reset (it : MergeableCollectionIterator)
  : M World MergeableCollectionIterator :=
  deleteIter (fHashListIterator it) ;;
  deleteIter (fMapIterator it) ;;
  ret it.

(** *** MergeableCollection: messages, deletion *)

(** [clearMessages]: "clear pending messages". *)
Definition clearMessages (this : loc) : M World unit :=
  let* c := derefColl this in
  storeColl this (with_fMessages c ∅).

(** [Delete]: "Delete all the objects". [TMap::DeleteAll] deletes the
    values, each a hash list that owns its objects. *)
Definition Delete (this : loc) : M World unit :=
  let* c := derefColl this in
  match fMap c with
  | Some m =>
      forEach m (fun kv => match snd kv with
                           | Some hlist => deleteList hlist
                           | None => ret tt
                           end) ;;
      storeColl this (with_fMap c None (fMapVersion c))
  | None => ret tt
  end.

(** *** MergeableCollection: lists of names and of keys *)

(** [createListOfObjectNames]: "Create list of object names for
    /key1/key2/key...". *)
Definition createListOfObjectNames (this : loc) (identifier : string)
  : M World (list string) :=
  let* keys := keysOfMap this in
  foldM keys []
    (fun listOfNames currIdentifier =>
       if negb (String.eqb currIdentifier identifier) then ret listOfNames
       else
         let* list := Map_GetValue this identifier in
         let* objs := itemsOf list in
         foldM objs listOfNames
           (fun names obj => let* o := derefObject obj in ret (names ++ [GetName o]))).

(** [TObjArray::Sort] on strings that differ from one another: the
    ascending order of [TString::CompareTo], byte by byte. *)
Fixpoint insertSorted (s : string) (l : list string) : list string :=
  match l with
  | [] => [s]
  | x :: rest => if String.leb s x then s :: l else x :: insertSorted s rest
  end.

Definition TObjArray_Sort (l : list string) : list string := foldr insertSorted [] l.

(** The loop of [sortAllIdentifiers]: a key is added unless the array
    holds it already. *)
Definition addIdentifier (identifiers : list string) (sid : string) : list string :=
  if existsb (String.eqb sid) identifiers then identifiers else identifiers ++ [sid].

(** [sortAllIdentifiers]: "Sort our internal identifiers". *)
Definition sortAllIdentifiers (this : loc) : M World (list string) :=
  let* keys := keysOfMap this in
  ret (TObjArray_Sort (foldl addIdentifier [] keys)).

(** The body of the loop of [createListOfKeys]. *)
Definition addKey (index : Z) (keys : list string) (str : string) : M World (list string) :=
  let* oneid := lift (getKey str index false) in
  if (0 <? String.length oneid)%nat && negb (existsb (String.eqb oneid) keys)
  then ret (keys ++ [oneid])
  else ret keys.

(** [createListOfKeys]: "Create the list of keys at level index". *)
Definition createListOfKeys (this : loc) (index : Z) : M World (list string) :=
  let* ids := sortAllIdentifiers this in
  foldM ids [] (addKey index).

(** *** MergeableCollection: removal by type, empty objects *)

(** The body of the inner loop of [removeByType]. *)
Definition removeIfOfType (typeName : string) (list : option loc) (nremoved : Z) (o : loc)
  : M World Z :=
  let* ob := derefObject o in
  if String.eqb (ClassName (IsA ob)) typeName then
    match list with
    | Some hl => HashList_Remove hl o ;; ret tt
    | None => undefined NullDereference
    end ;;
    ret (nremoved + 1)%Z
  else ret nremoved.

(** [removeByType]: "Remove all the objects in this collection that are
    of a given type". *)
Definition removeByType (this : loc) (typeName : string) : M World Z :=
  let* keys := keysOfMap this in
  foldM keys 0%Z
    (fun nremoved identifier =>
       let* list := Map_GetValue this identifier in
       let* objs := itemsOf list in
       foldM objs nremoved (removeIfOfType typeName list)).

(** Whether [GetEntries()] of a histogram is zero: a capability of the
    stored objects. *)
Variable GetEntries_is_zero : TObject -> bool.

(** [IsEmptyObject]: "Check if object is empty (done only for TH1, so
    far)". *)
Definition IsEmptyObject (obj : option loc) : M World bool :=
  match obj with
  | None => undefined NullDereference
  | Some l =>
      let* ob := derefObject l in
      if InheritsFrom (IsA ob) TH1_Class then
        if GetEntries_is_zero ob then ret true else ret false
      else ret false
  end.

(** [pruneEmptyObjects]: "Delete the empty objects (Implemented for TH1
    only)". *)
Definition pruneEmptyObjects (this : loc) : M World unit :=
  let* keys := keysOfMap this in
  let* toBeRemoved :=
    foldM keys []
      (fun toBeRemoved identifier =>
         let* hlist := Map_GetValue this identifier in
         let* objs := itemsOf hlist in
         foldM objs toBeRemoved
           (fun toBeRemoved obj =>
              let* empty := IsEmptyObject (Some obj) in
              if empty : bool then
                let* ob := derefObject obj in
                ret (toBeRemoved ++ [identifier +:+ GetName ob])
              else ret toBeRemoved)) in
  forEach toBeRemoved (fun key => remove this key ;; ret tt).

(** *** Histogram accessors with two arguments *)

(** [histo(identifier, objectName)]: "Get histogram
    key1/key2/.../objectName:action". The object is looked up under
    [objectName] as it is given, action included. *)
Definition histoAt (this : loc) (identifier objectName : string) : M World (option loc) :=
  let* o := getObjectAt this identifier objectName in
  match TString.First ":" objectName with
  | Some _ =>
      let arr := TString.Tokenize ":" objectName in
      let* action :=
        if (1 <? length arr)%nat then
          let* second := tokenAt arr 1 in ret (TString.ToUpper second)
        else ret "" in
      histoWithAction this identifier o action
  | None =>
      match o with
      | Some l =>
          let* ob := derefObject l in
          if InheritsFrom (IsA ob) TH1_Class then ret (Some l) else ret None
      | None => ret None
      end
  end.

(** [h2(identifier, objectName)] and [prof(identifier, objectName)]. *)
Definition h2At (this : loc) (identifier objectName : string) : M World (option loc) :=
  let* o := getObjectAt this identifier objectName in
  let* cl := IsA_of o in
  if InheritsFrom cl TH2_Class then ret o else ret None.

Definition profAt (this : loc) (identifier objectName : string) : M World (option loc) :=
  let* o := getObjectAt this identifier objectName in
  let* cl := IsA_of o in
  if InheritsFrom cl TProfile_Class then ret o else ret None.

(** *** Counting with the iterator *)

(** [TIter next(createIterator())]: [next()] on a null iterator is null;
    the destructor of [TIter] deletes the iterator, whose destructor
    calls [Reset]. *)
Definition TIter_Next (fuel : nat) (it : option MergeableCollectionIterator)
  : M World (option loc * option MergeableCollectionIterator) :=
  match it with
  | None => ret (None, None)
  | Some i => let* r := Next fuel i in ret (fst r, Some (snd r))
  end.

Definition TIter_delete (it : option MergeableCollectionIterator) : M World unit :=
  match it with
  | None => ret tt
  | Some i => Reset i ;; ret tt
  end.

(** The loop [while (next()) ++count]; [fuel] bounds its turns, and the
    calls of [Next] by itself in each turn. *)
Fixpoint countLoop (fuel turns : nat) (it : option MergeableCollectionIterator) (count : Z)
  : M World (Z * option MergeableCollectionIterator) :=
  match turns with
  | O => outOfFuel
  | S turns' =>
      let* r := TIter_Next fuel it in
      match fst r with
      | None => ret (count, snd r)
      | Some _ => countLoop fuel turns' (snd r) (count + 1)%Z
      end
  end.

(** [numberOfObjects]: "Get the number of objects we hold". *)
Definition numberOfObjects (fuel : nat) (this : loc) : M World Z :=
  let* it := createIterator this kIterForward in
  let* r := countLoop fuel fuel it 0%Z in
  TIter_delete (snd r) ;;
  ret (fst r).

(** *** MergeableCollectionProxy *)

(** The proxy refers to its collection and to one of its hash lists. *)
Record MergeableCollectionProxy : Type := mkProxy {
  fOC : loc;
  fList : loc
}.

(** [createProxy]: "Create a proxy starting at identifier. If
    createIfNeeded is true, then the identifier is inserted into the
    collection if it does not exist yet (in which case this method always
    returns a non null proxy)". *)
Definition createProxy (this : loc) (identifier : string) (createIfNeeded : bool)
  : M World (option MergeableCollectionProxy) :=
  let sidentifier := correctIdentifier identifier in
  let* list := Map_GetValue this sidentifier in
  match list with
  | Some hl => ret (Some (mkProxy this hl))
  | None =>
      if negb createIfNeeded then ret None
      else
        let* hl := newList (mkHashList "" []) in
        Map_Add this sidentifier (Some hl) ;;
        let* l := derefList hl in
        storeList hl (mkHashList sidentifier (hl_items l)) ;;
        ret (Some (mkProxy this hl))
  end.

(** [MergeableCollectionProxy::adopt(obj)]. *)
Definition Proxy_adopt (p : MergeableCollectionProxy) (obj : option loc) : M World bool :=
  let* l := derefList (fList p) in
  adopt (fOC p) (hl_name l) obj.

(** [MergeableCollectionProxy::adopt(identifier, obj)]: "adopt a given
    object, and associate it with pair key". *)
Definition Proxy_adoptAt (p : MergeableCollectionProxy) (identifier : string)
    (obj : option loc) : M World bool :=
  let* l := derefList (fList p) in
  adopt (fOC p) (hl_name l +:+ identifier) obj.

(** [MergeableCollectionProxy::getObject]. *)
Definition Proxy_getObject (p : MergeableCollectionProxy) (objectName : string)
  : M World (option loc) :=
  HashList_FindObject (fList p) objectName.

(** [MergeableCollectionProxy::histo]. *)
Definition Proxy_histo (p : MergeableCollectionProxy) (objectName : string)
  : M World (option loc) :=
  match TString.First ":" objectName with
  | Some _ =>
      let arr := TString.Tokenize ":" objectName in
      let* action :=
        if (1 <? length arr)%nat then
          let* second := tokenAt arr 1 in ret (TString.ToUpper second)
        else ret "" in
      let* oname := tokenAt arr 0 in
      let* o := Proxy_getObject p oname in
      histoWithAction (fOC p) "" o action
  | None =>
      let* o := Proxy_getObject p objectName in
      match o with
      | Some l =>
          let* ob := derefObject l in
          if InheritsFrom (IsA ob) TH1_Class then ret (Some l) else ret None
      | None => ret None
      end
  end.

(** [MergeableCollectionProxy::h2] and [MergeableCollectionProxy::prof]. *)
Definition Proxy_h2 (p : MergeableCollectionProxy) (objectName : string)
  : M World (option loc) :=
  let* o := Proxy_getObject p objectName in
  let* cl := IsA_of o in
  if InheritsFrom cl TH2_Class then ret o else ret None.

Definition Proxy_prof (p : MergeableCollectionProxy) (objectName : string)
  : M World (option loc) :=
  let* o := Proxy_getObject p objectName in
  let* cl := IsA_of o in
  if InheritsFrom cl TProfile_Class then ret o else ret None.

(** [MergeableCollectionProxy::createIterator]: an iterator on the hash
    list. *)
Definition Proxy_createIterator (p : MergeableCollectionProxy) (dir : bool) : M World loc :=
  let* l := derefList (fList p) in
  newIter (TListIter (inDirection dir (hl_items l))).

End Store.

Arguments TObject Payload : clear implicits.
Arguments World Payload : clear implicits.

(** ** Concrete stores

    Objects whose state is a counter and whose [Merge] adds the counters
    of the list to the receiver, as a histogram adds bin contents. *)

Module Scenario.

Definition counterMerge (base : TObject Z) (list : list (TObject Z)) : Z :=
  (payload base + foldr (fun o acc => payload o + acc) 0 list)%Z.

Definition renamed (action : string) (h : TObject Z) (name : string) : TObject Z :=
  mkObject name (IsA h) (payload h).

Definition TH1F_Class : TClass := mkClass "TH1F" ["TH1"; "TNamed"; "TObject"] true.
Definition TH2F_Class : TClass :=
  mkClass "TH2F" ["TH2"; "TH1"; "TNamed"; "TObject"] true.

Definition nothing : World Z := mkWorld ∅ ∅ ∅ ∅ None.

(** The result of a computation started in the empty world. *)
Definition outcome {A : Type} (m : M (World Z) A) : Result A :=
  match m nothing with
  | Ok (a, _) => Ok a
  | Undefined why => Undefined why
  | OutOfFuel => OutOfFuel
  end.

(** A destination holding a [TH1F] named [h] at [/A/] and a source
    holding a [TH2F] of the same name at the same path. *)
Definition mismatched_pair : M (World Z) (loc * loc * loc * loc) :=
  let* dest := new_MergeableCollection "dest" "" in
  let* src := new_MergeableCollection "src" "" in
  let* p1 := newObject (mkObject "h" TH1F_Class 5%Z) in
  let* p2 := newObject (mkObject "h" TH2F_Class 7%Z) in
  adopt dest "/A/" (Some p1) ;;
  adopt src "/A/" (Some p2) ;;
  ret (dest, src, p1, p2).

(** An empty destination and a source holding [h] at [/B/]. *)
Definition attachable : M (World Z) (loc * loc * loc) :=
  let* dest := new_MergeableCollection "dest" "" in
  let* src := new_MergeableCollection "src" "" in
  let* p := newObject (mkObject "h" TH1F_Class 5%Z) in
  adopt src "/B/" (Some p) ;;
  ret (dest, src, p).

(** A store holding [name] at [/x/y/]. *)
Definition nested : M (World Z) (loc * loc) :=
  let* c := new_MergeableCollection "store" "" in
  let* p := newObject (mkObject "name" TH1F_Class 5%Z) in
  adopt c "/x/y/" (Some p) ;;
  ret (c, p).

(** A store holding [h] at top level. *)
Definition top_level : M (World Z) (loc * loc) :=
  let* c := new_MergeableCollection "store" "" in
  let* p := newObject (mkObject "h" TH1F_Class 5%Z) in
  adoptTopLevel c (Some p) ;;
  ret (c, p).

(** A store holding [P1], named [h], at [/DET/], and a second object
    [P2] of the same name, not adopted. *)
Definition det_store : M (World Z) (loc * loc * loc) :=
  let* c := new_MergeableCollection "store" "" in
  let* p1 := newObject (mkObject "h" TH1F_Class 5%Z) in
  let* p2 := newObject (mkObject "h" TH1F_Class 7%Z) in
  adopt c "/DET/" (Some p1) ;;
  ret (c, p1, p2).

(** A store holding [h] at [/A/B/] and [h] at [/A/C/]. *)
Definition two_levels : M (World Z) (loc * loc * loc) :=
  let* c := new_MergeableCollection "store" "" in
  let* p1 := newObject (mkObject "h" TH1F_Class 5%Z) in
  let* p2 := newObject (mkObject "h" TH1F_Class 7%Z) in
  adopt c "/A/B/" (Some p1) ;;
  adopt c "/A/C/" (Some p2) ;;
  ret (c, p1, p2).

(** A store holding [h] and [g] at [/A/], with an iterator on it. *)
Definition iterated : M (World Z) (loc * loc * MergeableCollectionIterator) :=
  let* c := new_MergeableCollection "store" "" in
  let* p1 := newObject (mkObject "h" TH1F_Class 5%Z) in
  let* p2 := newObject (mkObject "g" TH1F_Class 7%Z) in
  adopt c "/A/" (Some p1) ;;
  adopt c "/A/" (Some p2) ;;
  let* it := createIterator c kIterForward in
  match it with
  | Some i => ret (p1, p2, i)
  | None => undefined NullDereference
  end.

(** A store holding [h] at [/A/B/]. *)
Definition deeper : M (World Z) (loc * loc) :=
  let* c := new_MergeableCollection "store" "" in
  let* p := newObject (mkObject "h" TH1F_Class 5%Z) in
  adopt c "/A/B/" (Some p) ;;
  ret (c, p).

(** A store holding an empty [TH1F] named [h] and a [TH2F] named [g] at
    [/A/], and a [TH1F] named [k] at [/B/]. *)
Definition mixed : M (World Z) (loc * loc * loc * loc) :=
  let* c := new_MergeableCollection "store" "" in
  let* p1 := newObject (mkObject "h" TH1F_Class 0%Z) in
  let* p2 := newObject (mkObject "g" TH2F_Class 7%Z) in
  let* p3 := newObject (mkObject "k" TH1F_Class 3%Z) in
  adopt c "/A/" (Some p1) ;;
  adopt c "/A/" (Some p2) ;;
  adopt c "/B/" (Some p3) ;;
  ret (c, p1, p2, p3).

(** A histogram is empty when its counter is zero. *)
Definition noEntries (o : TObject Z) : bool := (payload o =? 0)%Z.

(** A store read back from old data: its map is in the old key format
    ([fMapVersion] 0), with [P1], named [h], at [/DET/] and an empty list
    at [./RUN/]; [P2], of the same name, is not adopted. *)
Definition legacy : World Z :=
  mkWorld
    {[ 0 := Live (mkObject "h" TH1F_Class 5%Z);
       1 := Live (mkObject "h" TH1F_Class 7%Z) ]}
    {[ 0 := Live (mkHashList "/DET/" [0]); 1 := Live (mkHashList "./RUN/" []) ]}
    {[ 0 := Live (mkCollection "store" "" (Some [("/DET/", Some 0); ("./RUN/", Some 1)])
                    false 0 ∅) ]}
    ∅ None.
(** The world that a computation started in the empty world leaves. *)
Definition world_after {A : Type} (m : M (World Z) A) : World Z :=
  match m nothing with
  | Ok (_, w) => w
  | _ => nothing
  end.

(** [MergeObject] and [Merge] on the mismatched pair: the result, and
    the destination object afterwards. *)
Definition mergeObject_mismatched : M (World Z) (bool * TObject Z) :=
  let* s := mismatched_pair in
  let '(dest, src, p1, p2) := s in
  let* r := MergeObject counterMerge p1 p2 in
  let* o := derefObject p1 in
  ret (r, o).

Definition merge_mismatched : M (World Z) (Z * TObject Z) :=
  let* s := mismatched_pair in
  let '(dest, src, p1, p2) := s in
  let* n := Merge counterMerge dest (Some [ACollection src]) in
  let* o := derefObject p1 in
  ret (n, o).

(** [attach] of the source at [/A/]: the result, the maps of the
    destination and of the source, and what the source still answers. *)
Definition attached
  : M (World Z) (bool * option TMap * option TMap * option loc * Z * loc) :=
  let* s := attachable in
  let '(dest, src, p) := s in
  let* ok := attach dest src "/A/" false in
  let* d := derefColl dest in
  let* sc := derefColl src in
  let* found := getObject src "/B/h" in
  let* n := numberOfKeys src in
  ret (ok, fMap d, fMap sc, found, n, p).

(** [project("/x/")] of the nested store: the number of keys of the
    projection and what it answers for [/y/name]. *)
Definition projected : M (World Z) (option (Z * option loc)) :=
  let* s := nested in
  let '(c, p) := s in
  let* r := project c "/x/" in
  match r with
  | None => ret None
  | Some pc =>
      let* n := numberOfKeys pc in
      let* found := getObject pc "/y/name" in
      ret (Some (n, found))
  end.

(** The names of the objects that a store holds under a key. *)
Definition names_at (c : loc) (key : string) : M (World Z) (list string) :=
  let* hl := Map_GetValue c key in
  let* objs := itemsOf hl in
  foldM objs [] (fun names o => let* ob := derefObject o in ret (names ++ [GetName ob])).

(** [project("/x/")] of a store holding [name] at [/x/y/] and [top] at
    [/x/]: the keys of the projection and the names it holds under the
    keys [y/], [""] and [/y/]. *)
Definition projected_with_top
  : M (World Z) (list string * list string * list string * list string) :=
  let* c := new_MergeableCollection "store" "" in
  let* p1 := newObject (mkObject "name" TH1F_Class 5%Z) in
  let* p2 := newObject (mkObject "top" TH1F_Class 7%Z) in
  adopt c "/x/y/" (Some p1) ;;
  adopt c "/x/" (Some p2) ;;
  let* r := project c "/x/" in
  match r with
  | None => undefined NullDereference
  | Some pc =>
      let* keys := keysOfMap pc in
      let* below := names_at pc "y/" in
      let* top := names_at pc "" in
      let* canonical := names_at pc "/y/" in
      ret (keys, below, top, canonical)
  end.

(** [remove("h")] on the store holding [h] at top level: the object,
    the lookup before, the result of [remove], the lookup after. *)
Definition removed_top_level
  : M (World Z) (loc * option loc * option loc * option loc) :=
  let* s := top_level in
  let '(c, p) := s in
  let* before := getObject c "h" in
  let* r := remove c "h" in
  let* after := getObject c "h" in
  ret (p, before, r, after).

(** [Next], [Reset], [Next]. *)
Definition reset_then_next : M (World Z) (loc * option loc * option loc) :=
  let* s := iterated in
  let '(p1, p2, it) := s in
  let* r1 := Next 8 it in
  let* it1 := Reset (snd r1) in
  let* r2 := Next 8 it1 in
  ret (p1, fst r1, fst r2).

(** [Next] until the end, [Reset], [Next]. *)
Definition reset_after_the_end : M (World Z) (option loc) :=
  let* s := iterated in
  let '(p1, p2, it) := s in
  let* r1 := Next 8 it in
  let* r2 := Next 8 (snd r1) in
  let* r3 := Next 8 (snd r2) in
  let* it1 := Reset (snd r3) in
  let* r4 := Next 8 it1 in
  ret (fst r4).

(** [Reset] on the iterator as it was created, then [Next]. *)
Definition reset_at_the_start : M (World Z) (loc * option loc) :=
  let* s := iterated in
  let '(p1, p2, it) := s in
  let* it1 := Reset it in
  let* r1 := Next 8 it1 in
  ret (p1, fst r1).

(** [Next] and [Next] without [Reset], for comparison. *)
Definition next_twice : M (World Z) (loc * loc * option loc * option loc) :=
  let* s := iterated in
  let '(p1, p2, it) := s in
  let* r1 := Next 8 it in
  let* r2 := Next 8 (snd r1) in
  ret (p1, p2, fst r1, fst r2).

(** [getSum("A/h")] on the store holding [h] at [/A/B/]. *)
Definition sum_beyond_the_pattern : M (World Z) (option (TObject Z)) :=
  let* s := deeper in
  let '(c, p) := s in
  let* r := getSum counterMerge c "A/h" in
  match r with
  | None => ret None
  | Some l => let* o := derefObject l in ret (Some o)
  end.

End Scenario.

(** ** Definitions used by the statements and the proofs *)

(** *** Key segments *)

Definition slashFree (s : string) : bool :=
  (TString.CountChar TString.slash s =? 0)%nat.

(** A key segment: not empty, without separator. *)
Definition valid_segment (s : string) : bool :=
  negb (TString.IsNull s) && slashFree s.

(** The segments joined by the separator, as in [A/B]. *)
Definition joinSegments (segs : list string) : string := String.concat "/" segs.

(** The positions of the separators of [s], which starts at [pos]. *)
Fixpoint positions (s : string) (pos : nat) : list nat :=
  match s with
  | EmptyString => []
  | String a r =>
      if Ascii.eqb a TString.slash then pos :: positions r (S pos) else positions r (S pos)
  end.

(** Every segment behind a separator, as in [/A/B]. *)
Definition joinAll (segs : list string) : string :=
  foldr (fun seg acc => "/" +:+ seg +:+ acc) "" segs.

(** Where the segments of [joinAll segs] begin, from [off] on. *)
Fixpoint offsets (segs : list string) (off : nat) : list nat :=
  match segs with
  | [] => []
  | seg :: rest => off :: offsets rest (off + 1 + String.length seg)
  end.

(** *** Patterns of [getSum] *)

(** The key that [getSum] reads at level [i] of a path. *)
Definition keyAt (identifier : string) (i : nat) : string :=
  match getKey identifier (Z.of_nat i) false with
  | Ok key => key
  | _ => ""
  end.

(** The alternation groups of a pattern. *)
Definition patternGroups (idPattern : string) : list (list string) :=
  map (TString.Tokenize ",") (TString.Tokenize "/" idPattern).

Definition memberOf (group : list string) (s : string) : bool :=
  existsb (String.eqb s) group.

(** Each key group of the pattern, that is each group but the last,
    holds the key that the path has at the level of the group. *)
Definition keyed (keyMatrix : list (list string)) (identifier : string) : bool :=
  forallb (fun i => memberOf (nth i keyMatrix []) (keyAt identifier i))
          (seq 0 (length keyMatrix - 1)).

(** The selection of [getSum]: the key groups of the pattern hold the
    keys of the path, and the last group holds the name. *)
Definition selects (keyMatrix : list (list string)) (identifier name : string) : bool :=
  keyed keyMatrix identifier && memberOf (default [] (last keyMatrix)) name.

(** The key levels of a path. *)
Definition keyLevels (identifier : string) : list string :=
  TString.Tokenize "/" identifier.

(** The selection as the specification words it: every key level of the
    path is in the group of its level, and the name is in the last
    group. *)
Definition selects_every_level (keyMatrix : list (list string)) (identifier name : string)
  : bool :=
  let keyGroups := take (length keyMatrix - 1) keyMatrix in
  forallb (fun i => memberOf (nth i keyGroups []) (nth i (keyLevels identifier) ""))
          (seq 0 (length (keyLevels identifier))) &&
  memberOf (default [] (last keyMatrix)) name.

(** *** Identifiers *)

(** [n] separators. *)
Fixpoint slashes (n : nat) : string :=
  match n with
  | O => ""
  | S n' => "/" +:+ slashes n'
  end.

(** Every [c] of [s] replaced by [d]. *)
Fixpoint substitute (c d : ascii) (s : string) : string :=
  match s with
  | EmptyString => EmptyString
  | String a r => String (if Ascii.eqb a c then d else a) (substitute c d r)
  end.

(** The key under which the two-argument [getObject] looks an
    identifier up: a separator is put in front and at the end, where
    there is none. *)
Definition enclosed (identifier : string) : string :=
  if negb (TString.IsNull identifier) then
    let s1 := if negb (TString.BeginsWith "/" identifier)
              then TString.Prepend identifier "/" else identifier in
    if negb (TString.EndsWith "/" s1) then TString.Append s1 "/" else s1
  else identifier.

(** Every key of the map is bound to a hash list, as [adopt] and
    [createProxy] bind it. *)
Definition bound (m : TMap) : Prop := Forall (fun kv : string * option loc => snd kv <> None) m.

(** [n] colons. *)
Fixpoint colons (n : nat) : string :=
  match n with
  | O => ""
  | S n' => String ":" (colons n')
  end.

(** The list of keys of [createListOfKeys] once the key of [str] at
    level [i] has been looked at. *)
Definition withKeyAt (i : nat) (keys : list string) (str : string) : list string :=
  if (0 <? String.length (keyAt str i))%nat && negb (existsb (String.eqb (keyAt str i)) keys)
  then keys ++ [keyAt str i]
  else keys.


(** The test of [internalAdopt] on the class of the object. *)
Definition mergeable (c : TClass) : bool :=
  InheritsFrom c TObject_Class && HasMergeMethod c.

Section Specification.

Context {Payload : Type}.
Variable Merge_method : TObject Payload -> list (TObject Payload) -> Payload.

(** *** Worlds without dangling pointers *)

Definition live {T : Type} (h : gmap loc (cell T)) (l : loc) : Prop :=
  exists v, h !! l = Some (Live v).

Definition liveb {T : Type} (h : gmap loc (cell T)) (l : loc) : bool :=
  match h !! l with
  | Some (Live _) => true
  | _ => false
  end.

(** No pointer held by a live collection or a live hash list dangles. *)
Definition closed (w : World Payload) : Prop :=
  (forall l c m k hl, colls w !! l = Some (Live c) -> fMap c = Some m ->
     (k, Some hl) ∈ m -> live (hlists w) hl) /\
  (forall l h o, hlists w !! l = Some (Live h) -> o ∈ hl_items h -> live (objects w) o).

Definition closedb (w : World Payload) : bool :=
  forallb
    (fun e : loc * cell MergeableCollection =>
       match snd e with
       | Live c =>
           match fMap c with
           | Some m =>
               forallb (fun kv : string * option loc =>
                          match snd kv with
                          | Some hl => liveb (hlists w) hl
                          | None => true
                          end) m
           | None => true
           end
       | Deleted => true
       end)
    (map_to_list (colls w)) &&
  forallb
    (fun e : loc * cell THashList =>
       match snd e with
       | Live h => forallb (liveb (objects w)) (hl_items h)
       | Deleted => true
       end)
    (map_to_list (hlists w)).

(** A live collection whose map has been created. *)
Definition mapped (w : World Payload) (l : loc) : Prop :=
  exists c m, colls w !! l = Some (Live c) /\ fMap c = Some m.

(** What is live stays live, and a collection keeps its map. *)
Definition grows (w w' : World Payload) : Prop :=
  (forall l, live (objects w) l -> live (objects w') l) /\
  (forall l, live (hlists w) l -> live (hlists w') l) /\
  (forall l, live (colls w) l -> live (colls w') l) /\
  (forall l, mapped w l -> mapped w' l).

(** [m] returns from [w], in a world without dangling pointers that
    keeps alive what was, with a result that satisfies [Q]. *)
Definition keeps {A : Type} (w : World Payload) (m : M (World Payload) A)
    (Q : A -> World Payload -> Prop) : Prop :=
  exists a w', m w = Ok (a, w') /\ closed w' /\ grows w w' /\ Q a w'.

(** The hash lists of [m'] are hash lists of [m]. *)
Definition values_among (m m' : TMap) : Prop :=
  forall k hl, (k, Some hl) ∈ m' -> exists k', (k', Some hl) ∈ m.

(** A collection whose map exists in the current key format, as the
    constructor and the member functions leave it: [Map] returns this
    map and changes nothing. *)
Definition current (w : World Payload) (this : loc) (m : TMap) : Prop :=
  exists c, colls w !! this = Some (Live c) /\ fMap c = Some m /\ (1 <= fMapVersion c)%Z.

(** *** The entries of a store *)

Definition itemsIn (w : World Payload) (hlist : option loc) : list loc :=
  match hlist with
  | Some hl => match hlists w !! hl with
               | Some (Live h) => hl_items h
               | _ => []
               end
  | None => []
  end.

Definition nameOf (w : World Payload) (o : loc) : string :=
  match objects w !! o with
  | Some (Live ob) => GetName ob
  | _ => ""
  end.

(** The last group of the pattern holds the name of the object. *)
Definition named (w : World Payload) (keyMatrix : list (list string)) (o : loc) : bool :=
  memberOf (default [] (last keyMatrix)) (nameOf w o).

(** The entries of a store, (key-path, object), in the order of its
    traversal. *)
Definition traversal (w : World Payload) (m : TMap) : list (string * loc) :=
  flat_map (fun k => map (pair k) (itemsIn w (MapOf.GetValue m k))) (MapOf.keys m).

(** The entries that a pattern selects. *)
Definition selected (w : World Payload) (keyMatrix : list (list string)) (m : TMap)
  : list (string * loc) :=
  List.filter (fun e => selects keyMatrix (fst e) (nameOf w (snd e))) (traversal w m).

(** The sum of a list of objects: a clone of the first, into which
    each of the others is merged in turn; null for no object. *)
Definition sumOf (objs : list loc) : M (World Payload) (option loc) :=
  match objs with
  | [] => ret None
  | o :: rest =>
      let* s := Clone o in
      forEach rest (fun x => MergeObject Merge_method s x ;; ret tt) ;;
      ret (Some s)
  end.

(** What is left of a sum once the accumulator is [acc], with the
    objects [l] still to add. *)
Definition resume (acc : option loc) (l : list loc) : M (World Payload) (option loc) :=
  match acc with
  | None => sumOf l
  | Some s => forEach l (fun x => MergeObject Merge_method s x ;; ret tt) ;; ret (Some s)
  end.

(** The objects of [w0] are alive in [w'], under their names. *)
Definition names_agree (w0 w' : World Payload) : Prop :=
  forall o ob, objects w0 !! o = Some (Live ob) ->
               exists ob', objects w' !! o = Some (Live ob') /\ GetName ob' = GetName ob.

(** The objects of a list have distinct names. *)
Definition unique_names (w : World Payload) (items : list loc) : Prop :=
  NoDup (map (nameOf w) items).

(** [w'] has the collections and the hash lists of [w0]. *)
Definition same_store (w0 w' : World Payload) : Prop :=
  colls w' = colls w0 /\ hlists w' = hlists w0.

(** *** Stores whose keys are bound, messages *)

(** The map of a collection, if it has one, binds its keys. *)
Definition store_bound (w : World Payload) (this : loc) : Prop :=
  forall c m, colls w !! this = Some (Live c) -> fMap c = Some m -> bound m.

(** The pending messages of a collection. *)
Definition messages (w : World Payload) (this : loc) : gmap string Z :=
  match colls w !! this with
  | Some (Live c) => fMessages c
  | _ => ∅
  end.

(** *** Iteration *)

(** The objects of the hash lists bound to the keys [ks], each list in
    the direction [d]. *)
Definition objectsOf (w : World Payload) (m : TMap) (d : bool) (ks : list string) : list loc :=
  flat_map (fun k => inDirection d (itemsIn w (MapOf.GetValue m k))) ks.

(** The objects of a store in the order of its iteration. *)
Definition iteration (w : World Payload) (m : TMap) (d : bool) : list loc :=
  objectsOf w m d (inDirection d (MapOf.keys m)).

(** [n] calls of [Next]: what they return, and the iterator they
    leave. *)
Fixpoint nextN (fuel n : nat) (it : MergeableCollectionIterator)
  : M (World Payload) (list (option loc) * MergeableCollectionIterator) :=
  match n with
  | O => ret ([], it)
  | S n' =>
      let* r := Next fuel it in
      let* rs := nextN fuel n' (snd r) in
      ret (fst r :: fst rs, snd rs)
  end.

(** The iterator [it] has moved and is left with [rest] to visit. *)
Definition visiting (w : World Payload) (this : loc) (m : TMap) (d : bool)
    (it : MergeableCollectionIterator) (rest : list loc) : Prop :=
  fkMergeableCollection it = this /\ fDirection it = d /\
  exists mi ks,
    fMapIterator it = Some mi /\ iterators w !! mi = Some (Live (TMapIter ks)) /\
    Forall (fun k => k ∈ MapOf.keys m) ks /\ (length ks <= length m)%nat /\
    match fHashListIterator it with
    | None => rest = objectsOf w m d ks
    | Some li =>
        li <> mi /\
        exists os, iterators w !! li = Some (Live (TListIter os)) /\
                   rest = os ++ objectsOf w m d ks
    end.

(** The worlds of an iteration: nothing changes but the iterators. *)
Definition iterating (w0 w : World Payload) : Prop :=
  colls w = colls w0 /\ hlists w = hlists w0 /\ objects w = objects w0.

(** *** Ownership *)

(** The hash lists of a map. *)
Definition listsOf (m : TMap) : list loc := omap snd m.

(** The objects that the hash lists of a map hold. *)
Definition held (w : World Payload) (m : TMap) : list loc :=
  flat_map (fun hl => itemsIn w (Some hl)) (listsOf m).

(** The map is the only owner: each hash list is bound once and each
    object is held once. *)
Definition owned (w : World Payload) (m : TMap) : Prop :=
  NoDup (listsOf m) /\ NoDup (held w m).

(** The keys that [prune] deletes. *)
Definition pruned (identifier : string) (kv : string * option loc) : bool :=
  TString.BeginsWith identifier (fst kv).

(** No object of the list has an action separator in its name. *)
Definition plain_names (w : World Payload) (items : list loc) : Prop :=
  Forall (fun o => TString.First ":" (nameOf w o) = None) items.

(** *** Removal by type, empty histograms *)

(** Whether the class of the object at [o] has exactly the name
    [typeName]. *)
Definition ofType (w : World Payload) (typeName : string) (o : loc) : bool :=
  match objects w !! o with
  | Some (Live ob) => String.eqb (ClassName (IsA ob)) typeName
  | _ => false
  end.

(** A hash list without its objects of the class [typeName]. *)
Definition withoutType (w : World Payload) (typeName : string) (h : THashList) : THashList :=
  mkHashList (hl_name h) (List.filter (fun o => negb (ofType w typeName o)) (hl_items h)).

Variable GetEntries_is_zero : TObject Payload -> bool.

(** Whether the object at [o] is a histogram without entries. *)
Definition emptyHistogram (w : World Payload) (o : loc) : bool :=
  match objects w !! o with
  | Some (Live ob) => InheritsFrom (IsA ob) TH1_Class && GetEntries_is_zero ob
  | _ => false
  end.

(** The full identifiers that [pruneEmptyObjects] collects: for each key
    of the map, the key followed by the name of each empty histogram of
    the hash list that the key is bound to. *)
Definition emptyOnes (w : World Payload) (m : TMap) : list string :=
  flat_map
    (fun k => map (fun o => k +:+ nameOf w o)
                  (List.filter (emptyHistogram w) (itemsIn w (MapOf.GetValue m k))))
    (MapOf.keys m).

End Specification.

(** * Proofs *)

(** ** Strings and the path codec *)

Lemma prefix_cons (a b : ascii) (s t : string) :
  String.prefix (String a s) (String b t) = if ascii_dec a b then String.prefix s t else false.
Proof. reflexivity. Qed.

Lemma Contains_cons (pat : string) (a : ascii) (r : string) :
  TString.Contains pat (String a r) =
  String.prefix pat (String a r) || TString.Contains pat r.
Proof. reflexivity. Qed.

Lemma prefix_empty (s : string) : String.prefix "" s = true.
Proof. destruct s; reflexivity. Qed.

Lemma prefix_slash_other (a : ascii) (s t : string) :
  a <> TString.slash -> String.prefix (String "/" s) (String a t) = false.
Proof.
  intros Ha. rewrite prefix_cons. destruct (ascii_dec "/" a) as [e|_]; [|reflexivity].
  exfalso. apply Ha. symmetry. exact e.
Qed.

Lemma string_length_app (s t : string) :
  String.length (s +:+ t) = (String.length s + String.length t)%nat.
Proof. induction s; simpl; congruence. Qed.

Lemma app_assoc_s (s t u : string) : (s +:+ t) +:+ u = s +:+ (t +:+ u).
Proof. induction s; simpl; congruence. Qed.

Lemma app_empty_r (s : string) : s +:+ "" = s.
Proof. induction s; simpl; congruence. Qed.

Lemma IndexAt_from (c : ascii) (s : string) (start pos : nat) :
  (start <= pos)%nat ->
  TString.IndexAt c s start pos =
  match s with
  | EmptyString => None
  | String a r => if Ascii.eqb a c then Some pos else TString.IndexAt c r start (S pos)
  end.
Proof.
  intros H. destruct s as [|a r]; simpl; [reflexivity|].
  destruct (Nat.leb_spec start pos); [|lia]. reflexivity.
Qed.

Lemma IndexAt_skip (c : ascii) (s1 s2 : string) (start pos : nat) :
  (pos + String.length s1 <= start)%nat ->
  TString.IndexAt c (s1 +:+ s2) start pos = TString.IndexAt c s2 start (pos + String.length s1).
Proof.
  revert pos. induction s1 as [|a r IH]; intros pos H; simpl in *.
  - f_equal. lia.
  - destruct (Nat.leb_spec start pos); [lia|]. simpl.
    rewrite IH by lia. f_equal. lia.
Qed.

(** The first separator at or after the current position splits the rest. *)
Lemma IndexAt_positions (s : string) (start pos : nat) :
  (start <= pos)%nat ->
  match TString.IndexAt TString.slash s start pos with
  | None => positions s pos = []
  | Some p => exists t r, s = t +:+ String TString.slash r /\ p = (pos + String.length t)%nat /\
                          positions s pos = p :: positions r (S p)
  end.
Proof.
  revert pos. induction s as [|a r IH]; intros pos H.
  - reflexivity.
  - rewrite IndexAt_from by assumption. simpl.
    destruct (Ascii.eqb_spec a TString.slash) as [->|Hne].
    + exists "", r. simpl. split; [reflexivity|]. split; [lia|reflexivity].
    + specialize (IH (S pos) ltac:(lia)).
      destruct (TString.IndexAt TString.slash r start (S pos)) as [p|].
      * destruct IH as (t & r' & -> & -> & Hp).
        exists (String a t), r'. simpl. split; [reflexivity|]. split; [lia|].
        rewrite Hp.
        replace (pos + S (String.length t))%nat with (S pos + String.length t)%nat by lia.
        reflexivity.
      * assumption.
Qed.

Lemma splitLoop_positions (fuel : nat) (s1 s2 : string) (acc : list nat) :
  (String.length s2 < fuel)%nat ->
  splitLoop fuel (s1 +:+ s2) (String.length s1) acc = acc ++ positions s2 (String.length s1).
Proof.
  revert s1 s2 acc. induction fuel as [|fuel IH]; intros s1 s2 acc Hf; [lia|].
  simpl. rewrite string_length_app.
  destruct (Nat.ltb_spec (String.length s1) (String.length s1 + String.length s2)) as [Hlt|Hge].
  - unfold TString.Index. rewrite (IndexAt_skip _ s1 s2 _ 0) by (simpl; lia). simpl.
    pose proof (IndexAt_positions s2 (String.length s1) (String.length s1) ltac:(lia)) as Hp.
    destruct (TString.IndexAt TString.slash s2 (String.length s1) (String.length s1)) as [p|].
    + destruct Hp as (t & r & -> & -> & Hpos).
      rewrite Hpos.
      replace (s1 +:+ (t +:+ String TString.slash r))
        with ((s1 +:+ t +:+ String TString.slash "") +:+ r).
      2:{ rewrite !app_assoc_s. reflexivity. }
      replace (String.length s1 + String.length t + 1)%nat
        with (String.length (s1 +:+ t +:+ String TString.slash "")).
      2:{ rewrite !string_length_app. simpl. lia. }
      rewrite IH.
      2:{ rewrite string_length_app in Hf. simpl in Hf. lia. }
      rewrite <- app_assoc. simpl. do 3 f_equal.
      rewrite !string_length_app. simpl. lia.
    + rewrite Hp. rewrite app_nil_r. reflexivity.
  - destruct s2; simpl in *; [|lia]. rewrite app_nil_r. reflexivity.
Qed.

Lemma splitIndex_positions (s : string) : splitIndex s = positions s 0.
Proof.
  unfold splitIndex. apply (splitLoop_positions (S (String.length s)) "" s []). lia.
Qed.

Lemma positions_app (s1 s2 : string) (off : nat) :
  positions (s1 +:+ s2) off = positions s1 off ++ positions s2 (off + String.length s1).
Proof.
  revert off. induction s1 as [|a r IH]; intros off; simpl.
  - f_equal. lia.
  - rewrite IH. replace (S off + String.length r)%nat with (off + S (String.length r))%nat by lia.
    destruct (Ascii.eqb a TString.slash); reflexivity.
Qed.

Lemma slashFree_cons (a : ascii) (s : string) :
  slashFree (String a s) = true -> a <> TString.slash /\ slashFree s = true.
Proof.
  unfold slashFree. simpl. destruct (Ascii.eqb_spec a TString.slash); simpl.
  - intros H. discriminate H.
  - intros H. split; assumption.
Qed.

Lemma positions_slashFree (s : string) (off : nat) :
  slashFree s = true -> positions s off = [].
Proof.
  revert off. induction s as [|a r IH]; intros off H; simpl; [reflexivity|].
  apply slashFree_cons in H as [Hne Hr].
  destruct (Ascii.eqb_spec a TString.slash); [contradiction|]. apply IH, Hr.
Qed.

Lemma positions_joinAll (segs : list string) (off : nat) :
  Forall (fun s => slashFree s = true) segs ->
  positions (joinAll segs) off = offsets segs off.
Proof.
  intros H. revert off. induction H as [|seg rest Hseg _ IH]; intros off; simpl; [reflexivity|].
  f_equal. rewrite positions_app, (positions_slashFree seg) by assumption. simpl.
  rewrite IH. f_equal. lia.
Qed.

Lemma joinAll_app (l1 l2 : list string) : joinAll (l1 ++ l2) = joinAll l1 +:+ joinAll l2.
Proof.
  induction l1 as [|s r IH]; simpl; [reflexivity|].
  rewrite IH, app_assoc_s. reflexivity.
Qed.

Lemma offsets_app (l1 l2 : list string) (off : nat) :
  offsets (l1 ++ l2) off = offsets l1 off ++ offsets l2 (off + String.length (joinAll l1)).
Proof.
  revert off. induction l1 as [|s r IH]; intros off; simpl.
  - f_equal. lia.
  - f_equal. rewrite IH. f_equal. f_equal. rewrite string_length_app. lia.
Qed.

Lemma length_offsets (l : list string) (off : nat) : length (offsets l off) = length l.
Proof. revert off. induction l; intros; simpl; auto. Qed.

Lemma substring_skip (s1 s2 : string) (n m : nat) :
  substring (String.length s1 + n) m (s1 +:+ s2) = substring n m s2.
Proof. induction s1; simpl; auto. Qed.

Lemma substring_prefix (s1 s2 : string) :
  substring 0 (String.length s1) (s1 +:+ s2) = s1.
Proof.
  induction s1 as [|a r IH]; simpl.
  - destruct s2; reflexivity.
  - rewrite IH. reflexivity.
Qed.

Lemma substring_middle (s1 s2 s3 : string) :
  substring (String.length s1) (String.length s2) (s1 +:+ s2 +:+ s3) = s2.
Proof.
  rewrite <- (Nat.add_0_r (String.length s1)), substring_skip. apply substring_prefix.
Qed.

Lemma BeginsWith_joinAll (seg : string) (rest : list string) :
  TString.BeginsWith "/" (joinAll (seg :: rest)) = true.
Proof.
  unfold TString.BeginsWith. simpl. rewrite prefix_cons.
  destruct (ascii_dec "/" "/"); [apply prefix_empty|congruence].
Qed.

(** Decoding a path whose segments contain no separator: every segment
    but the last is recovered at its index. *)
Lemma internalDecode_joinAll (pre post : list string) (seg : string) :
  Forall (fun s => slashFree s = true) (pre ++ seg :: post) ->
  post <> [] ->
  internalDecode (joinAll (pre ++ seg :: post)) (Z.of_nat (length pre)) = Ok seg.
Proof.
  intros Hfree Hpost. unfold internalDecode.
  assert (Hb : TString.BeginsWith "/" (joinAll (pre ++ seg :: post)) = true).
  { destruct pre; apply BeginsWith_joinAll. }
  rewrite Hb, andb_false_r.
  rewrite splitIndex_positions, positions_joinAll by assumption.
  rewrite length_offsets, length_app. simpl.
  destruct (Z.geb_spec (Z.of_nat (length pre))
    (Z.of_nat (length pre + S (length post)) - 1)) as [Hge|_].
  { destruct post; [contradiction|]. simpl in Hge. lia. }
  destruct (Z.ltb_spec (Z.of_nat (length pre)) 0) as [Hlt|_]; [lia|].
  rewrite Nat2Z.id.
  rewrite offsets_app. simpl.
  rewrite lookup_app_r by (rewrite length_offsets; lia).
  rewrite length_offsets, Nat.sub_diag. simpl.
  rewrite lookup_app_r by (rewrite length_offsets; lia).
  rewrite length_offsets. replace (length pre + 1 - length pre)%nat with 1%nat by lia.
  destruct post as [|p post]; [contradiction|]. simpl.
  unfold TString.Sub. rewrite joinAll_app. simpl.
  replace (String.length (joinAll pre) + 1 + String.length seg
           - String.length (joinAll pre) - 1)%nat
    with (String.length seg) by lia.
  replace (joinAll pre +:+ String "/" (seg +:+ String "/" (p +:+ joinAll post)))
    with ((joinAll pre +:+ "/") +:+ seg +:+ (String "/" (p +:+ joinAll post))).
  2:{ rewrite !app_assoc_s. reflexivity. }
  replace (String.length (joinAll pre) + 1)%nat with (String.length (joinAll pre +:+ "/")).
  2:{ rewrite string_length_app. reflexivity. }
  rewrite substring_middle. reflexivity.
Qed.

Lemma EndsWith_slash_cons (a : ascii) (r : string) :
  TString.EndsWith "/" (String a r) =
  if TString.IsNull r then Ascii.eqb a TString.slash else TString.EndsWith "/" r.
Proof.
  unfold TString.EndsWith, TString.IsNull. destruct r as [|b r']; simpl.
  - unfold TString.slash. destruct (Ascii.eqb a "/"); reflexivity.
  - rewrite Nat.sub_0_r. reflexivity.
Qed.

Lemma IsNull_app (u v : string) :
  TString.IsNull v = false -> TString.IsNull (u +:+ v) = false.
Proof. unfold TString.IsNull. rewrite string_length_app. destruct v; simpl; [discriminate|].
  intros _. apply Nat.eqb_neq. lia. Qed.

Lemma EndsWith_slash_app (u v : string) :
  TString.IsNull v = false -> TString.EndsWith "/" (u +:+ v) = TString.EndsWith "/" v.
Proof.
  intros Hv. induction u as [|a r IH]; simpl; [reflexivity|].
  rewrite EndsWith_slash_cons, IsNull_app by assumption. exact IH.
Qed.

Lemma EndsWith_slash_free (v : string) :
  slashFree v = true -> TString.EndsWith "/" v = false.
Proof.
  induction v as [|a r IH]; intros H; [reflexivity|].
  apply slashFree_cons in H as [Hne Hr]. rewrite EndsWith_slash_cons.
  destruct (TString.IsNull r); [|auto].
  apply Ascii.eqb_neq. assumption.
Qed.

Lemma valid_segment_inv (s : string) :
  valid_segment s = true ->
  exists a r, s = String a r /\ a <> TString.slash /\ slashFree r = true /\ slashFree s = true.
Proof.
  unfold valid_segment. intros H. apply andb_true_iff in H as [Hn Hf].
  destruct s as [|a r]; [discriminate|].
  exists a, r. destruct (slashFree_cons _ _ Hf). auto.
Qed.

Lemma joinSegments_cons2 (x y : string) (r : list string) :
  joinSegments (x :: y :: r) = x +:+ "/" +:+ joinSegments (y :: r).
Proof. reflexivity. Qed.

Lemma joinSegments_not_null (segs : list string) :
  segs <> [] -> Forall (fun s => valid_segment s = true) segs ->
  TString.IsNull (joinSegments segs) = false.
Proof.
  intros Hne H. destruct H as [|x r Hx Hr]; [contradiction|].
  apply valid_segment_inv in Hx as (a & t & -> & _).
  destruct r; reflexivity.
Qed.

Lemma joinSegments_EndsWith (segs : list string) :
  segs <> [] -> Forall (fun s => valid_segment s = true) segs ->
  TString.EndsWith "/" (joinSegments segs) = false.
Proof.
  intros Hne H. induction H as [|x r Hx Hr IH]; [contradiction|].
  destruct r as [|y r].
  - simpl. apply valid_segment_inv in Hx as (a & t & _ & _ & _ & Hf).
    apply EndsWith_slash_free, Hf.
  - rewrite joinSegments_cons2.
    rewrite EndsWith_slash_app.
    2:{ apply IsNull_app, joinSegments_not_null; [discriminate|assumption]. }
    rewrite EndsWith_slash_app by (apply joinSegments_not_null; [discriminate|assumption]).
    apply IH. discriminate.
Qed.

Lemma joinSegments_BeginsWith (segs : list string) (tail : string) :
  segs <> [] -> Forall (fun s => valid_segment s = true) segs ->
  TString.BeginsWith "/" (joinSegments segs +:+ tail) = false.
Proof.
  intros Hne H. destruct H as [|x r Hx Hr]; [contradiction|].
  apply valid_segment_inv in Hx as (a & t & -> & Ha & _).
  unfold TString.BeginsWith.
  destruct r; simpl; apply prefix_slash_other, Ha.
Qed.

Lemma joinSegments_joinAll (segs : list string) :
  segs <> [] -> "/" +:+ joinSegments segs +:+ "/" = joinAll segs +:+ "/".
Proof.
  intros Hne. induction segs as [|x r IH]; [contradiction|].
  destruct r as [|y r].
  - simpl. rewrite app_empty_r. reflexivity.
  - rewrite joinSegments_cons2. simpl joinAll.
    specialize (IH ltac:(discriminate)). simpl in IH |- *.
    rewrite !app_assoc_s in *. simpl in *. rewrite IH, ?app_assoc_s. reflexivity.
Qed.

Lemma ReplaceLoop_no_match (fuel : nat) (pat rep s : string) :
  TString.Contains pat s = false -> TString.ReplaceLoop fuel pat rep s = s.
Proof.
  revert s. induction fuel as [|fuel IH]; intros s H; [reflexivity|].
  destruct s as [|a r]; [reflexivity|].
  rewrite Contains_cons in H. apply orb_false_iff in H as [Hp Hc].
  simpl. rewrite Hp. f_equal. apply IH, Hc.
Qed.

Lemma length_drop (n : nat) (s : string) :
  String.length (TString.drop n s) = (String.length s - n)%nat.
Proof.
  revert s. induction n as [|n IH]; intros s; simpl.
  - lia.
  - destruct s as [|a r]; simpl; [reflexivity|]. apply IH.
Qed.

(** The fuel that [ReplaceAll] gives to its loop is enough: each turn
    consumes at least one character, so more fuel changes nothing. *)
Lemma ReplaceLoop_enough_fuel (fuel1 fuel2 : nat) (pat rep s : string) :
  TString.IsNull pat = false ->
  (String.length s <= fuel1)%nat -> (String.length s <= fuel2)%nat ->
  TString.ReplaceLoop fuel1 pat rep s = TString.ReplaceLoop fuel2 pat rep s.
Proof.
  intros Hpat. revert fuel2 s.
  induction fuel1 as [|fuel1 IH]; intros fuel2 s H1 H2.
  - destruct s; [|simpl in H1; lia]. destruct fuel2; reflexivity.
  - destruct fuel2 as [|fuel2].
    + destruct s; [reflexivity|simpl in H2; lia].
    + destruct s as [|a r]; [reflexivity|]. simpl in H1, H2. simpl.
      destruct (String.prefix pat (String a r)).
      * f_equal. destruct pat as [|b pat']; [discriminate|].
        apply IH; simpl; rewrite length_drop; lia.
      * f_equal. apply IH; lia.
Qed.

Lemma Contains_double_free (seg tail : string) :
  slashFree seg = true ->
  TString.Contains "//" tail = false ->
  TString.Contains "//" (seg +:+ tail) = false.
Proof.
  intros Hf Ht. induction seg as [|a r IH]; [exact Ht|].
  change (String a r +:+ tail) with (String a (r +:+ tail)).
  apply slashFree_cons in Hf as [Ha Hr].
  rewrite Contains_cons, prefix_slash_other by assumption. simpl. apply IH, Hr.
Qed.

Lemma Contains_double_joinAll (segs : list string) :
  Forall (fun s => valid_segment s = true) segs ->
  TString.Contains "//" (joinAll segs +:+ "/") = false.
Proof.
  intros H. induction H as [|x r Hx Hr IH]; [reflexivity|].
  apply valid_segment_inv in Hx as (a & t & -> & Ha & Hf & _).
  replace (joinAll (String a t :: r) +:+ "/")
    with (String "/" (String a (t +:+ (joinAll r +:+ "/")))).
  2:{ simpl. rewrite app_assoc_s. reflexivity. }
  rewrite !Contains_cons. apply orb_false_iff. split.
  - rewrite prefix_cons. destruct (ascii_dec "/" "/"); [|reflexivity].
    apply prefix_slash_other, Ha.
  - apply orb_false_iff. split.
    + apply prefix_slash_other, Ha.
    + apply Contains_double_free; assumption.
Qed.

(** Canonicalizing the joined segments gives the segments, each behind a
    separator, and a closing separator. *)
Lemma correctIdentifier_joinSegments (segs : list string) :
  segs <> [] -> Forall (fun s => valid_segment s = true) segs ->
  correctIdentifier (joinSegments segs) = joinAll segs +:+ "/".
Proof.
  intros Hne H. unfold correctIdentifier.
  rewrite joinSegments_not_null, joinSegments_EndsWith by assumption. simpl negb. cbv iota.
  unfold TString.Append, TString.Prepend.
  rewrite joinSegments_BeginsWith by assumption. simpl negb. cbv iota.
  rewrite joinSegments_joinAll by assumption.
  unfold TString.ReplaceAll. simpl TString.IsNull. cbv iota.
  apply ReplaceLoop_no_match, Contains_double_joinAll, H.
Qed.

Lemma valid_slashFree (segs : list string) :
  Forall (fun s => valid_segment s = true) segs -> Forall (fun s => slashFree s = true) segs.
Proof.
  intros H. eapply Forall_impl; [exact H|].
  intros s Hs. apply valid_segment_inv in Hs as (a & t & _ & _ & _ & Hf).
  exact Hf.
Qed.

(** C5. For every sequence of valid key segments (not empty, without
    separator), canonicalizing the joined segments with [correctIdentifier]
    and decoding the canonical path at an index, with [internalDecode] as
    with [getKey], gives back the segment of this index. *)
Theorem canonicalize_decode_roundtrip (segs : list string) (i : nat) (seg : string) :
  Forall (fun s => valid_segment s = true) segs ->
  segs !! i = Some seg ->
  internalDecode (correctIdentifier (joinSegments segs)) (Z.of_nat i) = Ok seg /\
  getKey (correctIdentifier (joinSegments segs)) (Z.of_nat i) false = Ok seg.
Proof.
  intros Hvalid Hi.
  assert (Hne : segs <> []) by (intros ->; discriminate Hi).
  rewrite correctIdentifier_joinSegments by assumption.
  apply list_elem_of_split_length in Hi as (pre & post & -> & ->).
  pose proof (valid_slashFree _ Hvalid) as Hfree.
  split.
  - replace (joinAll (pre ++ seg :: post) +:+ "/")
      with (joinAll (pre ++ seg :: (post ++ [""]))).
    2:{ replace (pre ++ seg :: (post ++ [""])) with ((pre ++ seg :: post) ++ [""])
          by (rewrite <- app_assoc; reflexivity).
        rewrite (joinAll_app (pre ++ seg :: post)). reflexivity. }
    apply internalDecode_joinAll.
    + rewrite app_comm_cons, app_assoc. apply Forall_app. split; [assumption|].
      repeat constructor.
    + destruct post; discriminate.
  - unfold getKey. simpl negb. cbv iota. unfold TString.Append.
    replace ((joinAll (pre ++ seg :: post) +:+ "/") +:+ "/dummy")
      with (joinAll (pre ++ seg :: (post ++ [""; "dummy"]))).
    2:{ replace (pre ++ seg :: (post ++ [""; "dummy"]))
          with ((pre ++ seg :: post) ++ [""; "dummy"])
          by (rewrite <- app_assoc; reflexivity).
        rewrite (joinAll_app (pre ++ seg :: post)). simpl.
        rewrite app_assoc_s. reflexivity. }
    apply internalDecode_joinAll.
    + rewrite app_comm_cons, app_assoc. apply Forall_app. split; [assumption|].
      repeat constructor.
    + destruct post; discriminate.
Qed.

(** *** Splitting a full identifier *)

Lemma CountChar_app (c : ascii) (s t : string) :
  TString.CountChar c (s +:+ t) = (TString.CountChar c s + TString.CountChar c t)%nat.
Proof. induction s as [|a r IH]; simpl; [reflexivity|]. rewrite IH. lia. Qed.

Lemma length_positions (s : string) (off : nat) :
  length (positions s off) = TString.CountChar TString.slash s.
Proof.
  revert off. induction s as [|a r IH]; intros off; simpl; [reflexivity|].
  destruct (Ascii.eqb a TString.slash); simpl; rewrite IH; reflexivity.
Qed.

Lemma joinAll_snoc (segs : list string) (name : string) :
  joinAll (segs ++ [name]) = joinAll segs +:+ "/" +:+ name.
Proof. rewrite joinAll_app. simpl. rewrite app_empty_r. reflexivity. Qed.

Lemma CountChar_joinAll (segs : list string) :
  Forall (fun s => slashFree s = true) segs ->
  TString.CountChar TString.slash (joinAll segs) = length segs.
Proof.
  intros H. rewrite <- (length_positions _ 0), positions_joinAll by assumption.
  apply length_offsets.
Qed.

Lemma last_offsets (l : list string) (x : string) (off : nat) :
  last (offsets (l ++ [x]) off) = Some (off + String.length (joinAll l))%nat.
Proof. rewrite offsets_app. simpl. apply last_snoc. Qed.

Lemma getIdentifierLoop_joinAll (segs : list string) (name : string) (todo i : nat) :
  Forall (fun s => slashFree s = true) segs -> slashFree name = true ->
  (i + todo = length segs)%nat ->
  getIdentifierLoop (joinAll (segs ++ [name])) (Z.of_nat i) todo (joinAll (take i segs)) =
  Ok (joinAll segs).
Proof.
  intros Hsegs Hname. revert i. induction todo as [|todo IH]; intros i Hi.
  - simpl. rewrite take_ge by lia. reflexivity.
  - destruct (lookup_lt_is_Some_2 segs i ltac:(lia)) as [seg Hseg].
    pose proof (take_drop_middle _ _ _ Hseg) as Hsplit.
    simpl.
    assert (Hdec : internalDecode (joinAll (segs ++ [name])) (Z.of_nat i) = Ok seg).
    { rewrite <- Hsplit at 1. rewrite <- app_assoc. simpl.
      replace (Z.of_nat i) with (Z.of_nat (length (take i segs))).
      2:{ rewrite length_take. f_equal. lia. }
      apply internalDecode_joinAll.
      - rewrite app_comm_cons, app_assoc. change (take i segs ++ seg :: drop (S i) segs) with
          (take i segs ++ seg :: drop (S i) segs). rewrite Hsplit.
        apply Forall_app. split; [assumption|]. repeat constructor. assumption.
      - destruct (drop (S i) segs); discriminate. }
    rewrite Hdec.
    replace (joinAll (take i segs) +:+ String "/" seg) with (joinAll (take (S i) segs)).
    2:{ rewrite (take_S_r _ _ _ Hseg). apply joinAll_snoc. }
    replace (Z.of_nat i + 1)%Z with (Z.of_nat (S i)) by lia.
    apply IH. lia.
Qed.

Lemma getIdentifier_joinAll (segs : list string) (name : string) :
  Forall (fun s => slashFree s = true) segs -> slashFree name = true ->
  getIdentifier (joinAll segs +:+ "/" +:+ name) = Ok (joinAll segs +:+ "/").
Proof.
  intros Hsegs Hname. rewrite <- joinAll_snoc.
  assert (Hall : Forall (fun s => slashFree s = true) (segs ++ [name])).
  { apply Forall_app. split; [assumption|]. repeat constructor. assumption. }
  unfold getIdentifier. rewrite CountChar_joinAll by assumption.
  rewrite length_app. simpl length.
  replace (Z.to_nat (Z.of_nat (length segs + 1) - 1)) with (length segs) by lia.
  pose proof (getIdentifierLoop_joinAll segs name (length segs) 0 Hsegs Hname ltac:(lia))
    as Hloop.
  change (Z.of_nat 0) with 0%Z in Hloop. simpl take in Hloop. simpl joinAll in Hloop.
  rewrite Hloop. reflexivity.
Qed.

Lemma getObjectName_joinAll (segs : list string) (name : string) :
  Forall (fun s => slashFree s = true) segs -> slashFree name = true ->
  getObjectName (joinAll segs +:+ "/" +:+ name) = Ok name.
Proof.
  intros Hsegs Hname. rewrite <- joinAll_snoc.
  assert (Hall : Forall (fun s => slashFree s = true) (segs ++ [name])).
  { apply Forall_app. split; [assumption|]. repeat constructor. assumption. }
  unfold getObjectName, internalDecode.
  assert (Hb : TString.BeginsWith "/" (joinAll (segs ++ [name])) = true).
  { destruct segs; apply BeginsWith_joinAll. }
  rewrite Hb, andb_false_r.
  rewrite splitIndex_positions, positions_joinAll by assumption.
  rewrite length_offsets, length_app. simpl length.
  destruct (Z.geb_spec (-1) (Z.of_nat (length segs + 1) - 1)) as [Hge|_]; [lia|].
  change (-1 <? 0)%Z with true. cbv iota. rewrite last_offsets. f_equal.
  unfold TString.Sub. rewrite joinAll_snoc.
  transitivity (substring (String.length (joinAll segs +:+ "/")) (String.length name)
                  ((joinAll segs +:+ "/") +:+ name +:+ "")).
  - rewrite app_empty_r, <- app_assoc_s. f_equal.
    + rewrite string_length_app. simpl. lia.
    + rewrite !string_length_app. simpl. lia.
  - apply substring_middle.
Qed.

(** X1. For key segments and an object name without separator, the full
    identifier /s1/.../sn/name splits back: getIdentifier returns
    /s1/.../sn/, getObjectName returns name, and getKey with
    idContainsObjName set returns the segment of each level. *)
Theorem full_identifier_splits (segs : list string) (name : string) :
  Forall (fun s => slashFree s = true) segs -> slashFree name = true ->
  getIdentifier (joinAll segs +:+ "/" +:+ name) = Ok (joinAll segs +:+ "/") /\
  getObjectName (joinAll segs +:+ "/" +:+ name) = Ok name /\
  forall i seg, segs !! i = Some seg ->
                getKey (joinAll segs +:+ "/" +:+ name) (Z.of_nat i) true = Ok seg.
Proof.
  intros Hsegs Hname.
  split; [apply getIdentifier_joinAll; assumption|].
  split; [apply getObjectName_joinAll; assumption|].
  intros i seg Hi. unfold getKey. simpl negb. cbv iota.
  apply list_elem_of_split_length in Hi as (pre & post & -> & ->).
  rewrite <- joinAll_snoc, <- app_assoc. simpl app.
  apply internalDecode_joinAll.
  - rewrite app_comm_cons, app_assoc. apply Forall_app. split; [assumption|].
    repeat constructor. assumption.
  - destruct post; discriminate.
Qed.


(** *** Identifiers that do not begin with the separator *)
Lemma internalDecode_malformed (identifier : string) (index : Z) :
  TString.IsNull identifier = false -> TString.BeginsWith "/" identifier = false ->
  internalDecode identifier index = Ok "".
Proof.
  intros Hn Hb. unfold internalDecode. rewrite Hb.
  unfold TString.IsNull in Hn. apply Nat.eqb_neq in Hn.
  destruct (Nat.ltb_spec 0 (String.length identifier)); [reflexivity|lia].
Qed.

Lemma getIdentifierLoop_malformed (full : string) (todo : nat) (i : Z) (acc : string) :
  TString.IsNull full = false -> TString.BeginsWith "/" full = false ->
  getIdentifierLoop full i todo acc = Ok (acc +:+ slashes todo).
Proof.
  intros Hn Hb. revert i acc. induction todo as [|todo IH]; intros i acc; simpl.
  - rewrite app_empty_r. reflexivity.
  - rewrite internalDecode_malformed by assumption. rewrite IH.
    rewrite app_assoc_s. reflexivity.
Qed.

Lemma slashes_snoc (n : nat) : slashes n +:+ "/" = slashes (S n).
Proof. induction n as [|n IH]; simpl; [reflexivity|]. simpl in IH. rewrite IH. reflexivity. Qed.

Lemma relative_path_decoded (full : string) :
  TString.IsNull full = false -> TString.BeginsWith "/" full = false ->
  getIdentifier full = Ok (slashes (Nat.max 1 (TString.CountChar TString.slash full))) /\
  getObjectName full = Ok "".
Proof.
  intros Hn Hb. split.
  - unfold getIdentifier. rewrite getIdentifierLoop_malformed by assumption.
    simpl append. rewrite slashes_snoc. do 2 f_equal. lia.
  - apply internalDecode_malformed; assumption.
Qed.

(** *** Indexes outside the levels of an identifier *)
Lemma length_splitIndex (s : string) :
  length (splitIndex s) = TString.CountChar TString.slash s.
Proof. rewrite splitIndex_positions. apply length_positions. Qed.

(** X2. getKey without object name returns the empty string for every index
    from the number of separators of the identifier on: a level beyond the
    last one is answered with an empty key. *)
Theorem getKey_beyond_the_last_level (identifier : string) (index : Z) :
  (Z.of_nat (TString.CountChar TString.slash identifier) <= index)%Z ->
  getKey identifier index false = Ok "".
Proof.
  intros Hi. unfold getKey. simpl negb. cbv iota. unfold internalDecode.
  destruct (_ && _); [reflexivity|].
  rewrite length_splitIndex. unfold TString.Append. rewrite CountChar_app.
  change (TString.CountChar TString.slash "/dummy") with 1%nat.
  destruct (Z.geb_spec index (Z.of_nat (TString.CountChar TString.slash identifier + 1) - 1));
    [reflexivity|lia].
Qed.

Lemma last_positions_app (s t : string) (off : nat) :
  slashFree t = true ->
  last (positions (s +:+ String "/" t) off) = Some (off + String.length s)%nat.
Proof.
  intros Ht. rewrite positions_app. simpl.
  rewrite (positions_slashFree t) by assumption. apply last_snoc.
Qed.

Lemma BeginsWith_app (s t : string) :
  TString.BeginsWith "/" s = true -> TString.BeginsWith "/" (s +:+ t) = true.
Proof.
  unfold TString.BeginsWith. destruct s as [|a r]; [discriminate|]. simpl.
  rewrite !prefix_cons. destruct (ascii_dec "/" a); [|discriminate].
  intros _. apply prefix_empty.
Qed.

(** X3. For a negative index and an identifier that is empty or begins with
    the separator, getKey without object name returns the text dummy that it
    appended to the identifier, not a key. *)
Theorem getKey_negative_index (identifier : string) (index : Z) :
  (index < 0)%Z ->
  identifier = "" \/ TString.BeginsWith "/" identifier = true ->
  getKey identifier index false = Ok "dummy".
Proof.
  intros Hi Hid. unfold getKey. simpl negb. cbv iota. unfold internalDecode, TString.Append.
  assert (Hb : TString.BeginsWith "/" (identifier +:+ "/dummy") = true).
  { destruct Hid as [->|H]; [reflexivity|apply BeginsWith_app, H]. }
  rewrite Hb, andb_false_r.
  rewrite length_splitIndex, CountChar_app.
  change (TString.CountChar TString.slash "/dummy") with 1%nat.
  destruct (Z.geb_spec index (Z.of_nat (TString.CountChar TString.slash identifier + 1) - 1));
    [lia|].
  destruct (Z.ltb_spec index 0); [|lia].
  rewrite splitIndex_positions.
  rewrite (last_positions_app identifier "dummy" 0) by reflexivity. f_equal.
  unfold TString.Sub. simpl plus.
  transitivity (substring (String.length (identifier +:+ "/")) (String.length "dummy")
                  ((identifier +:+ "/") +:+ "dummy" +:+ "")).
  - f_equal.
    + rewrite string_length_app. simpl. lia.
    + rewrite !string_length_app. simpl. lia.
    + rewrite app_empty_r, app_assoc_s. reflexivity.
  - apply substring_middle.
Qed.

(** *** The shape of a corrected identifier *)
Lemma IsNull_ReplaceLoop (fuel : nat) (pat rep s : string) :
  TString.IsNull rep = false ->
  TString.IsNull (TString.ReplaceLoop fuel pat rep s) = TString.IsNull s.
Proof.
  intros Hrep. destruct fuel as [|fuel]; [reflexivity|].
  destruct s as [|a r]; [reflexivity|]. simpl TString.ReplaceLoop.
  destruct (String.prefix pat (String a r)); [|reflexivity].
  destruct rep; [discriminate|reflexivity].
Qed.

Lemma BeginsWith_slash_cons (r : string) : TString.BeginsWith "/" (String "/" r) = true.
Proof.
  unfold TString.BeginsWith. rewrite prefix_cons.
  destruct (ascii_dec "/" "/"); [apply prefix_empty|congruence].
Qed.

Lemma ReplaceLoop_begins (fuel : nat) (s : string) :
  TString.BeginsWith "/" s = true ->
  TString.BeginsWith "/" (TString.ReplaceLoop fuel "//" "/" s) = true.
Proof.
  intros H. destruct fuel as [|fuel]; [exact H|].
  destruct s as [|a r]; [discriminate|]. simpl TString.ReplaceLoop.
  destruct (String.prefix "//" (String a r)).
  - apply (BeginsWith_slash_cons _).
  - unfold TString.BeginsWith in *. rewrite prefix_cons in *.
    destruct (ascii_dec "/" a); [apply prefix_empty|discriminate].
Qed.

Lemma prefix_double_inv (s : string) :
  String.prefix "//" s = true -> exists r, s = String "/" (String "/" r).
Proof.
  destruct s as [|a [|b r]]; [discriminate| |].
  - rewrite prefix_cons. destruct (ascii_dec "/" a); discriminate.
  - rewrite !prefix_cons. destruct (ascii_dec "/" a) as [<-|]; [|discriminate].
    destruct (ascii_dec "/" b) as [<-|]; [|discriminate]. eauto.
Qed.

Lemma ReplaceLoop_ends (fuel : nat) (s : string) :
  TString.EndsWith "/" s = true ->
  TString.EndsWith "/" (TString.ReplaceLoop fuel "//" "/" s) = true.
Proof.
  revert s. induction fuel as [|fuel IH]; intros s H; [exact H|].
  destruct s as [|a r]; [discriminate|]. simpl TString.ReplaceLoop.
  destruct (String.prefix "//" (String a r)) eqn:Hp.
  - apply prefix_double_inv in Hp as [r' Hr']. injection Hr' as -> ->.
    change (TString.drop (String.length "//") (String "/" (String "/" r'))) with r'.
    change ("/" +:+ TString.ReplaceLoop fuel "//" "/" r')
      with (String "/" (TString.ReplaceLoop fuel "//" "/" r')).
    rewrite EndsWith_slash_cons, IsNull_ReplaceLoop by reflexivity.
    rewrite !EndsWith_slash_cons in H. simpl TString.IsNull in H.
    destruct (TString.IsNull r'); [reflexivity|]. apply IH, H.
  - rewrite EndsWith_slash_cons, IsNull_ReplaceLoop by reflexivity.
    rewrite EndsWith_slash_cons in H.
    destruct (TString.IsNull r); [exact H|]. apply IH, H.
Qed.

(** X5. correctIdentifier turns every non-empty identifier into a non-empty
    string that begins and ends with the separator. *)
Theorem correctIdentifier_encloses (sidentifier : string) :
  TString.IsNull sidentifier = false ->
  TString.IsNull (correctIdentifier sidentifier) = false /\
  TString.BeginsWith "/" (correctIdentifier sidentifier) = true /\
  TString.EndsWith "/" (correctIdentifier sidentifier) = true.
Proof.
  intros Hn. unfold correctIdentifier. rewrite Hn. simpl negb. cbv iota.
  set (s1 := if negb (TString.EndsWith "/" sidentifier)
             then TString.Append sidentifier "/" else sidentifier).
  set (s2 := if negb (TString.BeginsWith "/" s1) then TString.Prepend s1 "/" else s1).
  assert (H1 : TString.IsNull s1 = false /\ TString.EndsWith "/" s1 = true).
  { subst s1. destruct (TString.EndsWith "/" sidentifier) eqn:E; simpl.
    - auto.
    - unfold TString.Append. split; [apply IsNull_app; reflexivity|].
      rewrite EndsWith_slash_app by reflexivity. reflexivity. }
  destruct H1 as [H1n H1e].
  assert (H2 : TString.IsNull s2 = false /\ TString.BeginsWith "/" s2 = true /\
               TString.EndsWith "/" s2 = true).
  { subst s2. destruct (TString.BeginsWith "/" s1) eqn:E; simpl.
    - auto.
    - unfold TString.Prepend. split; [reflexivity|].
      split; [apply BeginsWith_slash_cons|].
      change ("/" +:+ s1) with (String "/" s1).
      rewrite EndsWith_slash_cons, H1n. assumption. }
  destruct H2 as (H2n & H2b & H2e).
  unfold TString.ReplaceAll. simpl TString.IsNull. cbv iota.
  rewrite IsNull_ReplaceLoop by reflexivity.
  split; [assumption|]. split; [apply ReplaceLoop_begins|apply ReplaceLoop_ends]; assumption.
Qed.

(** *** Replacing one character *)
Lemma ReplaceLoop_char (fuel : nat) (c d : ascii) (s : string) :
  (String.length s <= fuel)%nat ->
  TString.ReplaceLoop fuel (String c "") (String d "") s = substitute c d s.
Proof.
  revert s. induction fuel as [|fuel IH]; intros s H.
  - destruct s; [reflexivity|simpl in H; lia].
  - destruct s as [|a r]; [reflexivity|]. simpl in H. simpl TString.ReplaceLoop.
    rewrite prefix_cons, prefix_empty.
    destruct (ascii_dec c a) as [<-|Hne].
    + simpl. rewrite Ascii.eqb_refl. f_equal. apply IH. lia.
    + simpl. destruct (Ascii.eqb_spec a c) as [->|_]; [contradiction|].
      f_equal. apply IH. lia.
Qed.

Lemma ReplaceAll_char (c d : ascii) (s : string) :
  TString.ReplaceAll (String c "") (String d "") s = substitute c d s.
Proof. unfold TString.ReplaceAll. simpl. apply ReplaceLoop_char. lia. Qed.

Lemma CountChar_substitute (x c d : ascii) (s : string) :
  c <> d ->
  TString.CountChar x (substitute c d s) =
  if Ascii.eqb x c then 0%nat
  else if Ascii.eqb x d then (TString.CountChar d s + TString.CountChar c s)%nat
       else TString.CountChar x s.
Proof.
  intros Hcd. induction s as [|a r IH]; simpl.
  - destruct (Ascii.eqb x c), (Ascii.eqb x d); reflexivity.
  - rewrite IH. clear IH.
    destruct (Ascii.eqb_spec a c) as [->|Hac].
    + destruct (Ascii.eqb_spec x c) as [->|Hxc].
      * destruct (Ascii.eqb_spec d c); [congruence|reflexivity].
      * destruct (Ascii.eqb_spec x d) as [->|Hxd].
        -- rewrite Ascii.eqb_refl. destruct (Ascii.eqb_spec c d); [contradiction|]. simpl. lia.
        -- destruct (Ascii.eqb_spec d x); [congruence|].
           destruct (Ascii.eqb_spec c x); [congruence|]. reflexivity.
    + destruct (Ascii.eqb_spec x c) as [->|Hxc].
      * destruct (Ascii.eqb_spec a c); [contradiction|]. reflexivity.
      * destruct (Ascii.eqb_spec x d) as [->|Hxd].
        -- destruct (Ascii.eqb_spec a d); simpl; lia.
        -- reflexivity.
Qed.

Lemma length_substitute (c d : ascii) (s : string) :
  String.length (substitute c d s) = String.length s.
Proof. induction s; simpl; congruence. Qed.

(** *** Lists of strings *)

Lemma existsb_eqb (s : string) (l : list string) :
  existsb (String.eqb s) l = true <-> s ∈ l.
Proof.
  rewrite existsb_exists. split.
  - intros (x & Hx & E). apply String.eqb_eq in E. subst x. apply list_elem_of_In, Hx.
  - intros H. exists s. split; [apply list_elem_of_In, H|apply String.eqb_refl].
Qed.

Lemma elem_of_addIdentifiers (l acc : list string) (x : string) :
  x ∈ foldl addIdentifier acc l <-> x ∈ acc \/ x ∈ l.
Proof.
  revert acc. induction l as [|s l IH]; intros acc; simpl.
  - split; [auto|]. intros [H|H]; [exact H|]. apply elem_of_nil in H. contradiction.
  - rewrite IH. unfold addIdentifier.
    destruct (existsb (String.eqb s) acc) eqn:E.
    + apply existsb_eqb in E. rewrite elem_of_cons. split; [tauto|].
      intros [H|[->|H]]; auto.
    + rewrite elem_of_app, list_elem_of_singleton, elem_of_cons. tauto.
Qed.

Lemma elem_of_insertSorted (s x : string) (l : list string) :
  x ∈ insertSorted s l <-> x = s \/ x ∈ l.
Proof.
  induction l as [|y l IH]; simpl.
  - rewrite list_elem_of_singleton. split; [auto|]. intros [H|H]; [exact H|].
    apply elem_of_nil in H. contradiction.
  - destruct (String.leb s y).
    + rewrite elem_of_cons. tauto.
    + rewrite !elem_of_cons, IH. tauto.
Qed.

Lemma elem_of_TObjArray_Sort (x : string) (l : list string) :
  x ∈ TObjArray_Sort l <-> x ∈ l.
Proof.
  unfold TObjArray_Sort. induction l as [|y l IH]; simpl; [reflexivity|].
  rewrite elem_of_insertSorted, IH, elem_of_cons. reflexivity.
Qed.

Lemma withKeyAt_keys (i : nat) (ids acc : list string) :
  NoDup acc -> "" ∉ acc ->
  NoDup (foldl (withKeyAt i) acc ids) /\
  forall s, s ∈ foldl (withKeyAt i) acc ids <->
            s ∈ acc \/ (s <> "" /\ exists k, k ∈ ids /\ keyAt k i = s).
Proof.
  revert acc. induction ids as [|k ids IH]; intros acc Hnd Hne; simpl.
  - split; [exact Hnd|]. intros s. split; [auto|].
    intros [H|(_ & k & Hk & _)]; [exact H|]. apply elem_of_nil in Hk. contradiction.
  - unfold withKeyAt at 2 4.
    destruct (Nat.ltb_spec 0 (String.length (keyAt k i))) as [Hlen|Hlen]; simpl andb.
    + destruct (existsb (String.eqb (keyAt k i)) acc) eqn:E; simpl negb; cbv iota.
      * apply existsb_eqb in E. destruct (IH acc Hnd Hne) as [H1 H2]. split; [exact H1|].
        intros s. rewrite H2. split.
        -- intros [H|(Hs & k' & Hk' & E')]; [auto|]. right. split; [exact Hs|].
           exists k'. split; [right; exact Hk'|exact E'].
        -- intros [H|(Hs & k' & Hk' & E')]; [auto|].
           apply elem_of_cons in Hk' as [->|Hk']; [left; rewrite <- E'; exact E|].
           right. eauto.
      * assert (Hnot : keyAt k i ∉ acc).
        { intros H. apply existsb_eqb in H. congruence. }
        destruct (IH (acc ++ [keyAt k i])) as [H1 H2].
        -- apply NoDup_app. split; [exact Hnd|]. split; [|apply NoDup_singleton].
           intros x Hx Hx'. apply list_elem_of_singleton in Hx'. subst x. contradiction.
        -- intros H. apply elem_of_app in H as [H|H]; [contradiction|].
           apply list_elem_of_singleton in H. rewrite <- H in Hlen. simpl in Hlen. lia.
        -- split; [exact H1|]. intros s. rewrite H2, elem_of_app, list_elem_of_singleton.
           split.
           ++ intros [[H| ->]|(Hs & k' & Hk' & E')]; [auto| |].
              ** right. split; [intros E'; rewrite E' in Hlen; simpl in Hlen; lia|].
                 exists k. split; [left|reflexivity].
              ** right. split; [exact Hs|]. exists k'. split; [right; exact Hk'|exact E'].
           ++ intros [H|(Hs & k' & Hk' & E')]; [auto|].
              apply elem_of_cons in Hk' as [->|Hk']; [auto|]. right. eauto.
    + cbv iota. destruct (IH acc Hnd Hne) as [H1 H2]. split; [exact H1|].
      intros s. rewrite H2. split.
      * intros [H|(Hs & k' & Hk' & E')]; [auto|]. right. split; [exact Hs|].
        exists k'. split; [right; exact Hk'|exact E'].
      * intros [H|(Hs & k' & Hk' & E')]; [auto|].
        apply elem_of_cons in Hk' as [->|Hk']; [|right; eauto].
        exfalso. apply Hs. rewrite <- E'. destruct (keyAt k i); [reflexivity|].
        simpl in Hlen. lia.
Qed.

Lemma NoDup_addIdentifiers (l acc : list string) :
  NoDup acc -> NoDup (foldl addIdentifier acc l).
Proof.
  revert acc. induction l as [|s l IH]; intros acc Hnd; [exact Hnd|].
  simpl. apply IH. unfold addIdentifier.
  destruct (existsb (String.eqb s) acc) eqn:E; [exact Hnd|].
  apply NoDup_app. split; [exact Hnd|]. split; [|apply NoDup_singleton].
  intros x Hx Hx'. apply list_elem_of_singleton in Hx'. subst x.
  apply existsb_eqb in Hx. congruence.
Qed.

Lemma NoDup_insertSorted (s : string) (l : list string) :
  s ∉ l -> NoDup l -> NoDup (insertSorted s l).
Proof.
  induction l as [|x l IH]; intros Hs Hnd; simpl.
  - apply NoDup_singleton.
  - destruct (String.leb s x); [apply NoDup_cons; auto|].
    apply NoDup_cons in Hnd as [Hx Hnd]. apply NoDup_cons. split.
    + rewrite elem_of_insertSorted. intros [->|H]; [|contradiction].
      apply Hs. left.
    + apply IH; [|exact Hnd]. intros H. apply Hs. right. exact H.
Qed.

Lemma NoDup_TObjArray_Sort (l : list string) : NoDup l -> NoDup (TObjArray_Sort l).
Proof.
  unfold TObjArray_Sort. induction l as [|x l IH]; intros Hnd; simpl; [constructor|].
  apply NoDup_cons in Hnd as [Hx Hnd]. apply NoDup_insertSorted; [|apply IH, Hnd].
  intros H. apply Hx. apply (elem_of_TObjArray_Sort x l), H.
Qed.

Lemma Sorted_insertSorted (s : string) (l : list string) :
  Sorted (fun a b => String.leb a b = true) l ->
  Sorted (fun a b => String.leb a b = true) (insertSorted s l).
Proof.
  induction l as [|x l IH]; intros Hs; simpl.
  - constructor; constructor.
  - destruct (String.leb s x) eqn:E.
    + constructor; [exact Hs|]. constructor. exact E.
    + apply Sorted_inv in Hs as [Hs Hhd]. constructor; [apply IH, Hs|].
      assert (Hxs : String.leb x s = true).
      { destruct (String.leb_total s x) as [H|H]; [congruence|exact H]. }
      destruct l as [|y l]; simpl.
      * constructor. exact Hxs.
      * destruct (String.leb s y); constructor; [exact Hxs|].
        apply HdRel_inv in Hhd. exact Hhd.
Qed.

Lemma Sorted_TObjArray_Sort (l : list string) :
  Sorted (fun a b => String.leb a b = true) (TObjArray_Sort l).
Proof.
  unfold TObjArray_Sort. induction l as [|x l IH]; simpl; [constructor|].
  apply Sorted_insertSorted, IH.
Qed.

(** *** Maps without a repeated key, removal from a list *)

Lemma GetValue_NoDup (m : TMap) (k : string) (v : option loc) :
  NoDup (MapOf.keys m) -> (k, v) ∈ m -> MapOf.GetValue m k = v.
Proof.
  induction m as [|[k' v'] m IH]; intros Hnd Hin.
  - apply elem_of_nil in Hin. contradiction.
  - simpl in Hnd. apply NoDup_cons in Hnd as [Hk' Hnd]. simpl.
    apply elem_of_cons in Hin as [E|Hin].
    + injection E as -> ->. rewrite String.eqb_refl. reflexivity.
    + destruct (String.eqb_spec k' k) as [->|_]; [|apply IH; assumption].
      exfalso. apply Hk'. apply (list_elem_of_fmap_2 fst) in Hin. exact Hin.
Qed.

Lemma remove_first_middle (o : loc) (pre rest : list loc) :
  o ∉ pre -> remove_first o (pre ++ o :: rest) = pre ++ rest.
Proof.
  induction pre as [|x pre IH]; intros Hno; simpl.
  - rewrite Nat.eqb_refl. reflexivity.
  - destruct (Nat.eqb_spec x o) as [->|_]; [exfalso; apply Hno; left|].
    rewrite IH; [reflexivity|]. intros H. apply Hno. right. exact H.
Qed.

(** *** Tokens *)





(** ** The member functions *)

Section Proofs.

Context {Payload : Type}.
Variable Merge_method : TObject Payload -> list (TObject Payload) -> Payload.
Variable Transform : string -> TObject Payload -> string -> TObject Payload.

(** *** Evaluation step by step *)

Lemma bind_Ok {A B : Type} (m : M (World Payload) A) (k : A -> M (World Payload) B)
    (w w' : World Payload) (a : A) :
  m w = Ok (a, w') -> bind m k w = k a w'.
Proof. intros H. unfold bind. rewrite H. reflexivity. Qed.

Lemma bind_Undefined {A B : Type} (m : M (World Payload) A) (k : A -> M (World Payload) B)
    (w : World Payload) (why : UB) :
  m w = Undefined why -> bind m k w = Undefined why.
Proof. intros H. unfold bind. rewrite H. reflexivity. Qed.

Lemma derefObject_Ok (w : World Payload) (l : loc) (o : TObject Payload) :
  objects w !! l = Some (Live o) -> derefObject l w = Ok (o, w).
Proof. intros H. unfold derefObject, read. rewrite H. reflexivity. Qed.

Lemma derefList_Ok (w : World Payload) (l : loc) (h : THashList) :
  hlists w !! l = Some (Live h) -> derefList l w = Ok (h, w).
Proof. intros H. unfold derefList, read. rewrite H. reflexivity. Qed.

Lemma derefColl_Ok (w : World Payload) (l : loc) (c : MergeableCollection) :
  colls w !! l = Some (Live c) -> derefColl l w = Ok (c, w).
Proof. intros H. unfold derefColl, read. rewrite H. reflexivity. Qed.


Lemma Map_current (w : World Payload) (this : loc) (m : TMap) :
  current w this m -> Map this w = Ok (true, w).
Proof.
  intros (c & Hc & Hm & Hv). unfold Map.
  rewrite (bind_Ok _ _ _ _ _ (derefColl_Ok _ _ _ Hc)). rewrite Hm.
  destruct (Z.ltb_spec (fMapVersion c) 1); [lia|]. reflexivity.
Qed.

Lemma theMap_current (w : World Payload) (this : loc) (m : TMap) :
  current w this m -> theMap this w = Ok (m, w).
Proof.
  intros H. unfold theMap. rewrite (bind_Ok _ _ _ _ _ (Map_current _ _ _ H)).
  destruct H as (c & Hc & Hm & Hv).
  rewrite (bind_Ok _ _ _ _ _ (derefColl_Ok _ _ _ Hc)). rewrite Hm. reflexivity.
Qed.

Lemma Map_GetValue_current (w : World Payload) (this : loc) (m : TMap) (key : string) :
  current w this m -> Map_GetValue this key w = Ok (MapOf.GetValue m key, w).
Proof.
  intros H. unfold Map_GetValue. rewrite (bind_Ok _ _ _ _ _ (theMap_current _ _ _ H)).
  reflexivity.
Qed.

Lemma internalAdopt_existing (w : World Payload) (this : loc) (key : string) (obj : loc)
    (ob : TObject Payload) (m : TMap) (hl existing : loc) :
  current w this m ->
  objects w !! obj = Some (Live ob) ->
  MapOf.GetValue m key = Some hl ->
  HashList_FindObject hl (GetName ob) w = Ok (Some existing, w) ->
  internalAdopt this key (Some obj) w = Ok (false, w).
Proof.
  intros Hcur Hobj Hkey Hfind. unfold internalAdopt.
  rewrite (bind_Ok _ _ _ _ _ (derefObject_Ok _ _ _ Hobj)).
  rewrite (bind_Ok _ _ _ _ _ (Map_GetValue_current _ _ _ key Hcur)).
  rewrite Hkey.
  rewrite (bind_Ok (ret hl) _ w w hl eq_refl).
  rewrite (bind_Ok _ _ _ _ _ Hfind). reflexivity.
Qed.

(** C10. For a full identifier whose lookup returns null, [h2] and [prof]
    call [IsA] through the null pointer, whereas [histo], which tests the
    pointer, returns null (for an identifier without action). *)
Theorem null_object_dereferenced_by_h2_and_prof (w w' : World Payload) (this : loc)
    (fullIdentifier : string) :
  getObject this fullIdentifier w = Ok (None, w') ->
  h2 this fullIdentifier w = Undefined NullDereference /\
  prof this fullIdentifier w = Undefined NullDereference /\
  (TString.First ":" fullIdentifier = None ->
   histo Transform this fullIdentifier w = Ok (None, w')).
Proof.
  intros H. repeat split.
  - unfold h2. rewrite (bind_Ok _ _ _ _ _ H). reflexivity.
  - unfold prof. rewrite (bind_Ok _ _ _ _ _ H). reflexivity.
  - intros Hno. unfold histo. rewrite Hno.
    rewrite (bind_Ok (ret (fullIdentifier, "")) _ w w _ eq_refl). cbv beta.
    unfold getObject in H. simpl fst. simpl snd.
    rewrite (bind_Ok _ _ _ _ _ H). reflexivity.
Qed.

(** [Map] leaves the map in the current format. *)
Lemma Map_makes_current (w w' : World Payload) (this : loc) :
  Map this w = Ok (true, w') -> exists m, current w' this m.
Proof.
  unfold Map, bind, derefColl, read.
  destruct (colls w !! this) as [[c|]|] eqn:Hc; try discriminate.
  destruct (fMap c) as [m|] eqn:Hm.
  - destruct (Z.ltb_spec (fMapVersion c) 1) as [Hold|Hnew].
    + destruct (MapOf.remap (MapOf.keys m) m) as [m'|]; [|discriminate].
      intros [= <-]. exists m', (with_fMap c (Some m') 1). simpl.
      rewrite lookup_insert_eq. repeat split. lia.
    + intros [= <-]. exists m, c. auto.
  - intros [= <-]. exists [], (with_fMap c (Some []) 1). simpl.
    rewrite lookup_insert_eq. repeat split. lia.
Qed.

(** [MergeObject] compares [TClass::Class()] with itself: whatever the
    class of the object to add, a base object that has a [Merge] method
    receives the call. *)
Lemma MergeObject_ignores_the_classes (w : World Payload) (baseObject objToAdd : loc)
    (base toAdd : TObject Payload) :
  objects w !! baseObject = Some (Live base) ->
  objects w !! objToAdd = Some (Live toAdd) ->
  InheritsFrom (IsA base) TObject_Class = true ->
  HasMergeMethod (IsA base) = true ->
  MergeObject Merge_method baseObject objToAdd w =
  Ok (true,
      set_objects
        (insert baseObject
           (Live (mkObject (GetName base) (IsA base) (Merge_method base [toAdd])))) w).
Proof.
  intros Hb Ha Hi Hm. unfold MergeObject.
  rewrite (bind_Ok _ _ _ _ _ (derefObject_Ok _ _ _ Hb)).
  rewrite (bind_Ok _ _ _ _ _ (derefObject_Ok _ _ _ Ha)).
  unfold TClass_Class. rewrite bool_decide_eq_true_2 by reflexivity.
  rewrite Hi, Hm. reflexivity.
Qed.

(** *** Worlds without dangling pointers are kept *)

Lemma grows_refl (w : World Payload) : grows w w.
Proof. repeat split; auto. Qed.

Lemma grows_trans (w1 w2 w3 : World Payload) : grows w1 w2 -> grows w2 w3 -> grows w1 w3.
Proof. intros (a & b & c & d) (e & f & g & h). repeat split; auto. Qed.

Lemma keeps_ret {A : Type} (w : World Payload) (a : A) (Q : A -> World Payload -> Prop) :
  closed w -> Q a w -> keeps w (ret a) Q.
Proof. intros Hc HQ. exists a, w. auto using grows_refl. Qed.

Lemma keeps_bind {A B : Type} (w : World Payload) (m : M (World Payload) A)
    (k : A -> M (World Payload) B)
    (Q1 : A -> World Payload -> Prop) (Q2 : B -> World Payload -> Prop) :
  keeps w m Q1 ->
  (forall a w', closed w' -> grows w w' -> Q1 a w' ->
     keeps w' (k a) (fun b w'' => grows w w'' -> Q2 b w'')) ->
  keeps w (bind m k) Q2.
Proof.
  intros (a & w' & Hm & Hc & Hg & HQ) Hk.
  destruct (Hk a w' Hc Hg HQ) as (b & w'' & Hk' & Hc' & Hg' & HQ').
  exists b, w''. unfold bind. rewrite Hm.
  pose proof (grows_trans _ _ _ Hg Hg'). auto.
Qed.

Lemma keeps_weaken {A : Type} (w : World Payload) (m : M (World Payload) A)
    (Q Q' : A -> World Payload -> Prop) :
  keeps w m Q -> (forall a w', closed w' -> grows w w' -> Q a w' -> Q' a w') -> keeps w m Q'.
Proof. intros (a & w' & Hm & Hc & Hg & HQ) H. exists a, w'. auto. Qed.

Lemma live_insert {T : Type} (h : gmap loc (cell T)) (l l' : loc) (v : T) :
  live h l' -> live (<[l := Live v]> h) l'.
Proof.
  intros [x Hx]. destruct (decide (l = l')) as [->|Hne].
  - exists v. apply lookup_insert_eq.
  - exists x. rewrite lookup_insert_ne by assumption. exact Hx.
Qed.

Lemma live_insert_eq {T : Type} (h : gmap loc (cell T)) (l : loc) (v : T) :
  live (<[l := Live v]> h) l.
Proof. exists v. apply lookup_insert_eq. Qed.

Lemma read_live {T : Type} (h : gmap loc (cell T)) (l : loc) :
  live h l -> exists v, read h l = Ok v /\ h !! l = Some (Live v).
Proof. intros [v Hv]. exists v. unfold read. rewrite Hv. auto. Qed.

(** *** Pointers *)

Lemma keeps_derefObject (w : World Payload) (l : loc) :
  closed w -> live (objects w) l ->
  keeps w (derefObject l) (fun o w' => w' = w /\ objects w !! l = Some (Live o)).
Proof.
  intros Hc Hl. destruct (read_live _ _ Hl) as (v & Hr & Hv).
  exists v, w. unfold derefObject. rewrite Hr. auto using grows_refl.
Qed.

Lemma keeps_derefList (w : World Payload) (l : loc) :
  closed w -> live (hlists w) l ->
  keeps w (derefList l) (fun o w' => w' = w /\ hlists w !! l = Some (Live o)).
Proof.
  intros Hc Hl. destruct (read_live _ _ Hl) as (v & Hr & Hv).
  exists v, w. unfold derefList. rewrite Hr. auto using grows_refl.
Qed.

Lemma keeps_derefColl (w : World Payload) (l : loc) :
  closed w -> live (colls w) l ->
  keeps w (derefColl l) (fun o w' => w' = w /\ colls w !! l = Some (Live o)).
Proof.
  intros Hc Hl. destruct (read_live _ _ Hl) as (v & Hr & Hv).
  exists v, w. unfold derefColl. rewrite Hr. auto using grows_refl.
Qed.

Lemma closed_set_objects (w : World Payload) (l : loc) (v : TObject Payload) :
  closed w -> closed (set_objects (insert l (Live v)) w).
Proof.
  intros [H1 H2]. split; simpl.
  - exact H1.
  - intros l' h o Hh Ho. apply live_insert. eapply H2; eassumption.
Qed.

Lemma grows_set_objects (w : World Payload) (l : loc) (v : TObject Payload) :
  grows w (set_objects (insert l (Live v)) w).
Proof. repeat split; simpl; auto using live_insert. Qed.

Lemma keeps_storeObject (w : World Payload) (l : loc) (v : TObject Payload) :
  closed w -> keeps w (storeObject l v) (fun _ _ => True).
Proof.
  intros Hc. eexists tt, _. split; [reflexivity|].
  auto using closed_set_objects, grows_set_objects.
Qed.

Lemma keeps_newObject (w : World Payload) (v : TObject Payload) :
  closed w -> keeps w (newObject v) (fun l w' => live (objects w') l).
Proof.
  intros Hc. eexists _, _. split; [reflexivity|].
  split; [apply closed_set_objects, Hc|]. split; [apply grows_set_objects|].
  simpl. apply live_insert_eq.
Qed.

Lemma keeps_storeList (w : World Payload) (l : loc) (v : THashList) :
  closed w -> (forall o, o ∈ hl_items v -> live (objects w) o) ->
  keeps w (storeList l v) (fun _ w' => live (hlists w') l).
Proof.
  intros [H1 H2] Hv. eexists tt, _. split; [reflexivity|]. split; [|split].
  - split; simpl.
    + intros l' c m k hl Hl Hm Hk. apply live_insert. eapply H1; eassumption.
    + intros l' h o Hh Ho. destruct (decide (l = l')) as [->|Hne].
      * rewrite lookup_insert_eq in Hh. injection Hh as <-. auto.
      * rewrite lookup_insert_ne in Hh by assumption. eapply H2; eassumption.
  - repeat split; simpl; auto using live_insert.
  - simpl. apply live_insert_eq.
Qed.

Lemma keeps_newList (w : World Payload) (v : THashList) :
  closed w -> (forall o, o ∈ hl_items v -> live (objects w) o) ->
  keeps w (newList v) (fun l w' => live (hlists w') l).
Proof.
  intros Hc Hv.
  destruct (keeps_storeList w (fresh (dom (hlists w))) v Hc Hv) as (a & w' & E & H).
  eexists _, _. split; [reflexivity|]. injection E as E1 E2. rewrite E2. exact H.
Qed.

Lemma mapped_insert (w : World Payload) (l l' : loc) (c : MergeableCollection) :
  (mapped w l -> fMap c <> None) ->
  mapped w l' -> mapped (set_colls (insert l (Live c)) w) l'.
Proof.
  intros Hc Hm. destruct (decide (l = l')) as [->|Hne].
  - destruct (fMap c) as [m|] eqn:E; [|exfalso; apply (Hc Hm); reflexivity].
    exists c, m. simpl. rewrite lookup_insert_eq. auto.
  - destruct Hm as (c' & m & H1 & H2). exists c', m. simpl.
    rewrite lookup_insert_ne by assumption. auto.
Qed.

Lemma keeps_storeColl (w : World Payload) (l : loc) (c : MergeableCollection) :
  closed w ->
  (forall m k hl, fMap c = Some m -> (k, Some hl) ∈ m -> live (hlists w) hl) ->
  (mapped w l -> fMap c <> None) ->
  keeps w (storeColl l c) (fun _ w' => colls w' !! l = Some (Live c)).
Proof.
  intros [H1 H2] Hv Hm. eexists tt, _. split; [reflexivity|]. split; [|split].
  - split; simpl.
    + intros l' c' m k hl Hl Hm' Hk. destruct (decide (l = l')) as [->|Hne].
      * rewrite lookup_insert_eq in Hl. injection Hl as <-. eauto.
      * rewrite lookup_insert_ne in Hl by assumption. eapply H1; eassumption.
    + exact H2.
  - repeat split; simpl; auto using live_insert, mapped_insert.
  - simpl. apply lookup_insert_eq.
Qed.


Lemma GetValue_elem (m : TMap) (key : string) (hl : loc) :
  MapOf.GetValue m key = Some hl -> exists k, (k, Some hl) ∈ m.
Proof.
  induction m as [|[k v] rest IH]; simpl; [discriminate|].
  destruct (String.eqb k key).
  - intros ->. exists k. left.
  - intros H. destruct (IH H) as [k' Hk']. exists k'. right. exact Hk'.
Qed.

Lemma RemoveEntry_elem (m m' : TMap) (key : string) (v : option loc) :
  MapOf.RemoveEntry m key = Some (v, m') ->
  (forall x, x ∈ m' -> x ∈ m) /\ MapOf.keys m ≡ₚ key :: MapOf.keys m'.
Proof.
  revert m' v. induction m as [|[k x] rest IH]; intros m' v; simpl; [discriminate|].
  destruct (String.eqb_spec k key) as [->|Hne].
  - intros [= <- <-]. split; [intros y Hy; right; exact Hy|reflexivity].
  - destruct (MapOf.RemoveEntry rest key) as [[v' rest']|]; [|discriminate].
    intros [= <- <-]. destruct (IH rest' v' eq_refl) as [H1 H2]. split.
    + intros y Hy. apply elem_of_cons in Hy as [->|Hy]; [left|right; auto].
    + simpl. rewrite H2. apply Permutation_swap.
Qed.

Lemma RemoveEntry_some (m : TMap) (key : string) :
  key ∈ MapOf.keys m -> exists v m', MapOf.RemoveEntry m key = Some (v, m').
Proof.
  induction m as [|[k x] rest IH]; simpl; intros H.
  - apply elem_of_nil in H. contradiction.
  - destruct (String.eqb_spec k key) as [->|Hne]; [eauto|].
    apply elem_of_cons in H as [->|H]; [contradiction|].
    destruct (IH H) as (v & m' & ->). eauto.
Qed.

Lemma remap_total (todo : list string) (m : TMap) :
  todo ⊆+ MapOf.keys m ->
  exists m', MapOf.remap todo m = Some m' /\ values_among m m'.
Proof.
  revert m. induction todo as [|str todo IH]; intros m Hsub; simpl.
  - exists m. split; [reflexivity|]. intros k hl H. eauto.
  - destruct (TString.Contains "./" str).
    + assert (Hin : str ∈ MapOf.keys m).
      { eapply elem_of_submseteq; [|exact Hsub]. left. }
      destruct (RemoveEntry_some m str Hin) as (v & m1 & Hr). rewrite Hr.
      destruct (RemoveEntry_elem _ _ _ _ Hr) as [Hel Hperm].
      destruct (IH (MapOf.Add m1 (TString.ReplaceAll "./" "" str) (MapOf.GetValue m str)))
        as (m' & Hm' & Hval).
      { unfold MapOf.Add, MapOf.keys. rewrite map_app.
        apply submseteq_inserts_r. rewrite Hperm in Hsub.
        apply (submseteq_app_inv_l _ _ [str]). exact Hsub. }
      exists m'. split; [exact Hm'|].
      intros k hl H. destruct (Hval k hl H) as [k' Hk'].
      unfold MapOf.Add in Hk'. apply elem_of_app in Hk' as [Hk'|Hk'].
      * exists k'. auto.
      * apply list_elem_of_singleton in Hk'. injection Hk' as _ Hg.
        symmetry in Hg. apply GetValue_elem in Hg. exact Hg.
    + apply IH. transitivity (str :: todo); [|exact Hsub].
      apply submseteq_cons. reflexivity.
Qed.

Lemma grows_obj (w w' : World Payload) (l : loc) :
  grows w w' -> live (objects w) l -> live (objects w') l.
Proof. intros (H & _). apply H. Qed.

Lemma grows_list (w w' : World Payload) (l : loc) :
  grows w w' -> live (hlists w) l -> live (hlists w') l.
Proof. intros (_ & H & _). apply H. Qed.

Lemma grows_coll (w w' : World Payload) (l : loc) :
  grows w w' -> live (colls w) l -> live (colls w') l.
Proof. intros (_ & _ & H & _). apply H. Qed.

Lemma grows_mapped (w w' : World Payload) (l : loc) :
  grows w w' -> mapped w l -> mapped w' l.
Proof. intros (_ & _ & _ & H). apply H. Qed.

Lemma live_lookup {T : Type} (h : gmap loc (cell T)) (l : loc) (v : T) :
  h !! l = Some (Live v) -> live h l.
Proof. intros H. exists v. exact H. Qed.

Lemma closed_map (w : World Payload) (l : loc) (c : MergeableCollection) (m : TMap)
    (k : string) (hl : loc) :
  closed w -> colls w !! l = Some (Live c) -> fMap c = Some m -> (k, Some hl) ∈ m ->
  live (hlists w) hl.
Proof. intros [H _]. apply H. Qed.

Lemma closed_items (w : World Payload) (l : loc) (h : THashList) (o : loc) :
  closed w -> hlists w !! l = Some (Live h) -> o ∈ hl_items h -> live (objects w) o.
Proof. intros [_ H]. apply H. Qed.

Ltac alive :=
  eauto 8 using grows_obj, grows_list, grows_coll, live_lookup, closed_map, closed_items.

Tactic Notation "step" constr(lem) "as" simple_intropattern(a) simple_intropattern(w)
    simple_intropattern(Hc) simple_intropattern(Hg) simple_intropattern(HQ) :=
  eapply keeps_bind; [eapply lem; alive | cbv beta; intros a w Hc Hg HQ].

Ltac returns :=
  apply keeps_ret;
  [assumption | repeat match goal with |- grows _ _ -> _ => intros _ end].

Lemma keeps_theWorld (w : World Payload) :
  closed w -> keeps w theWorld (fun a w' => w' = w).
Proof. intros Hc. exists w, w. auto using grows_refl. Qed.

Lemma keeps_Map (w : World Payload) (this : loc) :
  closed w -> live (colls w) this ->
  keeps w (Map this)
    (fun r w' => r = true /\ exists c m, colls w' !! this = Some (Live c) /\ fMap c = Some m).
Proof.
  intros Hc Hl. unfold Map.
  step keeps_derefColl as c ? _ _ [-> Hthis].
  destruct (fMap c) as [m|] eqn:Hm.
  - destruct (fMapVersion c <? 1)%Z.
    + destruct (remap_total (MapOf.keys m) m ltac:(reflexivity)) as (m' & -> & Hval).
      step keeps_storeColl as ? w1 Hc1 Hg1 Hst.
      { simpl. intros m0 k hl [= <-] Hk. destruct (Hval k hl Hk) as [k' Hk']. alive. }
      returns. split; [reflexivity|].
      eexists _, m'. split; [exact Hst|reflexivity].
    + apply keeps_ret; [assumption|]. intros _. split; [reflexivity|]. eauto.
  - step keeps_storeColl as ? w1 Hc1 Hg1 Hst.
    { simpl. intros m0 k hl [= <-] Hk. apply elem_of_nil in Hk. contradiction. }
    returns. split; [reflexivity|].
    eexists _, []. split; [exact Hst|reflexivity].
Qed.

Lemma keeps_theMap (w : World Payload) (this : loc) :
  closed w -> live (colls w) this ->
  keeps w (theMap this)
    (fun m w' => exists c, colls w' !! this = Some (Live c) /\ fMap c = Some m).
Proof.
  intros Hc Hl. unfold theMap.
  step keeps_Map as ? w1 Hc1 Hg1 (-> & c & m & Hthis & Hm).
  step keeps_derefColl as c' ? _ _ [-> Hthis'].
  rewrite Hthis in Hthis'. injection Hthis' as <-. rewrite Hm.
  apply keeps_ret; [assumption|]. intros _. eauto.
Qed.

Lemma keeps_Map_GetValue (w : World Payload) (this : loc) (key : string) :
  closed w -> live (colls w) this ->
  keeps w (Map_GetValue this key)
    (fun v w' => forall hl, v = Some hl -> live (hlists w') hl).
Proof.
  intros Hc Hl. unfold Map_GetValue.
  step keeps_theMap as m w1 Hc1 Hg1 (c & Hthis & Hm).
  apply keeps_ret; [assumption|]. intros _ hl Hv.
  apply GetValue_elem in Hv as [k Hk]. alive.
Qed.

Lemma keeps_Map_Add (w : World Payload) (this : loc) (key : string) (value : option loc) :
  closed w -> live (colls w) this ->
  (forall hl, value = Some hl -> live (hlists w) hl) ->
  keeps w (Map_Add this key value) (fun _ _ => True).
Proof.
  intros Hc Hl Hv. unfold Map_Add.
  step keeps_theMap as m w1 Hc1 Hg1 (c & Hthis & Hm).
  step keeps_derefColl as c' ? _ _ [-> Hthis'].
  rewrite Hthis in Hthis'. injection Hthis' as <-.
  eapply keeps_weaken; [apply keeps_storeColl; [assumption| |intros _; simpl; discriminate]|auto].
  simpl. intros m0 k hl [= <-] Hk. unfold MapOf.Add in Hk.
  apply elem_of_app in Hk as [Hk|Hk]; [alive|].
  apply list_elem_of_singleton in Hk. injection Hk as _ Hk. alive.
Qed.

Lemma keeps_addMessage (w : World Payload) (this : loc) (msg : string) :
  closed w -> live (colls w) this ->
  keeps w (addMessage this msg) (fun _ _ => True).
Proof.
  intros Hc Hl. unfold addMessage.
  step keeps_derefColl as c ? _ _ [-> Hthis].
  eapply keeps_weaken; [apply keeps_storeColl; [assumption| |]|auto].
  - simpl. intros m k hl Hm Hk. alive.
  - simpl. intros (c' & m & Hc' & Hm). rewrite Hthis in Hc'. injection Hc' as <-.
    congruence.
Qed.

(** *** Hash lists *)

Lemma keeps_FindObjectIn (w : World Payload) (items : list loc) (name : string) :
  closed w -> (forall o, o ∈ items -> live (objects w) o) ->
  keeps w (FindObjectIn items name)
    (fun r w' => w' = w /\ forall o, r = Some o -> o ∈ items).
Proof.
  intros Hc. induction items as [|l rest IH]; intros Hl; simpl.
  - apply keeps_ret; [assumption|]. split; [reflexivity|discriminate].
  - step keeps_derefObject as ob ? _ _ [-> Ho]. { apply Hl. left. }
    destruct (String.eqb (GetName ob) name).
    + apply keeps_ret; [assumption|]. intros _. split; [reflexivity|].
      intros o [= <-]. left.
    + eapply keeps_weaken; [apply IH|].
      * intros o Ho'. apply Hl. right. exact Ho'.
      * intros r w' _ _ [-> Hr] _. split; [reflexivity|].
        intros o Hro. right. auto.
Qed.

Lemma keeps_HashList_FindObject (w : World Payload) (hlist : loc) (name : string) :
  closed w -> live (hlists w) hlist ->
  keeps w (HashList_FindObject hlist name)
    (fun r w' => w' = w /\ forall o, r = Some o -> live (objects w) o).
Proof.
  intros Hc Hl. unfold HashList_FindObject.
  step keeps_derefList as h ? _ _ [-> Hh].
  eapply keeps_weaken; [apply keeps_FindObjectIn; [assumption|]|].
  - intros o Ho. alive.
  - intros r w' _ _ [-> Hr] _. split; [reflexivity|]. intros o Hro. alive.
Qed.

Lemma keeps_HashList_AddLast (w : World Payload) (hlist obj : loc) :
  closed w -> live (hlists w) hlist -> live (objects w) obj ->
  keeps w (HashList_AddLast hlist obj) (fun _ _ => True).
Proof.
  intros Hc Hl Ho. unfold HashList_AddLast.
  step keeps_derefList as h ? _ _ [-> Hh].
  eapply keeps_weaken; [apply keeps_storeList; [assumption|]|auto].
  simpl. intros o Hin. apply elem_of_app in Hin as [Hin|Hin]; [alive|].
  apply list_elem_of_singleton in Hin. subst o. exact Ho.
Qed.

(** *** The path codec always returns for an index from -1 on *)

Lemma internalDecode_total (identifier : string) (index : Z) :
  (-1 <= index)%Z -> exists s, internalDecode identifier index = Ok s.
Proof.
  intros Hi. unfold internalDecode.
  destruct (_ && _); [eauto|].
  destruct (Z.geb_spec index (Z.of_nat (length (splitIndex identifier)) - 1)) as [|Hlt];
    [eauto|].
  destruct (Z.ltb_spec index 0) as [Hneg|Hpos].
  - destruct (splitIndex identifier) as [|p rest _] using rev_ind.
    + simpl in Hlt. lia.
    + rewrite last_snoc. eauto.
  - destruct (lookup_lt_is_Some_2 (splitIndex identifier) (Z.to_nat index) ltac:(lia))
      as [a ->].
    destruct (lookup_lt_is_Some_2 (splitIndex identifier) (Z.to_nat index + 1) ltac:(lia))
      as [b ->].
    eauto.
Qed.

Lemma getIdentifierLoop_total (full : string) (todo : nat) (i : Z) (acc : string) :
  (0 <= i)%Z -> exists s, getIdentifierLoop full i todo acc = Ok s.
Proof.
  revert i acc. induction todo as [|todo IH]; intros i acc Hi; simpl; [eauto|].
  destruct (internalDecode_total full i ltac:(lia)) as [key ->].
  apply IH. lia.
Qed.

Lemma getIdentifier_total (full : string) : exists s, getIdentifier full = Ok s.
Proof.
  unfold getIdentifier.
  destruct (getIdentifierLoop_total full
              (Z.to_nat (Z.of_nat (TString.CountChar TString.slash full) - 1)) 0 ""
              ltac:(lia)) as [s ->].
  eauto.
Qed.

Lemma getObjectName_total (full : string) : exists s, getObjectName full = Ok s.
Proof. apply internalDecode_total. lia. Qed.

(** X4. getKey with idContainsObjName set reads the last element of an empty
    vector when the identifier is empty and the index is below -1; for every
    other identifier and index it returns a string. *)
Theorem getKey_returns_unless_the_identifier_is_empty (identifier : string) (index : Z) :
  (identifier = "" /\ (index < -1)%Z ->
   getKey identifier index true = Undefined VectorOutOfRange) /\
  (identifier <> "" \/ (-1 <= index)%Z ->
   exists s, getKey identifier index true = Ok s).
Proof.
  unfold getKey. simpl negb. cbv iota. split.
  - intros [-> Hi]. unfold internalDecode.
    change (splitIndex "") with (@nil nat). simpl andb. cbv iota. simpl length.
    change (Z.of_nat 0 - 1)%Z with (-1)%Z.
    destruct (Z.geb_spec index (-1)); [lia|].
    destruct (Z.ltb_spec index 0); [reflexivity|lia].
  - intros Hcase. destruct (Z_lt_le_dec index (-1)) as [Hlow|Hi];
      [|apply internalDecode_total; exact Hi].
    destruct Hcase as [Hne|Hi]; [|lia].
    destruct identifier as [|a r]; [contradiction|].
    unfold internalDecode.
    destruct (_ && _) eqn:Hmal; [eauto|].
    destruct (Z.geb_spec index (Z.of_nat (length (splitIndex (String a r))) - 1)); [eauto|].
    destruct (Z.ltb_spec index 0); [|lia].
    assert (Hslash : a = "/"%char).
    { change (0 <? String.length (String a r))%nat with true in Hmal.
      rewrite andb_true_l in Hmal. apply negb_false_iff in Hmal.
      unfold TString.BeginsWith in Hmal. rewrite prefix_cons in Hmal.
      destruct (ascii_dec "/" a) as [<-|]; [reflexivity|discriminate]. }
    subst a. rewrite splitIndex_positions.
    destruct (positions (String "/" r) 0) as [|p rest _] eqn:Hpos using rev_ind.
    + simpl in Hpos. discriminate.
    + rewrite last_snoc. eauto.
Qed.

Lemma keeps_lift {A : Type} (w : World Payload) (r : Result A) (a : A) :
  closed w -> r = Ok a -> keeps w (lift r) (fun a' w' => a' = a /\ w' = w).
Proof. intros Hc ->. exists a, w. auto using grows_refl. Qed.

(** *** Lookup *)

Lemma keeps_internalObject (w : World Payload) (this : loc) (identifier objectName : string) :
  closed w -> live (colls w) this ->
  keeps w (internalObject this identifier objectName)
    (fun r w' => forall o, r = Some o -> live (objects w') o).
Proof.
  intros Hc Hl. unfold internalObject.
  step keeps_derefColl as c ? _ _ [-> Hthis].
  destruct (fMap c); [|apply keeps_ret; [assumption|]; intros _ o; discriminate].
  step keeps_Map_GetValue as found w1 Hc1 Hg1 Hlist.
  destruct found as [hl|].
  - step keeps_HashList_FindObject as r ? _ _ [-> Hobj].
    destruct r as [o|].
    + returns. intros o' [= <-]. auto.
    + step keeps_addMessage as ? w2 Hc2 Hg2 _.
      returns. intros; discriminate.
  - step keeps_theWorld as ? ? _ _ ->.
    step keeps_addMessage as ? w2 Hc2 Hg2 _.
    returns. intros; discriminate.
Qed.

Lemma keeps_getObjectAt (w : World Payload) (this : loc) (identifier objectName : string) :
  closed w -> live (colls w) this ->
  keeps w (getObjectAt this identifier objectName)
    (fun r w' => forall o, r = Some o -> live (objects w') o).
Proof. intros. apply keeps_internalObject; assumption. Qed.

Lemma keeps_getObject (w : World Payload) (this : loc) (fullIdentifier : string) :
  closed w -> live (colls w) this ->
  keeps w (getObject this fullIdentifier)
    (fun r w' => forall o, r = Some o -> live (objects w') o).
Proof.
  intros Hc Hl. unfold getObject.
  destruct (_ =? _)%nat; [apply keeps_getObjectAt; assumption|].
  destruct (getIdentifier_total fullIdentifier) as [id Hid].
  destruct (getObjectName_total fullIdentifier) as [name Hname].
  eapply keeps_bind; [apply keeps_lift; eassumption|].
  cbv beta. intros ? ? _ _ [-> ->].
  eapply keeps_bind; [apply keeps_lift; eassumption|].
  cbv beta. intros ? ? _ _ [-> ->].
  eapply keeps_weaken; [apply keeps_getObjectAt; assumption|].
  cbv beta. auto.
Qed.

(** *** Adoption and merging *)

Lemma keeps_Clone (w : World Payload) (obj : loc) :
  closed w -> live (objects w) obj ->
  keeps w (Clone obj) (fun l w' => live (objects w') l).
Proof.
  intros Hc Hl. unfold Clone.
  step keeps_derefObject as ob ? _ _ [-> _].
  eapply keeps_weaken; [apply keeps_newObject; assumption|auto].
Qed.

Lemma keeps_internalAdopt (w : World Payload) (this : loc) (identifier : string)
    (obj : option loc) :
  closed w -> live (colls w) this ->
  (forall o, obj = Some o -> live (objects w) o) ->
  keeps w (internalAdopt this identifier obj) (fun _ _ => True).
Proof.
  intros Hc Hl Ho. unfold internalAdopt.
  destruct obj as [o|]; [|apply keeps_ret; auto].
  specialize (Ho o eq_refl).
  step keeps_derefObject as ob ? _ _ [-> _].
  step keeps_Map_GetValue as found w1 Hc1 Hg1 Hfound.
  eapply keeps_bind with (Q1 := fun hl w' => live (hlists w') hl).
  { destruct found as [hl|].
    - apply keeps_ret; auto.
    - step keeps_newList as hl w2 Hc2 Hg2 Hhl.
      { simpl. intros o' Hin. apply elem_of_nil in Hin. contradiction. }
      step keeps_Map_Add as ? w3 Hc3 Hg3 _. { intros ? [= <-]. assumption. }
      step keeps_derefList as l ? _ _ [-> Hl'].
      step keeps_storeList as ? w4 Hc4 Hg4 Hst.
      apply keeps_ret; [assumption|]. intros. assumption. }
  cbv beta. intros hlist w2 Hc2 Hg2 Hlive.
  step keeps_HashList_FindObject as existing ? _ _ [-> _].
  destruct existing.
  - apply keeps_ret; auto.
  - step keeps_HashList_AddLast as ? w3 Hc3 Hg3 _. apply keeps_ret; auto.
Qed.

Lemma keeps_adopt (w : World Payload) (this : loc) (identifier : string) (obj : option loc) :
  closed w -> live (colls w) this ->
  (forall o, obj = Some o -> live (objects w) o) ->
  keeps w (adopt this identifier obj) (fun _ _ => True).
Proof. intros. apply keeps_internalAdopt; assumption. Qed.

Lemma keeps_MergeObject (w : World Payload) (baseObject objToAdd : loc) :
  closed w -> live (objects w) baseObject -> live (objects w) objToAdd ->
  keeps w (MergeObject Merge_method baseObject objToAdd) (fun _ _ => True).
Proof.
  intros Hc Hb Ha. unfold MergeObject.
  step keeps_derefObject as base ? _ _ [-> _].
  step keeps_derefObject as toAdd ? _ _ [-> _].
  destruct (negb _); [apply keeps_ret; auto|].
  destruct (_ || _); [apply keeps_ret; auto|].
  step keeps_storeObject as ? w1 Hc1 Hg1 _. apply keeps_ret; auto.
Qed.

Lemma keeps_mergeOne (w : World Payload) (this : loc) (identifier : string) (obj : loc) :
  closed w -> live (colls w) this -> live (objects w) obj ->
  keeps w (mergeOne Merge_method this identifier obj) (fun _ _ => True).
Proof.
  intros Hc Hl Ho. unfold mergeOne.
  step keeps_derefObject as ob ? _ _ [-> _].
  step keeps_getObject as found w1 Hc1 Hg1 Hfound.
  destruct found as [t|].
  - step keeps_MergeObject as ? w2 Hc2 Hg2 _. apply keeps_ret; auto.
  - step keeps_Clone as clone w2 Hc2 Hg2 Hclone.
    step keeps_adopt as ? w3 Hc3 Hg3 _. { intros o [= <-]. assumption. }
    apply keeps_ret; auto.
Qed.

Lemma keeps_itemsOf (w : World Payload) (hlist : option loc) :
  closed w -> (forall hl, hlist = Some hl -> live (hlists w) hl) ->
  keeps w (itemsOf hlist) (fun items w' => w' = w /\ forall o, o ∈ items -> live (objects w) o).
Proof.
  intros Hc Hl. unfold itemsOf. destruct hlist as [hl|].
  - step keeps_derefList as h ? _ _ [-> Hh].
    apply keeps_ret; [assumption|]. intros _. split; [reflexivity|]. intros o Ho. alive.
  - apply keeps_ret; [assumption|]. split; [reflexivity|].
    intros o Ho. apply elem_of_nil in Ho. contradiction.
Qed.

Lemma keeps_forEach {A : Type} (w : World Payload) (l : list A)
    (body : A -> M (World Payload) unit) :
  closed w ->
  (forall x w', x ∈ l -> closed w' -> grows w w' -> keeps w' (body x) (fun _ _ => True)) ->
  keeps w (forEach l body) (fun _ _ => True).
Proof.
  revert w. induction l as [|x rest IH]; intros w Hc Hbody; simpl.
  - apply keeps_ret; auto.
  - eapply keeps_bind; [apply Hbody; [left|assumption|apply grows_refl]|].
    cbv beta. intros _ w' Hc' Hg _.
    eapply keeps_weaken; [apply IH; [assumption|]|auto].
    intros y w'' Hy Hc'' Hg'. apply Hbody; [right; exact Hy|assumption|].
    eapply grows_trans; eassumption.
Qed.

Lemma keeps_mergeList (w : World Payload) (this : loc) (identifier : string) (objs : list loc) :
  closed w -> live (colls w) this -> (forall o, o ∈ objs -> live (objects w) o) ->
  keeps w (forEach objs (mergeOne Merge_method this identifier)) (fun _ _ => True).
Proof.
  intros Hc Hl Ho. apply keeps_forEach; [assumption|].
  intros o w' Hin Hc' Hg. apply keeps_mergeOne; alive.
Qed.

Lemma keeps_mergeCollection (w : World Payload) (this mergeCol : loc) (count : Z) :
  closed w -> live (colls w) this -> live (colls w) mergeCol ->
  keeps w (mergeCollection Merge_method this count (ACollection mergeCol))
    (fun n _ => n = (count + 1)%Z).
Proof.
  intros Hc Hl Hs. unfold mergeCollection.
  step keeps_derefColl as mc ? _ _ [-> Hmc].
  eapply keeps_bind with (Q1 := fun _ _ => True).
  { destruct (fMap mc).
    - step keeps_Map as ? w1 Hc1 Hg1 _. returns. exact I.
    - apply keeps_ret; auto. }
  cbv beta. intros _ w1 Hc1 Hg1 _.
  step keeps_derefColl as mc1 ? _ _ [-> Hmc1].
  eapply keeps_bind with (Q1 := fun _ _ => True); [|intros; returns; reflexivity].
  apply keeps_forEach; [assumption|].
  intros identifier w2 Hin Hc2 Hg2.
  assert (Hmapped : mapped w1 mergeCol).
  { destruct (fMap mc1) as [m|] eqn:E; [exists mc1, m; auto|].
    apply elem_of_nil in Hin. contradiction. }
  apply (grows_mapped _ _ _ Hg2) in Hmapped as (mc2 & m2 & Hmc2 & Hm2).
  step keeps_derefColl as mc2' ? _ _ [-> Hmc2'].
  rewrite Hmc2 in Hmc2'. injection Hmc2' as <-. rewrite Hm2.
  eapply keeps_bind with (Q1 := fun v w' => v = MapOf.GetValue m2 identifier /\ w' = w2).
  { apply keeps_ret; auto. }
  cbv beta. intros otherList ? _ _ [-> ->].
  step keeps_itemsOf as objs ? _ _ [-> Hobjs].
  { intros hl Hv. apply GetValue_elem in Hv as [k Hk]. alive. }
  eapply keeps_weaken; [apply keeps_mergeList; alive|auto].
Qed.

Lemma keeps_mergeCollections (w : World Payload) (this : loc) (srcs : list loc) (count : Z) :
  closed w -> live (colls w) this -> (forall s, s ∈ srcs -> live (colls w) s) ->
  keeps w (foldM (map ACollection srcs) count (mergeCollection Merge_method this))
    (fun n _ => n = (count + Z.of_nat (length srcs))%Z).
Proof.
  revert w count. induction srcs as [|s rest IH]; intros w count Hc Hl Hs; simpl foldM.
  - apply keeps_ret; [assumption|]. simpl. lia.
  - step keeps_mergeCollection as n w1 Hc1 Hg1 ->. { apply Hs. left. }
    eapply keeps_weaken; [apply IH; [assumption|alive|]|].
    + intros s' Hin. eapply grows_coll; [eassumption|]. apply Hs. right. exact Hin.
    + cbv beta. intros n w2 _ _ -> _. simpl length. lia.
Qed.

(** C2. For a destination and a list of N source collections, in a world
    without dangling pointers, [Merge] returns, and returns N + 1; for the
    empty list this is 1. *)
Theorem Merge_counts_the_sources (w : World Payload) (this : loc) (srcs : list loc) :
  closed w -> live (colls w) this -> (forall s, s ∈ srcs -> live (colls w) s) ->
  exists w', Merge Merge_method this (Some (map ACollection srcs)) w =
             Ok ((Z.of_nat (length srcs) + 1)%Z, w').
Proof.
  intros Hc Hl Hs. unfold Merge.
  destruct srcs as [|s rest].
  - exists w. reflexivity.
  - change (length (map ACollection (s :: rest)) =? 0)%nat with false. cbv iota.
    destruct (keeps_mergeCollections w this (s :: rest) 0 Hc Hl Hs)
      as (n & w' & Hrun & _ & _ & ->).
    exists w'. unfold bind. rewrite Hrun. reflexivity.
Qed.

Lemma liveb_live {T : Type} (h : gmap loc (cell T)) (l : loc) :
  liveb h l = true -> live h l.
Proof.
  unfold liveb, live. destruct (h !! l) as [[v|]|]; try discriminate. eauto.
Qed.

Lemma closedb_closed (w : World Payload) : closedb w = true -> closed w.
Proof.
  unfold closedb. intros H. apply andb_true_iff in H as [H1 H2].
  rewrite forallb_forall in H1, H2. split.
  - intros l c m k hl Hl Hm Hk.
    assert (Hin : In (l, Live c) (map_to_list (colls w))).
    { apply list_elem_of_In, elem_of_map_to_list. exact Hl. }
    specialize (H1 _ Hin). simpl in H1. rewrite Hm in H1.
    rewrite forallb_forall in H1.
    apply liveb_live. apply (H1 (k, Some hl)). apply list_elem_of_In, Hk.
  - intros l h o Hl Ho.
    assert (Hin : In (l, Live h) (map_to_list (hlists w))).
    { apply list_elem_of_In, elem_of_map_to_list. exact Hl. }
    specialize (H2 _ Hin). simpl in H2. rewrite forallb_forall in H2.
    apply liveb_live. apply H2. apply list_elem_of_In, Ho.
Qed.

(** *** Sums *)

Lemma bind_assoc {A B C : Type} (m : M (World Payload) A) (k : A -> M (World Payload) B)
    (h : B -> M (World Payload) C)
    (w : World Payload) :
  bind (bind m k) h w = bind m (fun a => bind (k a) h) w.
Proof. unfold bind. destruct (m w) as [[a w']| |]; reflexivity. Qed.

Lemma getKey_total (identifier : string) (i : nat) :
  getKey identifier (Z.of_nat i) false = Ok (keyAt identifier i).
Proof.
  unfold keyAt. unfold getKey. simpl negb. cbv iota.
  destruct (internalDecode_total (TString.Append identifier "/dummy") (Z.of_nat i) ltac:(lia))
    as [s ->].
  reflexivity.
Qed.

Lemma keysMatch_forallb (identifier : string) (keyMatrix : list (list string))
    (ikeys : list nat) :
  keysMatch identifier keyMatrix ikeys =
  Ok (forallb (fun i => memberOf (nth i keyMatrix []) (keyAt identifier i)) ikeys).
Proof.
  induction ikeys as [|i rest IH]; simpl; [reflexivity|].
  rewrite getKey_total. unfold memberOf at 1.
  destruct (existsb _ _); simpl; [exact IH|reflexivity].
Qed.


Lemma names_agree_refl (w : World Payload) : names_agree w w.
Proof. intros o ob H. eauto. Qed.

Lemma names_agree_insert (w0 w' : World Payload) (s : loc) (ob : TObject Payload) :
  names_agree w0 w' ->
  (forall base, objects w' !! s = Some (Live base) -> GetName ob = GetName base) ->
  (objects w' !! s <> Some Deleted) ->
  names_agree w0 (set_objects (insert s (Live ob)) w').
Proof.
  intros Hn Hs Hd o ob0 Ho. destruct (Hn o ob0 Ho) as (ob' & Hob' & Hname).
  simpl. destruct (decide (s = o)) as [->|Hne].
  - exists ob. rewrite lookup_insert_eq. split; [reflexivity|].
    rewrite (Hs ob' Hob'). exact Hname.
  - exists ob'. rewrite lookup_insert_ne by assumption. auto.
Qed.

Lemma Clone_preserves (w0 w' w'' : World Payload) (o s : loc) :
  names_agree w0 w' -> same_store w0 w' ->
  Clone o w' = Ok (s, w'') ->
  names_agree w0 w'' /\ same_store w0 w''.
Proof.
  intros Hn Hs. unfold Clone, bind, derefObject.
  destruct (read (objects w') o) as [ob| |]; try discriminate.
  unfold newObject. intros [= <- <-]. split; [|exact Hs].
  assert (Hfresh : objects w' !! fresh (dom (objects w')) = None).
  { apply not_elem_of_dom. apply is_fresh. }
  apply names_agree_insert; [assumption| |]; rewrite Hfresh; discriminate.
Qed.

Lemma MergeObject_preserves (w0 w' w'' : World Payload) (s o : loc) (b : bool) :
  names_agree w0 w' -> same_store w0 w' ->
  MergeObject Merge_method s o w' = Ok (b, w'') ->
  names_agree w0 w'' /\ same_store w0 w''.
Proof.
  intros Hn Hs. unfold MergeObject, bind, derefObject.
  destruct (read (objects w') s) as [base| |] eqn:Hbase; try discriminate.
  destruct (read (objects w') o) as [toAdd| |]; try discriminate.
  destruct (negb _); [intros [= <- <-]; auto|].
  destruct (_ || _); [intros [= <- <-]; auto|].
  unfold storeObject, ret. intros [= <- <-]. split; [|exact Hs].
  unfold read in Hbase.
  destruct (objects w' !! s) as [[v|]|] eqn:E; try discriminate.
  injection Hbase as ->.
  apply names_agree_insert; [assumption| |]; rewrite E.
  - intros base' [= <-]. reflexivity.
  - discriminate.
Qed.

Section Loops.
Variable w0 : World Payload.
Variable this : loc.
Variable m : TMap.
Variable keyMatrix : list (list string).
Hypothesis Hcurrent : current w0 this m.
Hypothesis Hclosed : closed w0.


Lemma sumOne_step (acc : option loc) (o : loc) (w' : World Payload) :
  names_agree w0 w' -> live (objects w0) o ->
  sumOne Merge_method keyMatrix acc o w' =
  (if named w0 keyMatrix o then
     match acc with
     | None => let* c := Clone o in ret (Some c)
     | Some s => MergeObject Merge_method s o ;; ret (Some s)
     end
   else ret acc) w'.
Proof.
  intros Hn [ob Hob]. destruct (Hn o ob Hob) as (ob' & Hob' & Hname).
  unfold sumOne. rewrite (bind_Ok _ _ _ _ _ (derefObject_Ok _ _ _ Hob')).
  unfold named, nameOf, memberOf. rewrite Hob, Hname.
  destruct (existsb _ _); reflexivity.
Qed.

Lemma bind_ext_at {A B : Type} (c : M (World Payload) A) (k1 k2 : A -> M (World Payload) B)
    (w : World Payload) :
  (forall a w', c w = Ok (a, w') -> k1 a w' = k2 a w') ->
  bind c k1 w = bind c k2 w.
Proof. intros H. unfold bind. destruct (c w) as [[a w']| |]; auto. Qed.

Lemma resume_cons_some (s o : loc) (rest : list loc) (w : World Payload) :
  resume Merge_method (Some s) (o :: rest) w =
  bind (MergeObject Merge_method s o) (fun _ => resume Merge_method (Some s) rest) w.
Proof.
  unfold resume. simpl forEach. rewrite !bind_assoc. apply bind_ext_at.
  intros b w' _. reflexivity.
Qed.

Lemma inner_loop (items : list loc) :
  (forall o, o ∈ items -> live (objects w0) o) ->
  forall (acc : option loc) (w' : World Payload) (K : option loc -> M (World Payload)
    (option loc))
         (L : list loc),
    names_agree w0 w' -> same_store w0 w' ->
    (forall acc' w'', names_agree w0 w'' -> same_store w0 w'' ->
                      K acc' w'' = resume Merge_method acc' L w'') ->
    bind (foldM items acc (sumOne Merge_method keyMatrix)) K w' =
    resume Merge_method acc (List.filter (named w0 keyMatrix) items ++ L) w'.
Proof.
  induction items as [|o items IH]; intros Hlive acc w' K L Hn Hs HK.
  - simpl. apply HK; assumption.
  - assert (Ho : live (objects w0) o) by (apply Hlive; left).
    assert (Hrest : forall x, x ∈ items -> live (objects w0) x)
      by (intros x Hx; apply Hlive; right; exact Hx).
    simpl foldM. rewrite bind_assoc. simpl List.filter.
    unfold bind at 1. rewrite sumOne_step by assumption.
    fold (bind (if named w0 keyMatrix o
                then match acc with
                     | Some s => MergeObject Merge_method s o;; ret (Some s)
                     | None => let* c := Clone o in ret (Some c)
                     end
                else ret acc)
            (fun a => bind (foldM items a (sumOne Merge_method keyMatrix)) K) w').
    destruct (named w0 keyMatrix o).
    + destruct acc as [s|].
      * (* one more object merged into the sum *)
        simpl app. rewrite resume_cons_some, bind_assoc. apply bind_ext_at.
        intros b w'' E.
        destruct (MergeObject_preserves _ _ _ _ _ _ Hn Hs E) as [Hn' Hs'].
        apply (IH Hrest (Some s) w'' K L Hn' Hs' HK).
      * (* the first object: the sum is its clone *)
        simpl app. simpl resume. rewrite bind_assoc. apply bind_ext_at.
        intros c w'' E.
        destruct (Clone_preserves _ _ _ _ _ Hn Hs E) as [Hn' Hs'].
        apply (IH Hrest (Some c) w'' K L Hn' Hs' HK).
    + apply (IH Hrest acc w' K L Hn Hs HK).
Qed.

Lemma current_same_store (w' : World Payload) : same_store w0 w' -> current w' this m.
Proof.
  intros [Hc _]. destruct Hcurrent as (c & H1 & H2 & H3).
  exists c. rewrite Hc. auto.
Qed.

Lemma itemsOf_itemsIn (w' : World Payload) (k : string) :
  same_store w0 w' ->
  itemsOf (MapOf.GetValue m k) w' = Ok (itemsIn w0 (MapOf.GetValue m k), w') /\
  forall o, o ∈ itemsIn w0 (MapOf.GetValue m k) -> live (objects w0) o.
Proof.
  intros [_ Hh]. unfold itemsOf, itemsIn.
  destruct (MapOf.GetValue m k) as [hl|] eqn:E.
  - apply GetValue_elem in E as [k' Hk'].
    destruct Hcurrent as (c & H1 & H2 & _).
    destruct (closed_map _ _ _ _ _ _ Hclosed H1 H2 Hk') as [h Hlive].
    rewrite Hlive. split.
    + rewrite (bind_Ok _ _ _ _ _ (derefList_Ok w' hl h ltac:(rewrite Hh; exact Hlive))).
      reflexivity.
    + intros o Ho. eapply closed_items; eassumption.
  - split; [reflexivity|]. intros o Ho. apply elem_of_nil in Ho. contradiction.
Qed.

Lemma outer_loop (keys : list string) (acc : option loc) (w' : World Payload) :
  names_agree w0 w' -> same_store w0 w' ->
  foldM keys acc
    (fun sumObject identifier =>
       let* listMatchPattern :=
         lift (keysMatch identifier keyMatrix (seq 0 (length keyMatrix - 1))) in
       if negb listMatchPattern then ret sumObject
       else
         let* list := Map_GetValue this identifier in
         let* objs := itemsOf list in
         foldM objs sumObject (sumOne Merge_method keyMatrix)) w' =
  resume Merge_method acc
    (List.filter (named w0 keyMatrix)
       (flat_map (fun k => if keyed keyMatrix k then itemsIn w0 (MapOf.GetValue m k) else []) keys))
    w'.
Proof.
  revert acc w'. induction keys as [|k ks IH]; intros acc w' Hn Hs.
  - destruct acc; reflexivity.
  - simpl foldM. simpl flat_map. rewrite List.filter_app.
    rewrite bind_assoc, keysMatch_forallb. fold (keyed keyMatrix k).
    rewrite (bind_Ok (lift (Ok (keyed keyMatrix k))) _ w' w' (keyed keyMatrix k) eq_refl).
    destruct (keyed keyMatrix k); simpl negb; cbv iota.
    + rewrite bind_assoc.
      rewrite (bind_Ok _ _ _ _ _
                 (Map_GetValue_current w' this m k (current_same_store w' Hs))).
      cbv beta.
      destruct (itemsOf_itemsIn w' k Hs) as [Hitems Hlive].
      rewrite bind_assoc, (bind_Ok _ _ _ _ _ Hitems). cbv beta.
      apply inner_loop; auto.
    + simpl List.filter. simpl app.
      rewrite (bind_Ok (ret acc) _ w' w' acc eq_refl). apply IH; assumption.
Qed.
End Loops.

Lemma keysOfMap_current (w : World Payload) (this : loc) (m : TMap) :
  current w this m -> keysOfMap this w = Ok (MapOf.keys m, w).
Proof.
  intros H. unfold keysOfMap. rewrite (bind_Ok _ _ _ _ _ (Map_current _ _ _ H)).
  destruct H as (c & Hc & Hm & _).
  rewrite (bind_Ok _ _ _ _ _ (derefColl_Ok _ _ _ Hc)). rewrite Hm. reflexivity.
Qed.

Lemma selected_objects (w : World Payload) (keyMatrix : list (list string)) (m : TMap)
    (keys : list string) :
  map snd
    (List.filter (fun e => selects keyMatrix (fst e) (nameOf w (snd e)))
       (flat_map (fun k => map (pair k) (itemsIn w (MapOf.GetValue m k))) keys)) =
  List.filter (named w keyMatrix)
    (flat_map
       (fun k => if keyed keyMatrix k then itemsIn w (MapOf.GetValue m k) else []) keys).
Proof.
  induction keys as [|k ks IH]; [reflexivity|].
  simpl flat_map. rewrite !List.filter_app, map_app, IH. f_equal.
  generalize (itemsIn w (MapOf.GetValue m k)) as items.
  induction items as [|o items IHi]; simpl.
  - destruct (keyed keyMatrix k); reflexivity.
  - unfold selects at 1, named at 1. simpl fst. simpl snd.
    destruct (keyed keyMatrix k) eqn:Ek; simpl.
    + destruct (memberOf _ (nameOf w o)); simpl; rewrite IHi; reflexivity.
    + rewrite IHi. reflexivity.
Qed.

(** C8, amended. [getSum] sums the entries that the pattern selects, in
    the order of the traversal: an entry is selected when each key group
    of the pattern holds the key that the path of the entry has at the
    level of the group, and the last group holds its name ([selects]); the
    levels of a path beyond the key groups of the pattern are not looked
    at. The sum is a clone of the first selected object, into which
    [MergeObject] merges each of the others in turn; it is null when no
    entry is selected. *)
Theorem getSum_sums_the_selected_entries (w : World Payload) (this : loc) (m : TMap)
    (idPattern : string) :
  current w this m -> closed w ->
  getSum Merge_method this idPattern w =
  sumOf Merge_method (map snd (selected w (patternGroups idPattern) m)) w.
Proof.
  intros Hcur Hclosed. unfold getSum.
  rewrite (bind_Ok _ _ _ _ _ (keysOfMap_current _ _ _ Hcur)).
  fold (patternGroups idPattern).
  rewrite (outer_loop w this m (patternGroups idPattern) Hcur Hclosed (MapOf.keys m) None w
             (names_agree_refl w) (conj eq_refl eq_refl)).
  unfold selected, traversal. rewrite selected_objects. reflexivity.
Qed.

(** *** Removal *)

Lemma getIdentifierLoop_shape (full : string) (todo : nat) (i : Z) (acc r : string) :
  getIdentifierLoop full i todo acc = Ok r ->
  exists rest, r = acc +:+ rest /\ (rest = "" \/ TString.BeginsWith "/" rest = true).
Proof.
  revert i acc. induction todo as [|todo IH]; intros i acc; simpl.
  - intros [= <-]. exists "". rewrite app_empty_r. auto.
  - destruct (internalDecode full i) as [key| |]; try discriminate.
    intros H. destruct (IH _ _ H) as (rest & -> & _).
    exists ("/" +:+ key +:+ rest). split.
    + rewrite !app_assoc_s. reflexivity.
    + right. unfold TString.BeginsWith. simpl. rewrite prefix_cons.
      destruct (ascii_dec "/" "/"); [apply prefix_empty|congruence].
Qed.

Lemma getIdentifier_shape (full id : string) :
  getIdentifier full = Ok id ->
  TString.IsNull id = false /\ TString.BeginsWith "/" id = true /\
  TString.EndsWith "/" id = true.
Proof.
  unfold getIdentifier.
  destruct (getIdentifierLoop _ _ _ _) as [r| |] eqn:E; try discriminate.
  intros [= <-]. apply getIdentifierLoop_shape in E as (rest & -> & Hrest).
  simpl. split; [|split].
  - apply IsNull_app. reflexivity.
  - destruct Hrest as [->|H]; [reflexivity|].
    destruct rest as [|a t]; [discriminate|]. unfold TString.BeginsWith in *.
    simpl. rewrite prefix_cons in *. destruct (ascii_dec "/" a); [|discriminate].
    apply prefix_empty.
  - rewrite EndsWith_slash_app by reflexivity. reflexivity.
Qed.

Lemma getObject_below (w : World Payload) (this : loc) (fid id name : string) :
  (0 < TString.CountChar TString.slash fid)%nat ->
  getIdentifier fid = Ok id -> getObjectName fid = Ok name ->
  getObject this fid w = internalObject this id name w.
Proof.
  intros Hn Hid Hname. unfold getObject.
  destruct (Nat.eqb_spec (TString.CountChar TString.slash fid) 0) as [E|_]; [lia|].
  rewrite Hid, Hname. unfold lift, bind. unfold getObjectAt.
  destruct (getIdentifier_shape _ _ Hid) as (H1 & H2 & H3).
  rewrite H1, H2. simpl negb. cbv iota. rewrite H3. reflexivity.
Qed.

Lemma FindObjectIn_found (w : World Payload) (items : list loc) (name : string) (o : loc) :
  FindObjectIn items name w = Ok (Some o, w) ->
  o ∈ items /\ nameOf w o = name.
Proof.
  induction items as [|l rest IH]; simpl; [discriminate|].
  unfold bind, derefObject, read, nameOf.
  destruct (objects w !! l) as [[ob|]|] eqn:E; try discriminate.
  destruct (String.eqb_spec (GetName ob) name) as [Hn|Hn].
  - intros [= <-]. rewrite E. split; [left|exact Hn].
  - intros H. destruct (IH H) as [Hin Hname]. split; [right; exact Hin|exact Hname].
Qed.

Lemma FindObjectIn_same_objects (w w' : World Payload) (items : list loc) (name : string) :
  objects w' = objects w ->
  FindObjectIn items name w' =
  match FindObjectIn items name w with
  | Ok (r, _) => Ok (r, w')
  | Undefined why => Undefined why
  | OutOfFuel => OutOfFuel
  end.
Proof.
  intros Ho. induction items as [|l rest IH]; simpl; [reflexivity|].
  unfold bind, derefObject. rewrite Ho.
  destruct (read (objects w) l) as [ob| |]; try reflexivity.
  destruct (String.eqb (GetName ob) name); [reflexivity|]. exact IH.
Qed.

Lemma FindObjectIn_removed (w : World Payload) (items : list loc) (name : string) (o : loc) :
  (forall x, x ∈ items -> live (objects w) x) ->
  unique_names w items ->
  o ∈ items -> nameOf w o = name ->
  FindObjectIn (remove_first o items) name w = Ok (None, w).
Proof.
  unfold unique_names.
  induction items as [|l rest IH]; intros Hlive Hu Hin Hname.
  - apply elem_of_nil in Hin. contradiction.
  - simpl in Hu. apply NoDup_cons in Hu as [Hl Hu]. simpl.
    destruct (Nat.eqb_spec l o) as [->|Hne].
    + (* the object is the head: no other object has its name *)
      clear IH Hin. assert (Hrest : forall x, x ∈ rest -> live (objects w) x)
        by (intros x Hx; apply Hlive; right; exact Hx).
      revert Hl Hrest. clear Hlive Hu. induction rest as [|x rest IH]; intros Hl Hrest.
      * reflexivity.
      * simpl. destruct (Hrest x ltac:(left)) as [ob Hob].
        unfold bind, derefObject, read. rewrite Hob.
        destruct (String.eqb_spec (GetName ob) name) as [E|_].
        { exfalso. apply Hl. simpl. apply elem_of_cons. left.
          transitivity name; [exact Hname|]. unfold nameOf. rewrite Hob. symmetry. exact E. }
        apply IH.
        -- intros Hc. apply Hl. right. exact Hc.
        -- intros y Hy. apply Hrest. right. exact Hy.
    + apply elem_of_cons in Hin as [->|Hin]; [contradiction|].
      simpl. destruct (Hlive l ltac:(left)) as [ob Hob].
      unfold bind, derefObject, read. rewrite Hob.
      destruct (String.eqb_spec (GetName ob) name) as [E|_].
      { exfalso. apply Hl. apply list_elem_of_In, in_map_iff. exists o.
        split; [|apply list_elem_of_In; exact Hin].
        transitivity name; [exact Hname|]. unfold nameOf. rewrite Hob. symmetry. exact E. }
      apply IH; auto. intros x Hx. apply Hlive. right. exact Hx.
Qed.

Lemma internalObject_found (w : World Payload) (this : loc) (m : TMap) (id name : string)
    (hl : loc) (h : THashList) (r : option loc) :
  current w this m ->
  MapOf.GetValue m id = Some hl -> hlists w !! hl = Some (Live h) ->
  FindObjectIn (hl_items h) name w = Ok (r, w) ->
  internalObject this id name w =
  match r with
  | Some o => Ok (Some o, w)
  | None =>
      (addMessage this ("Did not find objectName=" +:+ name +:+ " in " +:+ id) ;; ret None) w
  end.
Proof.
  intros Hcur Hv Hh Hfind. unfold internalObject.
  pose proof Hcur as (c & Hc & Hm & _).
  rewrite (bind_Ok _ _ _ _ _ (derefColl_Ok _ _ _ Hc)). rewrite Hm.
  rewrite (bind_Ok _ _ _ _ _ (Map_GetValue_current _ _ _ id Hcur)). rewrite Hv.
  unfold HashList_FindObject.
  rewrite bind_assoc, (bind_Ok _ _ _ _ _ (derefList_Ok _ _ _ Hh)).
  rewrite (bind_Ok _ _ _ _ _ Hfind). destruct r; reflexivity.
Qed.

(** X15. Below the top level, remove(fullIdentifier) of an object found in a
    hash list of live objects with distinct names returns this object and
    takes it out of its hash list; the map keeps all its keys, and the
    object is not found afterwards. *)
Lemma remove_below_the_top_level (w : World Payload) (this : loc) (m : TMap)
    (fullIdentifier id name : string) (hl : loc) (h : THashList) (o : loc) :
  current w this m ->
  (0 < TString.CountChar TString.slash fullIdentifier)%nat ->
  getIdentifier fullIdentifier = Ok id ->
  getObjectName fullIdentifier = Ok name ->
  MapOf.GetValue m id = Some hl ->
  hlists w !! hl = Some (Live h) ->
  (forall x, x ∈ hl_items h -> live (objects w) x) ->
  unique_names w (hl_items h) ->
  FindObjectIn (hl_items h) name w = Ok (Some o, w) ->
  getObject this fullIdentifier w = Ok (Some o, w) /\
  numberOfKeys this w = Ok (Z.of_nat (length m), w) /\
  exists w' w'',
    remove this fullIdentifier w = Ok (Some o, w') /\
    hlists w' !! hl = Some (Live (mkHashList (hl_name h) (remove_first o (hl_items h)))) /\
    numberOfKeys this w' = Ok (Z.of_nat (length m), w') /\
    getObject this fullIdentifier w' = Ok (None, w'').
Proof.
  intros Hcur Hn Hid Hname Hv Hh Hlive Hu Hfind.
  assert (Hget : getObject this fullIdentifier w = Ok (Some o, w)).
  { rewrite (getObject_below _ _ _ _ _ Hn Hid Hname).
    apply (internalObject_found _ _ _ _ _ _ _ _ Hcur Hv Hh Hfind). }
  assert (Hkeys : forall w1 : World Payload, colls w1 = colls w ->
                             numberOfKeys this w1 = Ok (Z.of_nat (length m), w1)).
  { intros w1 Hc1. destruct Hcur as (c & Hc & Hm & _). unfold numberOfKeys.
    rewrite (bind_Ok _ _ _ _ _ (derefColl_Ok w1 this c ltac:(rewrite Hc1; exact Hc))).
    rewrite Hm. reflexivity. }
  destruct (FindObjectIn_found _ _ _ _ Hfind) as [Hin Hnm].
  set (h' := mkHashList (hl_name h) (remove_first o (hl_items h))).
  set (w' := set_hlists (insert hl (Live h')) w).
  assert (Hrm : remove this fullIdentifier w = Ok (Some o, w')).
  { unfold remove. rewrite Hid.
    rewrite (bind_Ok (lift (Ok id)) _ w w id eq_refl).
    rewrite (bind_Ok _ _ _ _ _ (Map_GetValue_current _ _ _ id Hcur)). rewrite Hv.
    rewrite (bind_Ok _ _ _ _ _ Hget). unfold HashList_Remove.
    rewrite bind_assoc, (bind_Ok _ _ _ _ _ (derefList_Ok _ _ _ Hh)).
    assert (Hex : existsb (Nat.eqb o) (hl_items h) = true).
    { apply existsb_exists. exists o. split; [apply list_elem_of_In, Hin|apply Nat.eqb_refl]. }
    rewrite Hex. reflexivity. }
  assert (Hcur' : current w' this m).
  { destruct Hcur as (c & Hc & Hm & Hver). exists c. auto. }
  assert (Hh' : hlists w' !! hl = Some (Live h')) by (simpl; apply lookup_insert_eq).
  assert (Hgone : FindObjectIn (hl_items h') name w' = Ok (None, w')).
  { rewrite (FindObjectIn_same_objects w w') by reflexivity.
    simpl. rewrite (FindObjectIn_removed w (hl_items h) name o Hlive Hu Hin Hnm).
    reflexivity. }
  split; [exact Hget|]. split; [apply Hkeys; reflexivity|].
  pose proof (internalObject_found _ _ _ _ _ _ _ _ Hcur' Hv Hh' Hgone) as Hafter.
  rewrite <- (getObject_below w' this _ _ _ Hn Hid Hname) in Hafter.
  destruct Hcur' as (c & Hc & _).
  eexists w', _. split; [exact Hrm|]. split; [exact Hh'|].
  split; [apply Hkeys; reflexivity|].
  rewrite Hafter. unfold addMessage.
  rewrite bind_assoc, (bind_Ok _ _ _ _ _ (derefColl_Ok _ _ _ Hc)). reflexivity.
Qed.

(** *** Attaching *)

(** The loop of [attach] over the keys of the source. *)
Lemma attach_loop (this mc : loc) (identifier : string) (mm : TMap) (keys : list string) :
  this <> mc ->
  forall (m : TMap) (w : World Payload),
    current w this m -> current w mc mm ->
    exists w',
      forEach keys
        (fun str =>
           let* hl := Map_GetValue mc str in
           Map_Add this (TString.ReplaceAll "//" "/" ("/" +:+ identifier +:+ str)) hl) w =
      Ok (tt, w') /\
      current w' this
        (m ++ map (fun str => (TString.ReplaceAll "//" "/" ("/" +:+ identifier +:+ str),
                               MapOf.GetValue mm str)) keys) /\
      current w' mc mm /\
      hlists w' = hlists w /\ objects w' = objects w.
Proof.
  intros Hne. induction keys as [|str keys IH]; intros m w Hthis Hmc.
  - exists w. simpl. rewrite app_nil_r. auto.
  - simpl forEach.
    rewrite bind_assoc, (bind_Ok _ _ _ _ _ (Map_GetValue_current _ _ _ str Hmc)).
    unfold Map_Add. rewrite !bind_assoc.
    rewrite (bind_Ok _ _ _ _ _ (theMap_current _ _ _ Hthis)).
    pose proof Hthis as (c & Hc & Hm & Hv).
    rewrite bind_assoc, (bind_Ok _ _ _ _ _ (derefColl_Ok _ _ _ Hc)).
    set (entry := (TString.ReplaceAll "//" "/" ("/" +:+ identifier +:+ str),
                   MapOf.GetValue mm str)).
    set (c1 := with_fMap c (Some (MapOf.Add m (fst entry) (snd entry))) (fMapVersion c)).
    set (w1 := set_colls (insert this (Live c1)) w).
    assert (Hstore : storeColl this c1 w = Ok (tt, w1)) by reflexivity.
    rewrite (bind_Ok _ _ _ _ _ Hstore).
    destruct (IH (m ++ [entry]) w1) as (w' & Hrun & H1 & H2 & H3 & H4).
    + exists c1. simpl. rewrite lookup_insert_eq. auto.
    + destruct Hmc as (cm & Hcm & Hmm & Hvm). exists cm. simpl.
      rewrite lookup_insert_ne by assumption. auto.
    + exists w'. split; [exact Hrun|]. rewrite <- app_assoc in H1. auto.
Qed.

(** X16. attach of another collection under an identifier that the
    destination does not bind (both with an up-to-date map) returns true and
    adds to the destination, for each key of the source, the key prefixed by
    the identifier (doubled separators reduced), bound to the very hash list
    of the source; the map of the source, the hash lists and the objects
    stay as they were. *)
Lemma attach_shares_the_lists (w : World Payload) (this mc : loc) (m mm : TMap)
    (identifier : string) (pruneFirstIfAlreadyExists : bool) :
  this <> mc -> current w this m -> current w mc mm ->
  MapOf.GetValue m identifier = None ->
  exists w',
    attach this mc identifier pruneFirstIfAlreadyExists w = Ok (true, w') /\
    current w' this
      (m ++ map (fun str => (TString.ReplaceAll "//" "/" ("/" +:+ identifier +:+ str),
                             MapOf.GetValue mm str)) (MapOf.keys mm)) /\
    current w' mc mm /\
    hlists w' = hlists w /\ objects w' = objects w.
Proof.
  intros Hne Hthis Hmc Hfree. unfold attach.
  rewrite (bind_Ok _ _ _ _ _ (Map_GetValue_current _ _ _ identifier Hthis)). rewrite Hfree.
  rewrite (bind_Ok (ret true) _ w w true eq_refl). cbv iota.
  pose proof Hmc as (cm & Hcm & Hmm & _).
  rewrite (bind_Ok _ _ _ _ _ (derefColl_Ok _ _ _ Hcm)). rewrite Hmm.
  destruct (attach_loop this mc identifier mm (MapOf.keys mm) Hne m w Hthis Hmc)
    as (w' & Hrun & H).
  exists w'. rewrite (bind_Ok _ _ _ _ _ Hrun). split; [reflexivity|exact H].
Qed.

(** *** The iterator *)

Lemma derefIter_Deleted (w : World Payload) (l : loc) {A : Type}
    (k : TIterator -> M (World Payload) A) :
  iterators w !! l = Some Deleted -> bind (derefIter l) k w = Undefined UseAfterDelete.
Proof. intros H. unfold bind, derefIter, read. rewrite H. reflexivity. Qed.

Lemma deleteIter_outcome (w : World Payload) (l : loc) :
  deleteIter (Some l) w = Undefined UseAfterDelete \/
  deleteIter (Some l) w = Ok (tt, set_iterators (insert l Deleted) w).
Proof.
  unfold deleteIter, bind, derefIter, read.
  destruct (iterators w !! l) as [[i|]|]; auto.
Qed.

(** Once the iterator has moved, so that one of its two cursors is not
    null, [Reset] followed by [Next] is undefined: a deleted cursor is
    used (or deleted again). *)
Lemma Next_after_Reset (fuel : nat) (it : MergeableCollectionIterator) (w : World Payload) :
  is_Some (fHashListIterator it) \/ is_Some (fMapIterator it) ->
  (let* it1 := Reset it in Next (S fuel) it1) w = Undefined UseAfterDelete.
Proof.
  intros Hmoved. unfold Reset. rewrite !bind_assoc.
  destruct (fHashListIterator it) as [li|] eqn:Hli.
  - destruct (deleteIter_outcome w li) as [E|E]; [apply bind_Undefined, E|].
    rewrite (bind_Ok _ _ _ _ _ E). rewrite bind_assoc.
    set (w1 := set_iterators (insert li Deleted) w).
    assert (Hgone : forall w2 : World Payload,
               iterators w2 !! li = Some Deleted ->
               Next (S fuel) it w2 = Undefined UseAfterDelete).
    { intros w2 H2. simpl. rewrite Hli.
      rewrite (bind_Ok (ret (inr (li, it))) _ w2 w2 _ eq_refl). cbv beta iota.
      unfold TListIter_Next. rewrite bind_assoc. apply derefIter_Deleted, H2. }
    destruct (fMapIterator it) as [mi|].
    + destruct (deleteIter_outcome w1 mi) as [E'|E']; [apply bind_Undefined, E'|].
      rewrite (bind_Ok _ _ _ _ _ E').
      rewrite (bind_Ok (ret it) _ _ _ it eq_refl). apply Hgone. simpl.
      destruct (decide (mi = li)) as [->|Hne].
      * apply lookup_insert_eq.
      * rewrite lookup_insert_ne by assumption. apply lookup_insert_eq.
    + rewrite (bind_Ok (deleteIter None) _ w1 w1 tt eq_refl).
      rewrite (bind_Ok (ret it) _ _ _ it eq_refl). apply Hgone. simpl.
      apply lookup_insert_eq.
  - destruct Hmoved as [[x Hx]|[mi Hmi]]; [discriminate|].
    rewrite (bind_Ok (deleteIter None) _ w w tt eq_refl). rewrite bind_assoc, Hmi.
    destruct (deleteIter_outcome w mi) as [E|E]; [apply bind_Undefined, E|].
    rewrite (bind_Ok _ _ _ _ _ E).
    rewrite (bind_Ok (ret it) _ _ _ it eq_refl).
    simpl. rewrite Hli, Hmi. rewrite !bind_assoc.
    rewrite (bind_Ok (ret mi) _ _ _ mi eq_refl). cbv beta. rewrite bind_assoc.
    unfold TMapIter_Next. rewrite bind_assoc. apply derefIter_Deleted. simpl.
    apply lookup_insert_eq.
Qed.

(** *** Inversion of evaluation *)

Lemma bind_inv {A B : Type} (m : M (World Payload) A) (k : A -> M (World Payload) B)
    (w : World Payload) (r : B * World Payload) :
  bind m k w = Ok r -> exists a w1, m w = Ok (a, w1) /\ k a w1 = Ok r.
Proof. unfold bind. destruct (m w) as [[a w1]| |]; [eauto|discriminate|discriminate]. Qed.

Lemma derefObject_inv (w w' : World Payload) (l : loc) (o : TObject Payload) :
  derefObject l w = Ok (o, w') -> w' = w /\ objects w !! l = Some (Live o).
Proof.
  unfold derefObject, read. destruct (objects w !! l) as [[v|]|]; try discriminate.
  intros [= -> ->]. auto.
Qed.

Lemma derefList_inv (w w' : World Payload) (l : loc) (h : THashList) :
  derefList l w = Ok (h, w') -> w' = w /\ hlists w !! l = Some (Live h).
Proof.
  unfold derefList, read. destruct (hlists w !! l) as [[v|]|]; try discriminate.
  intros [= -> ->]. auto.
Qed.

Lemma derefColl_inv (w w' : World Payload) (l : loc) (c : MergeableCollection) :
  derefColl l w = Ok (c, w') -> w' = w /\ colls w !! l = Some (Live c).
Proof.
  unfold derefColl, read. destruct (colls w !! l) as [[v|]|]; try discriminate.
  intros [= -> ->]. auto.
Qed.

Lemma FindObjectIn_inv (w w' : World Payload) (items : list loc) (name : string)
    (r : option loc) :
  FindObjectIn items name w = Ok (r, w') -> w' = w.
Proof.
  induction items as [|l rest IH]; simpl.
  - intros [= _ ->]. reflexivity.
  - intros H. apply bind_inv in H as (ob & w1 & H1 & H2).
    apply derefObject_inv in H1 as [-> _].
    destruct (String.eqb (GetName ob) name); [|auto].
    injection H2 as _ ->. reflexivity.
Qed.

Lemma HashList_FindObject_inv (w w' : World Payload) (hl : loc) (name : string)
    (r : option loc) :
  HashList_FindObject hl name w = Ok (r, w') ->
  w' = w /\ exists h, hlists w !! hl = Some (Live h) /\
                      FindObjectIn (hl_items h) name w = Ok (r, w).
Proof.
  unfold HashList_FindObject. intros H. apply bind_inv in H as (h & w1 & H1 & H2).
  apply derefList_inv in H1 as [-> Hh].
  pose proof (FindObjectIn_inv _ _ _ _ _ H2) as ->. eauto.
Qed.

(** *** Maps whose keys are bound *)

Lemma GetValue_app_Some (m l : TMap) (key : string) (hl : loc) :
  MapOf.GetValue m key = Some hl -> MapOf.GetValue (m ++ l) key = Some hl.
Proof.
  induction m as [|[k v] rest IH]; simpl; [discriminate|].
  destruct (String.eqb k key); auto.
Qed.

Lemma GetValue_bound_new (m : TMap) (key : string) (v : option loc) :
  bound m -> MapOf.GetValue m key = None -> MapOf.GetValue (m ++ [(key, v)]) key = v.
Proof.
  intros Hb. induction Hb as [|[k x] rest Hx _ IH]; simpl.
  - rewrite String.eqb_refl. reflexivity.
  - destruct (String.eqb k key); [|exact IH].
    intros E. simpl in Hx. contradiction.
Qed.

Lemma GetValue_bound_key (m : TMap) (key : string) :
  bound m -> key ∈ MapOf.keys m -> MapOf.GetValue m key <> None.
Proof.
  intros Hb. induction Hb as [|[k x] rest Hx _ IH]; simpl; intros Hin.
  - apply elem_of_nil in Hin. contradiction.
  - destruct (String.eqb_spec k key) as [->|Hne]; [exact Hx|].
    apply elem_of_cons in Hin as [->|Hin]; [contradiction|auto].
Qed.

Lemma remap_bound (todo : list string) (m m' : TMap) :
  bound m -> todo ⊆+ MapOf.keys m -> MapOf.remap todo m = Some m' ->
  bound m' /\ length m' = length m.
Proof.
  revert m. induction todo as [|str todo IH]; intros m Hb Hsub; simpl.
  - intros [= <-]. auto.
  - destruct (TString.Contains "./" str).
    + assert (Hin : str ∈ MapOf.keys m).
      { eapply elem_of_submseteq; [|exact Hsub]. left. }
      destruct (MapOf.RemoveEntry m str) as [[v m1]|] eqn:Hr; [|discriminate].
      destruct (RemoveEntry_elem _ _ _ _ Hr) as [Hel Hperm].
      intros H. apply IH in H.
      * destruct H as [H1 H2]. split; [exact H1|]. rewrite H2.
        unfold MapOf.Add. rewrite length_app. simpl.
        apply Permutation_length in Hperm. unfold MapOf.keys in Hperm.
        simpl in Hperm. rewrite !length_map in Hperm. lia.
      * unfold MapOf.Add. apply Forall_app. split.
        -- apply Forall_forall. intros x Hx. unfold bound in Hb.
           rewrite Forall_forall in Hb. apply Hb, Hel, Hx.
        -- repeat constructor. simpl. apply GetValue_bound_key; assumption.
      * unfold MapOf.Add, MapOf.keys. rewrite map_app.
        apply submseteq_inserts_r. rewrite Hperm in Hsub.
        apply (submseteq_app_inv_l _ _ [str]). exact Hsub.
    + apply IH; [assumption|]. transitivity (str :: todo); [|exact Hsub].
      apply submseteq_cons. reflexivity.
Qed.

Lemma Map_inv (w w' : World Payload) (this : loc) (r : bool) :
  store_bound w this -> Map this w = Ok (r, w') ->
  r = true /\ objects w' = objects w /\ hlists w' = hlists w /\ iterators w' = iterators w /\
  (forall l, l <> this -> colls w' !! l = colls w !! l) /\
  exists m', current w' this m' /\ bound m' /\
             forall c m, colls w !! this = Some (Live c) -> fMap c = Some m ->
                         length m' = length m.
Proof.
  intros Hb. unfold Map. intros H. apply bind_inv in H as (c & w1 & H1 & H2).
  apply derefColl_inv in H1 as [-> Hc].
  destruct (fMap c) as [m|] eqn:Hm.
  - destruct (Z.ltb_spec (fMapVersion c) 1) as [Hold|Hnew].
    + destruct (remap_total (MapOf.keys m) m ltac:(reflexivity)) as (m' & Hm' & _).
      rewrite Hm' in H2. injection H2 as <- <-.
      destruct (remap_bound _ _ _ (Hb _ _ Hc Hm) ltac:(reflexivity) Hm') as [Hb' Hlen].
      repeat split; try reflexivity.
      * intros l Hl. simpl. apply lookup_insert_ne. congruence.
      * exists m'. split; [|split; [exact Hb'|]].
        -- exists (with_fMap c (Some m') 1). simpl. rewrite lookup_insert_eq.
           repeat split. lia.
        -- intros c0 m0 Hc0 Hm0. rewrite Hc in Hc0. injection Hc0 as <-.
           rewrite Hm in Hm0. injection Hm0 as <-. exact Hlen.
    + injection H2 as <- <-. repeat split; try reflexivity.
      exists m. split; [exists c; auto|]. split; [eapply Hb; eassumption|].
      intros c0 m0 Hc0 Hm0. rewrite Hc in Hc0. injection Hc0 as <-.
      rewrite Hm in Hm0. injection Hm0 as <-. reflexivity.
  - injection H2 as <- <-. repeat split; try reflexivity.
    + intros l Hl. simpl. apply lookup_insert_ne. congruence.
    + exists []. split; [|split; [constructor|]].
      * exists (with_fMap c (Some []) 1). simpl. rewrite lookup_insert_eq.
        repeat split. lia.
      * intros c0 m0 Hc0 Hm0. rewrite Hc in Hc0. injection Hc0 as <-. congruence.
Qed.

Lemma Map_GetValue_inv (w w' : World Payload) (this : loc) (key : string)
    (found : option loc) :
  store_bound w this -> Map_GetValue this key w = Ok (found, w') ->
  objects w' = objects w /\ hlists w' = hlists w /\
  exists m', current w' this m' /\ bound m' /\ found = MapOf.GetValue m' key.
Proof.
  intros Hb. unfold Map_GetValue, theMap. intros H.
  apply bind_inv in H as (m & w1 & H1 & H2). injection H2 as <- <-.
  apply bind_inv in H1 as (ok & w2 & H1 & H2).
  destruct (Map_inv _ _ _ _ Hb H1) as (-> & Ho & Hh & _ & _ & m' & Hcur & Hbm & _).
  pose proof Hcur as (c & Hc & Hm & _).
  rewrite (bind_Ok _ _ _ _ _ (derefColl_Ok _ _ _ Hc)), Hm in H2. injection H2 as <- <-.
  split; [exact Ho|]. split; [exact Hh|]. exists m'. auto.
Qed.

(** *** Adoption, then lookup *)

Lemma FindObjectIn_snoc (w : World Payload) (items : list loc) (name : string) (o : loc)
    (ob : TObject Payload) :
  FindObjectIn items name w = Ok (None, w) ->
  objects w !! o = Some (Live ob) -> GetName ob = name ->
  FindObjectIn (items ++ [o]) name w = Ok (Some o, w).
Proof.
  intros H Ho Hname. induction items as [|l rest IH]; simpl.
  - rewrite (bind_Ok _ _ _ _ _ (derefObject_Ok _ _ _ Ho)), Hname, String.eqb_refl.
    reflexivity.
  - simpl in H. apply bind_inv in H as (ob' & w1 & H1 & H2).
    pose proof H1 as H1'. apply derefObject_inv in H1' as [-> _].
    rewrite (bind_Ok _ _ _ _ _ H1).
    destruct (String.eqb (GetName ob') name); [discriminate H2|]. apply IH, H2.
Qed.

Lemma getObjectAt_enclosed (w : World Payload) (this : loc) (identifier objectName : string) :
  getObjectAt this identifier objectName w =
  internalObject this (enclosed identifier) objectName w.
Proof. reflexivity. Qed.

Lemma BeginsWith_app_l (s t : string) :
  TString.IsNull s = false ->
  TString.BeginsWith "/" (s +:+ t) = TString.BeginsWith "/" s.
Proof.
  destruct s as [|a r]; [discriminate|]. intros _. unfold TString.BeginsWith.
  simpl. rewrite !prefix_cons. destruct (ascii_dec "/" a); [|reflexivity].
  rewrite !prefix_empty. reflexivity.
Qed.

Lemma correctIdentifier_enclosed (identifier : string) :
  TString.Contains "//" (enclosed identifier) = false ->
  correctIdentifier identifier = enclosed identifier.
Proof.
  unfold correctIdentifier, enclosed.
  destruct (TString.IsNull identifier) eqn:Hn; simpl negb; cbv iota; [reflexivity|].
  unfold TString.Append, TString.Prepend.
  assert (Hb : TString.BeginsWith "/" (identifier +:+ "/") =
               TString.BeginsWith "/" identifier) by apply BeginsWith_app_l, Hn.
  assert (He : TString.EndsWith "/" (String "/" identifier) =
               TString.EndsWith "/" identifier).
  { rewrite EndsWith_slash_cons, Hn. reflexivity. }
  change ("/" +:+ identifier) with (String "/" identifier).
  destruct (TString.EndsWith "/" identifier) eqn:Ee;
    destruct (TString.BeginsWith "/" identifier) eqn:Eb;
    simpl negb; cbv iota; rewrite ?Hb, ?He, ?Ee, ?Eb; simpl negb; cbv iota;
    intros Hfree; unfold TString.ReplaceAll; simpl TString.IsNull; cbv iota;
    apply ReplaceLoop_no_match; exact Hfree.
Qed.

Lemma internalAdopt_adopted (w w' : World Payload) (this : loc) (key : string) (o : loc)
    (ob : TObject Payload) :
  store_bound w this -> objects w !! o = Some (Live ob) ->
  internalAdopt this key (Some o) w = Ok (true, w') ->
  exists m' hl h,
    current w' this m' /\ bound m' /\ MapOf.GetValue m' key = Some hl /\
    hlists w' !! hl = Some (Live h) /\
    FindObjectIn (hl_items h) (GetName ob) w' = Ok (Some o, w') /\
    objects w' = objects w.
Proof.
  intros Hb Ho. unfold internalAdopt.
  rewrite (bind_Ok _ _ _ _ _ (derefObject_Ok _ _ _ Ho)).
  intros H. apply bind_inv in H as (found & w1 & H1 & H).
  destruct (Map_GetValue_inv _ _ _ _ _ Hb H1) as (Ho1 & Hh1 & m1 & Hcur1 & Hb1 & ->).
  apply bind_inv in H as (hlist & w2 & H2 & H).
  (* the hash list of the key, found or made *)
  assert (Hlist : exists m2, current w2 this m2 /\ bound m2 /\
                             MapOf.GetValue m2 key = Some hlist /\ objects w2 = objects w).
  { destruct (MapOf.GetValue m1 key) as [hl|] eqn:Hkey.
    - injection H2 as <- <-. exists m1. rewrite Ho1. auto.
    - apply bind_inv in H2 as (hl & wa & Ha & H2). injection Ha as <- <-.
      apply bind_inv in H2 as (? & wb & Hadd & H2).
      unfold Map_Add in Hadd. apply bind_inv in Hadd as (m & wc & Hm & Hadd).
      set (wa := set_hlists (insert (fresh (dom (hlists w1))) (Live (mkHashList "" []))) w1)
        in *.
      assert (Hcura : current wa this m1).
      { destruct Hcur1 as (c & Hc & Hm1 & Hv). exists c. auto. }
      rewrite (theMap_current _ _ _ Hcura) in Hm. injection Hm as <- <-.
      pose proof Hcura as (c & Hc & Hmc & Hv).
      rewrite (bind_Ok _ _ _ _ _ (derefColl_Ok _ _ _ Hc)) in Hadd. injection Hadd as <-.
      apply bind_inv in H2 as (l & wd & Hl & H2). apply derefList_inv in Hl as [-> _].
      apply bind_inv in H2 as (? & we & Hst & H2). injection Hst as <-. injection H2 as <- <-.
      subst wb we.
      exists (MapOf.Add m1 key (Some (fresh (dom (hlists w1))))). split; [|split; [|split]].
      + eexists. simpl. rewrite lookup_insert_eq. repeat split. exact Hv.
      + unfold MapOf.Add. apply Forall_app. split; [exact Hb1|].
        repeat constructor. simpl. discriminate.
      + apply GetValue_bound_new; assumption.
      + simpl. exact Ho1. }
  destruct Hlist as (m2 & Hcur2 & Hb2 & Hkey2 & Ho2).
  apply bind_inv in H as (existing & w3 & Hfind & H).
  apply HashList_FindObject_inv in Hfind as (-> & h & Hh & Hfind).
  destruct existing as [x|]; [discriminate H|].
  apply bind_inv in H as (? & w4 & Hadd & H). injection H as <-.
  unfold HashList_AddLast in Hadd.
  rewrite (bind_Ok _ _ _ _ _ (derefList_Ok _ _ _ Hh)) in Hadd. injection Hadd as Hw4.
  subst w4.
  exists m2, hlist, (mkHashList (hl_name h) (hl_items h ++ [o])).
  split; [|split; [exact Hb2|split; [exact Hkey2|split; [|split]]]].
  - destruct Hcur2 as (c & Hc & Hm & Hv). exists c. auto.
  - simpl. apply lookup_insert_eq.
  - simpl hl_items.
    rewrite (FindObjectIn_same_objects w2) by reflexivity.
    rewrite (FindObjectIn_snoc w2 (hl_items h) (GetName ob) o ob Hfind); [reflexivity| |reflexivity].
    rewrite Ho2. exact Ho.
  - simpl. exact Ho2.
Qed.

(** X7. When adopt(identifier, obj) returns true, for an identifier without
    doubled separator and a store whose keys are all bound to a hash list,
    getObject(identifier, name of obj) returns obj in the store that adopt
    leaves, and does not change this store. *)
Theorem adopted_object_is_found_under_its_identifier (w w' : World Payload) (this : loc)
    (identifier : string) (o : loc) (ob : TObject Payload) :
  store_bound w this -> objects w !! o = Some (Live ob) ->
  TString.Contains "//" (enclosed identifier) = false ->
  adopt this identifier (Some o) w = Ok (true, w') ->
  getObjectAt this identifier (GetName ob) w' = Ok (Some o, w').
Proof.
  intros Hb Ho Hfree Hadopt. unfold adopt in Hadopt.
  rewrite correctIdentifier_enclosed in Hadopt by assumption.
  destruct (internalAdopt_adopted _ _ _ _ _ _ Hb Ho Hadopt)
    as (m' & hl & h & Hcur & _ & Hkey & Hh & Hfind & _).
  rewrite getObjectAt_enclosed.
  apply (internalObject_found _ _ _ _ _ _ _ _ Hcur Hkey Hh Hfind).
Qed.

(** X8. In a store whose keys are all bound to a hash list, an object whose
    name has no separator is found by its full identifier after a successful
    adoption: by its name alone after adopt(obj) at top level, and by
    /s1/.../sn/name after adopt under the joined valid segments s1/.../sn. *)
Theorem adopted_object_is_found_by_its_full_identifier (w w' : World Payload) (this : loc)
    (o : loc) (ob : TObject Payload) :
  store_bound w this -> objects w !! o = Some (Live ob) ->
  slashFree (GetName ob) = true ->
  (adoptTopLevel this (Some o) w = Ok (true, w') ->
   getObject this (GetName ob) w' = Ok (Some o, w')) /\
  (forall segs, segs <> [] -> Forall (fun s => valid_segment s = true) segs ->
     adopt this (joinSegments segs) (Some o) w = Ok (true, w') ->
     getObject this (joinAll segs +:+ "/" +:+ GetName ob) w' = Ok (Some o, w')).
Proof.
  intros Hb Ho Hname. split.
  - intros Hadopt. unfold adoptTopLevel in Hadopt.
    destruct (internalAdopt_adopted _ _ _ _ _ _ Hb Ho Hadopt)
      as (m' & hl & h & Hcur & _ & Hkey & Hh & Hfind & _).
    unfold getObject. unfold slashFree in Hname. rewrite Hname.
    rewrite getObjectAt_enclosed.
    apply (internalObject_found _ _ _ _ _ _ _ _ Hcur Hkey Hh Hfind).
  - intros segs Hne Hvalid Hadopt. unfold adopt in Hadopt.
    rewrite correctIdentifier_joinSegments in Hadopt by assumption.
    destruct (internalAdopt_adopted _ _ _ _ _ _ Hb Ho Hadopt)
      as (m' & hl & h & Hcur & _ & Hkey & Hh & Hfind & _).
    pose proof (getIdentifier_joinAll segs (GetName ob) (valid_slashFree _ Hvalid) Hname)
      as Hid.
    pose proof (getObjectName_joinAll segs (GetName ob) (valid_slashFree _ Hvalid) Hname)
      as Hobj.
    assert (Hpos : (0 < TString.CountChar TString.slash
                          (joinAll segs +:+ "/" +:+ GetName ob))%nat).
    { rewrite !CountChar_app. simpl. lia. }
    rewrite (getObject_below _ _ _ _ _ Hpos Hid Hobj).
    apply (internalObject_found _ _ _ _ _ _ _ _ Hcur Hkey Hh Hfind).
Qed.

(** *** Lookups and messages *)

Lemma addMessage_inv (w w' : World Payload) (this : loc) (msg : string)
    (c : MergeableCollection) :
  colls w !! this = Some (Live c) ->
  addMessage this msg w = Ok (tt, w') ->
  w' = set_colls
         (insert this
            (Live (with_fMessages c
                     (<[msg := (default 0%Z (fMessages c !! msg) + 1)%Z]> (fMessages c))))) w.
Proof.
  intros Hc. unfold addMessage. rewrite (bind_Ok _ _ _ _ _ (derefColl_Ok _ _ _ Hc)).
  intros [= <-]. reflexivity.
Qed.

Lemma internalObject_inv (w w' : World Payload) (this : loc) (m : TMap)
    (identifier objectName : string) (r : option loc) :
  current w this m ->
  internalObject this identifier objectName w = Ok (r, w') ->
  match r with
  | Some o => w' = w
  | None =>
      exists c msg,
        colls w !! this = Some (Live c) /\
        w' = set_colls
               (insert this
                  (Live (with_fMessages c
                           (<[msg := (default 0%Z (fMessages c !! msg) + 1)%Z]>
                              (fMessages c))))) w
  end.
Proof.
  intros Hcur. pose proof Hcur as (c & Hc & Hm & Hv). unfold internalObject.
  rewrite (bind_Ok _ _ _ _ _ (derefColl_Ok _ _ _ Hc)), Hm.
  rewrite (bind_Ok _ _ _ _ _ (Map_GetValue_current _ _ _ identifier Hcur)).
  destruct (MapOf.GetValue m identifier) as [hl|].
  - intros H. apply bind_inv in H as (obj & w1 & H1 & H2).
    apply HashList_FindObject_inv in H1 as (-> & _).
    destruct obj as [o|].
    + injection H2 as <- <-. reflexivity.
    + apply bind_inv in H2 as ([] & w2 & H2 & H3). injection H3 as <- <-.
      exists c. eexists. split; [exact Hc|]. eapply addMessage_inv; eassumption.
  - rewrite (bind_Ok theWorld _ w w w eq_refl).
    intros H. apply bind_inv in H as ([] & w2 & H2 & H3). injection H3 as <- <-.
    exists c. eexists. split; [exact Hc|]. eapply addMessage_inv; eassumption.
Qed.

Lemma getObject_internalObject (w : World Payload) (this : loc) (fullIdentifier : string) :
  exists identifier objectName,
    getObject this fullIdentifier w = internalObject this identifier objectName w.
Proof.
  unfold getObject. destruct (_ =? _)%nat.
  - eexists _, _. apply getObjectAt_enclosed.
  - destruct (getIdentifier_total fullIdentifier) as [id ->].
    destruct (getObjectName_total fullIdentifier) as [name ->].
    exists (enclosed id), name. reflexivity.
Qed.

(** X9. On a live collection with an up-to-date map,
    getObject(fullIdentifier) changes nothing but the messages of its
    collection: objects, hash lists, the map and the other collections are
    as before; a lookup that finds the object leaves the whole store as it
    was, one that fails counts one message once more, and clearMessages then
    empties the messages and keeps the map. *)
Theorem lookup_changes_only_the_messages (w w' : World Payload) (this : loc) (m : TMap)
    (fullIdentifier : string) (r : option loc) :
  current w this m ->
  getObject this fullIdentifier w = Ok (r, w') ->
  objects w' = objects w /\ hlists w' = hlists w /\ current w' this m /\
  (forall l, l <> this -> colls w' !! l = colls w !! l) /\
  (is_Some r -> w' = w) /\
  (r = None ->
   exists msg, messages w' this =
               <[msg := (default 0%Z (messages w this !! msg) + 1)%Z]> (messages w this)) /\
  exists w'', clearMessages this w' = Ok (tt, w'') /\ messages w'' this = ∅ /\
              current w'' this m.
Proof.
  intros Hcur H. destruct (getObject_internalObject w this fullIdentifier) as (id & name & E).
  rewrite E in H. apply (internalObject_inv _ _ _ _ _ _ _ Hcur) in H.
  pose proof Hcur as (c & Hc & Hm & Hv).
  assert (Hclear : forall (w1 : World Payload) c1,
             colls w1 !! this = Some (Live c1) -> fMap c1 = Some m ->
             (1 <= fMapVersion c1)%Z ->
             exists w'', clearMessages this w1 = Ok (tt, w'') /\ messages w'' this = ∅ /\
                         current w'' this m).
  { intros w1 c1 Hc1 Hm1 Hv1. eexists. unfold clearMessages.
    rewrite (bind_Ok _ _ _ _ _ (derefColl_Ok _ _ _ Hc1)). split; [reflexivity|].
    unfold messages, current. simpl. rewrite lookup_insert_eq.
    split; [reflexivity|]. eexists. split; [reflexivity|]. auto. }
  destruct r as [o|].
  - subst w'. repeat split; auto; [intros; discriminate|eauto].
  - destruct H as (c' & msg & Hc' & ->). rewrite Hc in Hc'. injection Hc' as <-.
    split; [reflexivity|]. split; [reflexivity|]. split.
    { eexists. simpl. rewrite lookup_insert_eq. split; [reflexivity|]. auto. }
    split. { intros l Hl. simpl. apply lookup_insert_ne. congruence. }
    split. { intros [x Hx]. discriminate. }
    split.
    + intros _. exists msg. unfold messages. simpl. rewrite lookup_insert_eq, Hc. reflexivity.
    + eapply Hclear; [simpl; apply lookup_insert_eq| |]; assumption.
Qed.

(** *** The map *)

Lemma remap_length (todo : list string) (m m' : TMap) :
  MapOf.remap todo m = Some m' -> length m' = length m.
Proof.
  revert m. induction todo as [|str todo IH]; intros m; simpl.
  - intros [= <-]. reflexivity.
  - destruct (TString.Contains "./" str); [|apply IH].
    destruct (MapOf.RemoveEntry m str) as [[v m1]|] eqn:Hr; [|discriminate].
    destruct (RemoveEntry_elem _ _ _ _ Hr) as [_ Hperm].
    intros H. apply IH in H. rewrite H. unfold MapOf.Add. rewrite length_app. simpl.
    apply Permutation_length in Hperm. unfold MapOf.keys in Hperm.
    simpl in Hperm. rewrite !length_map in Hperm. lia.
Qed.

(** X10. Map() on a live collection returns and leaves a map in the current
    format, which a second call does not change; the map has as many entries
    as the one found (an absent map becomes the empty map), and objects and
    hash lists are untouched. *)
Theorem Map_returns_the_map (w : World Payload) (this : loc) :
  live (colls w) this ->
  exists w' m',
    Map this w = Ok (true, w') /\ current w' this m' /\
    Map this w' = Ok (true, w') /\
    (forall c m, colls w !! this = Some (Live c) -> fMap c = Some m ->
                 length m' = length m) /\
    (forall c, colls w !! this = Some (Live c) -> fMap c = None -> m' = []) /\
    objects w' = objects w /\ hlists w' = hlists w.
Proof.
  intros [c Hc]. unfold Map at 1. rewrite (bind_Ok _ _ _ _ _ (derefColl_Ok _ _ _ Hc)).
  assert (Hsame : forall (w' : World Payload) m', current w' this m' ->
                                 Map this w' = Ok (true, w')).
  { intros w' m' H. eapply Map_current, H. }
  destruct (fMap c) as [m|] eqn:Hm.
  - destruct (Z.ltb_spec (fMapVersion c) 1) as [Hold|Hnew].
    + destruct (remap_total (MapOf.keys m) m ltac:(reflexivity)) as (m' & Hm' & _).
      rewrite Hm'. eexists _, m'. split; [reflexivity|].
      assert (Hcur : current (set_colls (insert this (Live (with_fMap c (Some m') 1))) w)
                       this m').
      { exists (with_fMap c (Some m') 1). simpl. rewrite lookup_insert_eq.
        repeat split. lia. }
      split; [exact Hcur|]. split; [eapply Hsame, Hcur|].
      split; [|split; [|split; reflexivity]].
      * intros c0 m0 Hc0 Hm0. rewrite Hc in Hc0. injection Hc0 as <-.
        rewrite Hm in Hm0. injection Hm0 as <-. eapply remap_length, Hm'.
      * intros c0 Hc0 Hm0. rewrite Hc in Hc0. injection Hc0 as <-. congruence.
    + exists w, m. assert (Hcur : current w this m) by (exists c; auto).
      split; [reflexivity|]. split; [exact Hcur|]. split; [eapply Hsame, Hcur|].
      split; [|split; [|split; reflexivity]].
      * intros c0 m0 Hc0 Hm0. rewrite Hc in Hc0. injection Hc0 as <-.
        rewrite Hm in Hm0. injection Hm0 as <-. reflexivity.
      * intros c0 Hc0 Hm0. rewrite Hc in Hc0. injection Hc0 as <-. congruence.
  - eexists _, []. split; [reflexivity|].
    assert (Hcur : current (set_colls (insert this (Live (with_fMap c (Some []) 1))) w)
                     this []).
    { exists (with_fMap c (Some []) 1). simpl. rewrite lookup_insert_eq.
      repeat split. lia. }
    split; [exact Hcur|]. split; [eapply Hsame, Hcur|].
    split; [|split; [|split; reflexivity]].
    + intros c0 m0 Hc0 Hm0. rewrite Hc in Hc0. injection Hc0 as <-. congruence.
    + reflexivity.
Qed.

(** *** Iteration *)

Lemma derefIter_Ok (w : World Payload) (l : loc) (i : TIterator) :
  iterators w !! l = Some (Live i) -> derefIter l w = Ok (i, w).
Proof. intros H. unfold derefIter, read. rewrite H. reflexivity. Qed.

Lemma objectsOf_same (w w' : World Payload) (m : TMap) (d : bool) (ks : list string) :
  hlists w' = hlists w -> objectsOf w' m d ks = objectsOf w m d ks.
Proof. intros H. unfold objectsOf, itemsIn. rewrite H. reflexivity. Qed.

Section Iterating.
Variable this : loc.
Variable m : TMap.
Variable d : bool.

Lemma iterating_refl (w : World Payload) : iterating w w.
Proof. repeat split. Qed.

Lemma iterating_iterators (w0 w : World Payload) f :
  iterating w0 w -> iterating w0 (set_iterators f w).
Proof. intros (H1 & H2 & H3). repeat split; assumption. Qed.

Lemma iterating_trans (w0 w1 w2 : World Payload) :
  iterating w0 w1 -> iterating w1 w2 -> iterating w0 w2.
Proof. intros (a & b & c) (e & f & g). repeat split; congruence. Qed.

Lemma visiting_same (w w' : World Payload) it rest :
  hlists w' = hlists w -> iterators w' = iterators w ->
  visiting w this m d it rest -> visiting w' this m d it rest.
Proof.
  intros Hh Hi (H1 & H2 & mi & ks & H3 & H4 & H5 & H6 & H7).
  split; [exact H1|]. split; [exact H2|]. exists mi, ks.
  rewrite Hi, (objectsOf_same w w') by assumption. auto.
Qed.

Lemma Next_from_the_map (w : World Payload) :
  current w this m -> bound m -> closed w ->
  forall (ks : list string) (fuel : nat) (w1 : World Payload)
         (it : MergeableCollectionIterator) (mi : loc),
    (length ks < fuel)%nat -> iterating w w1 ->
    fkMergeableCollection it = this -> fDirection it = d ->
    fMapIterator it = Some mi -> fHashListIterator it = None ->
    iterators w1 !! mi = Some (Live (TMapIter ks)) ->
    Forall (fun k => k ∈ MapOf.keys m) ks -> (length ks <= length m)%nat ->
    exists w' it',
      Next fuel it w1 = Ok ((head (objectsOf w m d ks), it'), w') /\
      iterating w w' /\
      visiting w' this m d it' (tail (objectsOf w m d ks)) /\
      (objectsOf w m d ks = [] -> fHashListIterator it' = None).
Proof.
  intros Hcur Hb Hcl.
  induction ks as [|k ks IH];
    intros fuel w1 it mi Hfuel Hit Hthis Hd Hmi Hli Hw1 Hks Hlen.
  - destruct fuel as [|fuel]; [simpl in Hfuel; lia|].
    simpl Next. rewrite Hli, Hmi.
    rewrite !bind_assoc. rewrite (bind_Ok (ret mi) _ w1 w1 mi eq_refl). cbv beta.
    rewrite bind_assoc. unfold TMapIter_Next at 1.
    rewrite bind_assoc, (bind_Ok _ _ _ _ _ (derefIter_Ok _ _ _ Hw1)). cbv beta iota.
    eexists w1, _. split; [reflexivity|]. split; [exact Hit|]. split.
    + split; [exact Hthis|]. split; [exact Hd|]. exists mi, []. simpl.
      repeat split; auto.
    + intros _. reflexivity.
  - destruct fuel as [|fuel]; [simpl in Hfuel; lia|]. simpl in Hfuel.
    apply Forall_cons in Hks as [Hk Hks].
    (* the hash list of the key *)
    pose proof (GetValue_bound_key m k Hb Hk) as Hsome.
    destruct (MapOf.GetValue m k) as [hl|] eqn:Hkey; [clear Hsome|contradiction].
    pose proof Hcur as (c & Hc & Hm & Hv).
    destruct (GetValue_elem _ _ _ Hkey) as [k' Hk'].
    destruct (closed_map _ _ _ _ _ _ Hcl Hc Hm Hk') as [h Hh].
    pose proof Hit as (Hi1 & Hi2 & Hi3).
    simpl Next. rewrite Hli, Hmi.
    rewrite !bind_assoc. rewrite (bind_Ok (ret mi) _ w1 w1 mi eq_refl). cbv beta.
    rewrite bind_assoc. unfold TMapIter_Next at 1.
    rewrite bind_assoc, (bind_Ok _ _ _ _ _ (derefIter_Ok _ _ _ Hw1)). cbv beta iota.
    rewrite bind_assoc.
    set (w2 := set_iterators (insert mi (Live (TMapIter ks))) w1).
    rewrite (bind_Ok (storeIter mi (TMapIter ks)) _ w1 w2 tt eq_refl). cbv beta.
    rewrite (bind_Ok (ret (Some k)) _ w2 w2 _ eq_refl). cbv beta iota.
    assert (Hcur2 : current w2 this m).
    { exists c. simpl. rewrite Hi1. auto. }
    rewrite Hthis, bind_assoc.
    rewrite (bind_Ok _ _ _ _ _ (Map_GetValue_current _ _ _ k Hcur2)), Hkey. cbv beta iota.
    rewrite bind_assoc.
    rewrite (bind_Ok _ _ _ _ _ (derefList_Ok w2 hl h ltac:(simpl; rewrite Hi2; exact Hh))).
    cbv beta. rewrite bind_assoc.
    set (li := fresh (dom (iterators w2))).
    set (w3 := set_iterators (insert li (Live (TListIter (inDirection d (hl_items h))))) w2).
    assert (Hnew : newIter (TListIter (inDirection (fDirection it) (hl_items h))) w2 =
                   Ok (li, w3)) by (rewrite Hd; reflexivity).
    rewrite (bind_Ok _ _ _ _ _ Hnew). cbv beta.
    rewrite (bind_Ok (ret _) _ w3 w3 _ eq_refl). cbv beta iota.
    assert (Hne : li <> mi).
    { intros E. apply (is_fresh (dom (iterators w2))). fold li. rewrite E.
      apply elem_of_dom. exists (Live (TMapIter ks)). simpl. apply lookup_insert_eq. }
    assert (Hitems : objectsOf w m d (k :: ks) =
                     inDirection d (hl_items h) ++ objectsOf w m d ks).
    { unfold objectsOf. simpl. unfold itemsIn at 1. rewrite Hkey, Hh. reflexivity. }
    rewrite Hitems. clear Hitems.
    unfold TListIter_Next at 1. rewrite bind_assoc.
    rewrite (bind_Ok _ _ _ _ _
               (derefIter_Ok w3 li _ ltac:(simpl; apply lookup_insert_eq))).
    cbv beta iota.
    destruct (inDirection d (hl_items h)) as [|o os] eqn:Hos.
    + (* an empty list: on to the next key *)
      rewrite (bind_Ok (ret None) _ w3 w3 _ eq_refl). cbv beta iota.
      unfold deleteIter. rewrite !bind_assoc.
      rewrite (bind_Ok _ _ _ _ _
                 (derefIter_Ok w3 li _ ltac:(simpl; apply lookup_insert_eq))).
      cbv beta.
      set (w4 := set_iterators (insert li Deleted) w3).
      rewrite (bind_Ok (fun w => Ok (tt, set_iterators <[li:=Deleted]> w)) _ w3 w4 tt eq_refl).
      cbv beta. simpl app.
      apply (IH fuel w4 _ mi); try reflexivity; try assumption; [lia| |simpl in Hlen; lia].
      simpl. rewrite lookup_insert_ne by assumption.
      rewrite lookup_insert_ne by assumption. apply lookup_insert_eq.
    + (* the first object of the list *)
      rewrite bind_assoc.
      set (w4 := set_iterators (insert li (Live (TListIter os))) w3).
      rewrite (bind_Ok (storeIter li (TListIter os)) _ w3 w4 tt eq_refl). cbv beta.
      rewrite (bind_Ok (ret (Some o)) _ w4 w4 _ eq_refl). cbv beta iota.
      eexists w4, _. split; [reflexivity|]. split; [repeat split; simpl; assumption|].
      split.
      * split; [exact Hthis|]. split; [exact Hd|]. exists mi, ks.
        split; [reflexivity|]. split.
        { simpl. rewrite lookup_insert_ne by assumption.
          rewrite lookup_insert_ne by assumption. apply lookup_insert_eq. }
        split; [exact Hks|]. split; [simpl in Hlen; lia|].
        simpl. split; [exact Hne|]. exists os. split.
        { apply lookup_insert_eq. }
        rewrite (objectsOf_same w w4) by (simpl; exact Hi2). reflexivity.
      * discriminate.
Qed.

Lemma Next_visiting (w : World Payload) :
  current w this m -> bound m -> closed w ->
  forall (fuel : nat) (w1 : World Payload) (it : MergeableCollectionIterator)
         (rest : list loc),
    (length m + 1 < fuel)%nat -> iterating w w1 -> visiting w1 this m d it rest ->
    exists w' it',
      Next fuel it w1 = Ok ((head rest, it'), w') /\
      iterating w w' /\ visiting w' this m d it' (tail rest) /\
      (rest = [] -> fHashListIterator it' = None).
Proof.
  intros Hcur Hb Hcl fuel w1 it rest Hfuel Hit
    (Hthis & Hd & mi & ks & Hmi & Hw1 & Hks & Hlen & Hrest).
  pose proof Hit as (Hi1 & Hi2 & Hi3).
  rewrite (objectsOf_same w w1) in Hrest by assumption.
  destruct (fHashListIterator it) as [li|] eqn:Hli.
  - destruct Hrest as (Hne & os & Hos & ->).
    destruct fuel as [|fuel]; [lia|]. simpl Next. rewrite Hli.
    rewrite (bind_Ok (ret (inr (li, it))) _ w1 w1 _ eq_refl). cbv beta iota.
    unfold TListIter_Next at 1. rewrite bind_assoc.
    rewrite (bind_Ok _ _ _ _ _ (derefIter_Ok _ _ _ Hos)). cbv beta iota.
    destruct os as [|o os].
    + rewrite (bind_Ok (ret None) _ w1 w1 _ eq_refl). cbv beta iota.
      unfold deleteIter. rewrite !bind_assoc.
      rewrite (bind_Ok _ _ _ _ _ (derefIter_Ok _ _ _ Hos)). cbv beta.
      set (w2 := set_iterators (insert li Deleted) w1).
      rewrite (bind_Ok (fun w => Ok (tt, set_iterators <[li:=Deleted]> w)) _ w1 w2 tt eq_refl).
      cbv beta. simpl app.
      apply (Next_from_the_map w Hcur Hb Hcl ks fuel w2 _ mi); try assumption;
        try reflexivity; [lia|].
      simpl. rewrite lookup_insert_ne by assumption. exact Hw1.
    + rewrite bind_assoc.
      set (w2 := set_iterators (insert li (Live (TListIter os))) w1).
      rewrite (bind_Ok (storeIter li (TListIter os)) _ w1 w2 tt eq_refl). cbv beta.
      rewrite (bind_Ok (ret (Some o)) _ w2 w2 _ eq_refl). cbv beta iota.
      exists w2, it. split; [reflexivity|]. split; [repeat split; assumption|]. split.
      * split; [exact Hthis|]. split; [exact Hd|]. exists mi, ks.
        split; [exact Hmi|]. split.
        { simpl. rewrite lookup_insert_ne by assumption. exact Hw1. }
        split; [exact Hks|]. split; [exact Hlen|]. rewrite Hli.
        split; [exact Hne|]. exists os. split; [apply lookup_insert_eq|].
        rewrite (objectsOf_same w w2) by (simpl; exact Hi2). reflexivity.
      * discriminate.
  - subst rest.
    apply (Next_from_the_map w Hcur Hb Hcl ks fuel w1 it mi); try assumption. lia.
Qed.

(** The first call of [Next] makes the iterator of the map. *)
Lemma Next_makes_the_map_iterator (w1 : World Payload) (it : MergeableCollectionIterator)
    (c : MergeableCollection) (fuel : nat) :
  fkMergeableCollection it = this -> fDirection it = d ->
  fMapIterator it = None -> fHashListIterator it = None ->
  colls w1 !! this = Some (Live c) -> fMap c = Some m ->
  Next (S fuel) it w1 =
  Next (S fuel) (with_cursors it (Some (fresh (dom (iterators w1)))) None)
    (set_iterators
       (insert (fresh (dom (iterators w1))) (Live (TMapIter (inDirection d (MapOf.keys m)))))
       w1).
Proof.
  destruct it as [coll mi0 li0 dir]. simpl. intros -> -> -> -> Hc Hm.
  rewrite !bind_assoc. rewrite (bind_Ok _ _ _ _ _ (derefColl_Ok _ _ _ Hc)), Hm.
  reflexivity.
Qed.

Lemma visiting_from_the_start (w1 : World Payload) (it : MergeableCollectionIterator) :
  fkMergeableCollection it = this -> fDirection it = d ->
  visiting
    (set_iterators
       (insert (fresh (dom (iterators w1))) (Live (TMapIter (inDirection d (MapOf.keys m)))))
       w1)
    this m d (with_cursors it (Some (fresh (dom (iterators w1)))) None)
    (iteration w1 m d).
Proof.
  intros Hthis Hd. split; [exact Hthis|]. split; [exact Hd|].
  eexists _, _. split; [reflexivity|]. split; [simpl; apply lookup_insert_eq|].
  split; [|split].
  - apply Forall_forall. intros k Hk. unfold inDirection in Hk.
    destruct d; [exact Hk|]. apply list_elem_of_In, in_rev, list_elem_of_In. exact Hk.
  - unfold inDirection, MapOf.keys. destruct d; rewrite ?length_rev, length_map; reflexivity.
  - reflexivity.
Qed.

Lemma nextN_S (fuel n : nat) (it : MergeableCollectionIterator) (w : World Payload) :
  nextN fuel (S n) it w =
  (let* r := Next fuel it in
   let* rs := nextN fuel n (snd r) in
   ret (fst r :: fst rs, snd rs)) w.
Proof. reflexivity. Qed.

Lemma nextN_visiting (w : World Payload) (fuel : nat) :
  current w this m -> bound m -> closed w -> (length m + 1 < fuel)%nat ->
  forall (rest : list loc) (w1 : World Payload) (it : MergeableCollectionIterator),
    iterating w w1 -> visiting w1 this m d it rest ->
    exists w' it',
      nextN fuel (S (length rest)) it w1 = Ok ((map Some rest ++ [None], it'), w') /\
      iterating w w'.
Proof.
  intros Hcur Hb Hcl Hfuel. induction rest as [|o rest IH]; intros w1 it Hit Hvis.
  - destruct (Next_visiting w Hcur Hb Hcl fuel w1 it [] Hfuel Hit Hvis)
      as (w' & it' & Hnext & Hit' & _).
    exists w', it'. split; [|exact Hit']. simpl nextN.
    rewrite (bind_Ok _ _ _ _ _ Hnext). reflexivity.
  - destruct (Next_visiting w Hcur Hb Hcl fuel w1 it (o :: rest) Hfuel Hit Hvis)
      as (w' & it' & Hnext & Hit' & Hvis' & _).
    destruct (IH w' it' Hit' Hvis') as (w'' & it'' & Hrun & Hit'').
    exists w'', it''. split; [|exact Hit''].
    simpl length. rewrite nextN_S.
    rewrite (bind_Ok _ _ _ _ _ Hnext). cbv beta. simpl snd. simpl fst.
    rewrite (bind_Ok _ _ _ _ _ Hrun). reflexivity.
Qed.

Lemma countLoop_S (fuel turns : nat) (it : option MergeableCollectionIterator) (count : Z)
    (w : World Payload) :
  countLoop fuel (S turns) it count w =
  (let* r := TIter_Next fuel it in
   match fst r with
   | None => ret (count, snd r)
   | Some _ => countLoop fuel turns (snd r) (count + 1)%Z
   end) w.
Proof. reflexivity. Qed.

Lemma countLoop_visiting (w : World Payload) (fuel : nat) :
  current w this m -> bound m -> closed w -> (length m + 1 < fuel)%nat ->
  forall (rest : list loc) (turns : nat) (w1 : World Payload)
         (it : MergeableCollectionIterator) (count : Z),
    (length rest < turns)%nat -> iterating w w1 -> visiting w1 this m d it rest ->
    exists w' it',
      countLoop fuel turns (Some it) count w1 =
      Ok (((count + Z.of_nat (length rest))%Z, Some it'), w') /\
      iterating w w' /\ visiting w' this m d it' [] /\ fHashListIterator it' = None.
Proof.
  intros Hcur Hb Hcl Hfuel.
  induction rest as [|o rest IH]; intros turns w1 it count Hturns Hit Hvis;
    (destruct turns as [|turns]; [simpl in Hturns; lia|]); rewrite countLoop_S;
    unfold TIter_Next; rewrite bind_assoc.
  - destruct (Next_visiting w Hcur Hb Hcl fuel w1 it [] Hfuel Hit Hvis)
      as (w' & it' & Hnext & Hit' & Hvis' & Hnone).
    rewrite (bind_Ok _ _ _ _ _ Hnext). cbv beta. cbn [fst snd].
    rewrite (bind_Ok (ret _) _ w' w' _ eq_refl). cbv beta. cbn [fst snd].
    exists w', it'. split; [|auto].
    replace (count + Z.of_nat (length (@nil loc)))%Z with count by (simpl; lia).
    reflexivity.
  - destruct (Next_visiting w Hcur Hb Hcl fuel w1 it (o :: rest) Hfuel Hit Hvis)
      as (w' & it' & Hnext & Hit' & Hvis' & _).
    change (head (o :: rest)) with (Some o) in Hnext.
    rewrite (bind_Ok _ _ _ _ _ Hnext). cbv beta. cbn [fst snd].
    rewrite (bind_Ok (ret _) _ w' w' _ eq_refl). cbv beta iota. cbn [fst snd].
    cbv iota.
    destruct (IH turns w' it' (count + 1)%Z ltac:(simpl in Hturns; lia) Hit' Hvis')
      as (w'' & it'' & Hrun & H).
    exists w'', it''. split; [|exact H]. rewrite Hrun.
    replace (count + Z.of_nat (length (o :: rest)))%Z
      with (count + 1 + Z.of_nat (length rest))%Z by (simpl length; lia).
    reflexivity.
Qed.

End Iterating.

(** X11. In a store without dangling pointer whose keys are all bound to a
    hash list, and with enough fuel for the loop of Next, the iterator that
    createIterator returns visits, call after call of Next, the objects of
    the hash lists in the order of the keys of the map (keys and lists
    reversed for the backward direction), then returns null; collections,
    hash lists and objects are unchanged. *)
Theorem iteration_visits_every_object (w : World Payload) (this : loc) (m : TMap)
    (d : bool) (fuel : nat) :
  current w this m -> bound m -> closed w -> (length m + 1 < fuel)%nat ->
  exists it w' it',
    createIterator this d w = Ok (Some it, w) /\
    nextN fuel (S (length (iteration w m d))) it w =
    Ok ((map Some (iteration w m d) ++ [None], it'), w') /\
    colls w' = colls w /\ hlists w' = hlists w /\ objects w' = objects w.
Proof.
  intros Hcur Hb Hcl Hfuel. pose proof Hcur as (c & Hc & Hm & Hv).
  set (it := mkIterator this None None d).
  set (mi := fresh (dom (iterators w))).
  set (w1 := set_iterators (insert mi (Live (TMapIter (inDirection d (MapOf.keys m))))) w).
  destruct (nextN_visiting this m d w fuel Hcur Hb Hcl Hfuel (iteration w m d) w1
              (with_cursors it (Some mi) None))
    as (w' & it' & Hrun & Hit').
  { repeat split. }
  { apply (visiting_from_the_start this m d w it); reflexivity. }
  exists it, w', it'. split; [|split; [|exact Hit']].
  - unfold createIterator. rewrite (bind_Ok _ _ _ _ _ (derefColl_Ok _ _ _ Hc)), Hm.
    reflexivity.
  - destruct fuel as [|fuel]; [lia|].
    rewrite nextN_S in Hrun |- *. unfold bind at 1. unfold bind at 1 in Hrun.
    rewrite (Next_makes_the_map_iterator this m d w it c fuel eq_refl eq_refl eq_refl eq_refl
               Hc Hm).
    exact Hrun.
Qed.

(** X12. In a store without dangling pointer whose keys are all bound to a
    hash list, and with enough fuel for its loop, numberOfObjects returns
    the number of objects that the iteration over the collection visits, and
    leaves collections, hash lists and objects unchanged. *)
Theorem numberOfObjects_counts_the_objects (w : World Payload) (this : loc) (m : TMap)
    (fuel : nat) :
  current w this m -> bound m -> closed w ->
  (length m + length (iteration w m kIterForward) + 1 < fuel)%nat ->
  exists w',
    numberOfObjects fuel this w = Ok (Z.of_nat (length (iteration w m kIterForward)), w') /\
    colls w' = colls w /\ hlists w' = hlists w /\ objects w' = objects w.
Proof.
  intros Hcur Hb Hcl Hfuel. pose proof Hcur as (c & Hc & Hm & Hv).
  set (d := kIterForward) in *.
  set (it := mkIterator this None None d).
  set (mi := fresh (dom (iterators w))).
  set (w1 := set_iterators (insert mi (Live (TMapIter (inDirection d (MapOf.keys m))))) w).
  destruct (countLoop_visiting this m d w fuel Hcur Hb Hcl ltac:(lia) (iteration w m d) fuel w1
              (with_cursors it (Some mi) None) 0%Z)
    as (w' & it' & Hrun & Hit' & Hvis' & Hnone).
  { lia. }
  { repeat split. }
  { apply (visiting_from_the_start this m d w it); reflexivity. }
  destruct Hvis' as (_ & _ & mi' & ks & Hmi' & Hlive & _).
  unfold numberOfObjects, createIterator.
  rewrite bind_assoc, (bind_Ok _ _ _ _ _ (derefColl_Ok _ _ _ Hc)), Hm.
  rewrite (bind_Ok (ret _) _ w w _ eq_refl). cbv beta.
  destruct fuel as [|fuel]; [lia|].
  rewrite countLoop_S in Hrun. unfold TIter_Next in Hrun. rewrite bind_assoc in Hrun.
  unfold bind at 1 in Hrun.
  assert (Hloop : countLoop (S fuel) (S fuel) (Some it) 0 w =
                  Ok ((Z.of_nat (length (iteration w m d)), Some it'), w')).
  { rewrite countLoop_S. unfold TIter_Next. rewrite bind_assoc. unfold bind at 1.
    rewrite (Next_makes_the_map_iterator this m d w it c fuel eq_refl eq_refl eq_refl eq_refl
               Hc Hm).
    exact Hrun. }
  fold d. fold it. rewrite (bind_Ok _ _ _ _ _ Hloop). cbv beta. cbn [fst snd].
  unfold TIter_delete, Reset. rewrite Hnone, Hmi'. rewrite !bind_assoc.
  rewrite (bind_Ok (deleteIter None) _ w' w' tt eq_refl). cbv beta.
  unfold deleteIter. rewrite !bind_assoc.
  rewrite (bind_Ok _ _ _ _ _ (derefIter_Ok _ _ _ Hlive)). cbv beta.
  eexists. split; [reflexivity|]. exact Hit'.
Qed.

(** *** Deletion *)

Lemma deleteObjects (items : list loc) (w : World Payload) :
  NoDup items -> (forall o, o ∈ items -> live (objects w) o) ->
  exists w',
    forEach items deleteObject w = Ok (tt, w') /\
    colls w' = colls w /\ hlists w' = hlists w /\ iterators w' = iterators w /\
    (forall o, o ∈ items -> objects w' !! o = Some Deleted) /\
    (forall o, o ∉ items -> objects w' !! o = objects w !! o).
Proof.
  revert w. induction items as [|x items IH]; intros w Hnd Hlive.
  - exists w. simpl. repeat split; auto. intros o Ho. apply elem_of_nil in Ho. contradiction.
  - apply NoDup_cons in Hnd as [Hx Hnd].
    destruct (Hlive x ltac:(left)) as [ob Hob].
    set (w1 := set_objects (insert x Deleted) w).
    destruct (IH w1 Hnd) as (w' & Hrun & Hc & Hh & Hi & Hdel & Hkeep).
    { intros o Ho. destruct (Hlive o ltac:(right; exact Ho)) as [v Hv].
      exists v. simpl. rewrite lookup_insert_ne; [exact Hv|]. intros ->. contradiction. }
    exists w'. simpl forEach. unfold deleteObject at 1. rewrite !bind_assoc.
    rewrite (bind_Ok _ _ _ _ _ (derefObject_Ok _ _ _ Hob)). cbv beta.
    rewrite (bind_Ok (fun w => Ok (tt, set_objects <[x:=Deleted]> w)) _ w w1 tt eq_refl).
    split; [exact Hrun|]. split; [exact Hc|]. split; [exact Hh|]. split; [exact Hi|]. split.
    + intros o Ho. apply elem_of_cons in Ho as [->|Ho]; [|auto].
      rewrite (Hkeep x Hx). simpl. apply lookup_insert_eq.
    + intros o Ho. rewrite Hkeep by (intros H; apply Ho; right; exact H).
      simpl. apply lookup_insert_ne. intros ->. apply Ho. left.
Qed.

Lemma deleteList_owned (hl : loc) (h : THashList) (w : World Payload) :
  hlists w !! hl = Some (Live h) -> NoDup (hl_items h) ->
  (forall o, o ∈ hl_items h -> live (objects w) o) ->
  exists w',
    deleteList hl w = Ok (tt, w') /\
    colls w' = colls w /\ iterators w' = iterators w /\
    hlists w' = <[hl := Deleted]> (hlists w) /\
    (forall o, o ∈ hl_items h -> objects w' !! o = Some Deleted) /\
    (forall o, o ∉ hl_items h -> objects w' !! o = objects w !! o).
Proof.
  intros Hh Hnd Hlive.
  destruct (deleteObjects (hl_items h) w Hnd Hlive) as (w1 & Hrun & Hc & Hhl & Hi & Hdel & Hkeep).
  eexists. unfold deleteList. rewrite (bind_Ok _ _ _ _ _ (derefList_Ok _ _ _ Hh)).
  rewrite (bind_Ok _ _ _ _ _ Hrun). split; [reflexivity|]. simpl.
  rewrite Hhl. auto.
Qed.

Lemma itemsIn_same (w w' : World Payload) (hl : loc) :
  hlists w' !! hl = hlists w !! hl -> itemsIn w' (Some hl) = itemsIn w (Some hl).
Proof. intros H. unfold itemsIn. rewrite H. reflexivity. Qed.

Lemma held_same (w w' : World Payload) (m : TMap) :
  (forall hl, hl ∈ listsOf m -> hlists w' !! hl = hlists w !! hl) ->
  held w' m = held w m.
Proof.
  unfold held. induction (listsOf m) as [|hl l IH]; intros H; [reflexivity|].
  change (itemsIn w' (Some hl) ++ flat_map (fun hl => itemsIn w' (Some hl)) l =
          itemsIn w (Some hl) ++ flat_map (fun hl => itemsIn w (Some hl)) l).
  rewrite (itemsIn_same w w' hl) by (apply H; left).
  rewrite IH; [reflexivity|]. intros x Hx. apply H. right. exact Hx.
Qed.

Lemma held_cons_Some (w : World Payload) (k : string) (hl : loc) (m : TMap) :
  held w ((k, Some hl) :: m) = itemsIn w (Some hl) ++ held w m.
Proof. reflexivity. Qed.

Lemma held_cons_None (w : World Payload) (k : string) (m : TMap) :
  held w ((k, None) :: m) = held w m.
Proof. reflexivity. Qed.

Lemma held_app (w : World Payload) (m1 m2 : TMap) :
  held w (m1 ++ m2) = held w m1 ++ held w m2.
Proof. unfold held, listsOf. rewrite omap_app, flat_map_app. reflexivity. Qed.

(** Deleting the hash lists of some entries that own them. *)
Lemma deleteLists (es : TMap) (w : World Payload) :
  NoDup (listsOf es) -> NoDup (held w es) ->
  (forall hl, hl ∈ listsOf es -> live (hlists w) hl) ->
  (forall o, o ∈ held w es -> live (objects w) o) ->
  exists w',
    forEach es (fun kv => match snd kv with
                          | Some hlist => deleteList hlist
                          | None => ret tt
                          end) w = Ok (tt, w') /\
    colls w' = colls w /\ iterators w' = iterators w /\
    (forall hl, hl ∈ listsOf es -> hlists w' !! hl = Some Deleted) /\
    (forall hl, hl ∉ listsOf es -> hlists w' !! hl = hlists w !! hl) /\
    (forall o, o ∈ held w es -> objects w' !! o = Some Deleted) /\
    (forall o, o ∉ held w es -> objects w' !! o = objects w !! o).
Proof.
  revert w. induction es as [|[k [hl|]] es IH]; intros w Hl Hh Hlive Hobj.
  - exists w. simpl. repeat split; auto; intros x Hx; apply elem_of_nil in Hx; contradiction.
  - change (listsOf ((k, Some hl) :: es)) with (hl :: listsOf es) in *.
    rewrite held_cons_Some in *.
    apply NoDup_cons in Hl as [Hhl Hl]. apply NoDup_app in Hh as (Hh1 & Hdisj & Hh2).
    destruct (Hlive hl ltac:(left)) as [h Hhh].
    assert (Hitems : itemsIn w (Some hl) = hl_items h) by (unfold itemsIn; rewrite Hhh; reflexivity).
    rewrite Hitems in *.
    destruct (deleteList_owned hl h w Hhh Hh1) as (w1 & Hrun1 & Hc1 & Hi1 & Hhl1 & Hdel1 & Hkeep1).
    { intros o Ho. apply Hobj, elem_of_app. left. exact Ho. }
    assert (Hheld : held w1 es = held w es).
    { apply held_same. intros x Hx. rewrite Hhl1. apply lookup_insert_ne.
      intros ->. contradiction. }
    destruct (IH w1) as (w' & Hrun & Hc & Hi & Hdl & Hkl & Hdo & Hko).
    + exact Hl.
    + rewrite Hheld. exact Hh2.
    + intros x Hx. destruct (Hlive x ltac:(right; exact Hx)) as [v Hv]. exists v.
      rewrite Hhl1, lookup_insert_ne; [exact Hv|]. intros ->. contradiction.
    + rewrite Hheld. intros o Ho.
      destruct (Hobj o ltac:(apply elem_of_app; right; exact Ho)) as [v Hv]. exists v.
      rewrite Hkeep1; [exact Hv|]. intros Hin. apply (Hdisj o Hin Ho).
    + exists w'. simpl forEach. rewrite (bind_Ok _ _ _ _ _ Hrun1).
      split; [exact Hrun|]. split; [congruence|]. split; [congruence|].
      rewrite Hheld in *. split; [|split; [|split]].
      * intros x Hx. apply elem_of_cons in Hx as [->|Hx]; [|auto].
        rewrite (Hkl hl Hhl), Hhl1. apply lookup_insert_eq.
      * intros x Hx. rewrite Hkl by (intros H; apply Hx; right; exact H).
        rewrite Hhl1. apply lookup_insert_ne. intros ->. apply Hx. left.
      * intros o Ho. apply elem_of_app in Ho as [Ho|Ho]; [|auto].
        rewrite Hko by (intros H; apply (Hdisj o Ho H)). auto.
      * intros o Ho. rewrite Hko by (intros H; apply Ho, elem_of_app; right; exact H).
        apply Hkeep1. intros H. apply Ho, elem_of_app. left. exact H.
  - change (listsOf ((k, None) :: es)) with (listsOf es) in *.
    rewrite held_cons_None in *.
    destruct (IH w Hl Hh Hlive Hobj) as (w' & Hrun & H).
    exists w'. simpl forEach. rewrite (bind_Ok (ret tt) _ w w tt eq_refl). auto.
Qed.

Lemma listsOf_elem (m : TMap) (hl : loc) :
  hl ∈ listsOf m <-> exists k, (k, Some hl) ∈ m.
Proof.
  unfold listsOf. rewrite list_elem_of_omap. split.
  - intros ([k v] & Hin & Hv). simpl in Hv. subst v. eauto.
  - intros [k Hk]. exists (k, Some hl). auto.
Qed.

Lemma held_elem (w : World Payload) (m : TMap) (o : loc) :
  o ∈ held w m <-> exists hl, hl ∈ listsOf m /\ o ∈ itemsIn w (Some hl).
Proof.
  unfold held. rewrite list_elem_of_In, in_flat_map. split.
  - intros (hl & H1 & H2). exists hl. rewrite !list_elem_of_In. auto.
  - intros (hl & H1 & H2). exists hl. rewrite <- !list_elem_of_In. auto.
Qed.

Lemma closed_held (w : World Payload) (this : loc) (c : MergeableCollection) (m : TMap) :
  closed w -> colls w !! this = Some (Live c) -> fMap c = Some m ->
  (forall hl, hl ∈ listsOf m -> live (hlists w) hl) /\
  (forall o, o ∈ held w m -> live (objects w) o).
Proof.
  intros Hcl Hc Hm.
  assert (H1 : forall hl, hl ∈ listsOf m -> live (hlists w) hl).
  { intros hl Hhl. apply listsOf_elem in Hhl as [k Hk]. eapply closed_map; eassumption. }
  split; [exact H1|]. intros o Ho. apply held_elem in Ho as (hl & Hhl & Ho).
  destruct (H1 hl Hhl) as [h Hh]. unfold itemsIn in Ho. rewrite Hh in Ho.
  eapply closed_items; eassumption.
Qed.

(** X13. Delete, in a store without dangling pointer, on a collection whose
    map is the only owner of its hash lists and objects, deletes every hash
    list of the map and every object they hold, leaves other lists and
    objects alone, and leaves the collection without map: no key, no object
    found, no iterator. *)
Theorem Delete_deletes_the_objects (w : World Payload) (this : loc)
    (c : MergeableCollection) (m : TMap) :
  colls w !! this = Some (Live c) -> fMap c = Some m -> closed w -> owned w m ->
  exists w',
    Delete this w = Ok (tt, w') /\
    (forall hl, hl ∈ listsOf m -> hlists w' !! hl = Some Deleted) /\
    (forall o, o ∈ held w m -> objects w' !! o = Some Deleted) /\
    (forall hl, hl ∉ listsOf m -> hlists w' !! hl = hlists w !! hl) /\
    (forall o, o ∉ held w m -> objects w' !! o = objects w !! o) /\
    numberOfKeys this w' = Ok (0%Z, w') /\
    (forall fullIdentifier, getObject this fullIdentifier w' = Ok (None, w')) /\
    (forall d, createIterator this d w' = Ok (None, w')).
Proof.
  intros Hc Hm Hcl [Hl Hh].
  destruct (closed_held w this c m Hcl Hc Hm) as [Hlive Hobj].
  destruct (deleteLists m w Hl Hh Hlive Hobj) as (w1 & Hrun & Hc1 & Hi1 & Hdl & Hkl & Hdo & Hko).
  set (c' := with_fMap c None (fMapVersion c)).
  set (w' := set_colls (insert this (Live c')) w1).
  assert (Hc' : colls w' !! this = Some (Live c')) by (simpl; apply lookup_insert_eq).
  exists w'. split; [|split; [exact Hdl|split; [exact Hdo|split; [exact Hkl|split; [exact Hko|]]]]].
  - unfold Delete. rewrite (bind_Ok _ _ _ _ _ (derefColl_Ok _ _ _ Hc)), Hm.
    rewrite (bind_Ok _ _ _ _ _ Hrun). reflexivity.
  - split; [|split].
    + unfold numberOfKeys. rewrite (bind_Ok _ _ _ _ _ (derefColl_Ok _ _ _ Hc')). reflexivity.
    + intros fid. destruct (getObject_internalObject w' this fid) as (id & name & ->).
      unfold internalObject. rewrite (bind_Ok _ _ _ _ _ (derefColl_Ok _ _ _ Hc')). reflexivity.
    + intros d. unfold createIterator.
      rewrite (bind_Ok _ _ _ _ _ (derefColl_Ok _ _ _ Hc')). reflexivity.
Qed.

(** *** Pruning *)

Lemma RemoveEntry_app_first (pre rest : TMap) (k : string) (v : option loc) :
  Forall (fun kv : string * option loc => fst kv <> k) pre ->
  MapOf.RemoveEntry (pre ++ (k, v) :: rest) k = Some (v, pre ++ rest).
Proof.
  induction 1 as [|[k' v'] pre Hk _ IH]; simpl.
  - rewrite String.eqb_refl. reflexivity.
  - simpl in Hk. destruct (String.eqb_spec k' k) as [E|_]; [contradiction|].
    rewrite IH. reflexivity.
Qed.

Lemma listsOf_app (m1 m2 : TMap) : listsOf (m1 ++ m2) = listsOf m1 ++ listsOf m2.
Proof. unfold listsOf. apply omap_app. Qed.

Section Pruning.
Variable this : loc.
Variable identifier : string.

Lemma prune_loop (rest : TMap) :
  forall (pre : TMap) (w1 : World Payload) (n : Z),
    current w1 this (pre ++ rest) ->
    Forall (fun kv => pruned identifier kv = false) pre ->
    NoDup (listsOf rest) -> NoDup (held w1 rest) ->
    (forall hl, hl ∈ listsOf rest -> live (hlists w1) hl) ->
    (forall o, o ∈ held w1 rest -> live (objects w1) o) ->
    exists w',
      foldM (MapOf.keys rest) n
        (fun ndeleted key =>
           if TString.BeginsWith identifier key then
             let* ok := Map_DeleteEntry this key in
             ret (if ok : bool then (ndeleted + 1)%Z else ndeleted)
           else ret ndeleted) w1 =
      Ok ((n + Z.of_nat (length (List.filter (pruned identifier) rest)))%Z, w') /\
      current w' this (pre ++ List.filter (fun kv => negb (pruned identifier kv)) rest) /\
      (forall hl, hl ∈ listsOf (List.filter (pruned identifier) rest) ->
                  hlists w' !! hl = Some Deleted) /\
      (forall hl, hl ∉ listsOf (List.filter (pruned identifier) rest) ->
                  hlists w' !! hl = hlists w1 !! hl) /\
      (forall o, o ∈ held w1 (List.filter (pruned identifier) rest) ->
                 objects w' !! o = Some Deleted) /\
      (forall o, o ∉ held w1 (List.filter (pruned identifier) rest) ->
                 objects w' !! o = objects w1 !! o).
Proof.
  induction rest as [|[k v] rest' IH]; intros pre w1 n Hcur Hpre Hl Hh Hlive Hobj.
  - exists w1. simpl. rewrite app_nil_r in *. split; [rewrite Z.add_0_r; reflexivity|].
    repeat split; auto; intros x Hx; apply elem_of_nil in Hx; contradiction.
  - assert (Hp : pruned identifier (k, v) = TString.BeginsWith identifier k) by reflexivity.
    simpl MapOf.keys. simpl foldM. simpl List.filter. rewrite !Hp. clear Hp.
    destruct (TString.BeginsWith identifier k) eqn:Hk; simpl negb; cbv iota.
    + (* the entry is deleted *)
      assert (Hfirst : MapOf.RemoveEntry (pre ++ (k, v) :: rest') k = Some (v, pre ++ rest')).
      { apply RemoveEntry_app_first. eapply Forall_impl; [exact Hpre|].
        intros [k' v'] Hk'. unfold pruned in Hk'. simpl in *. intros ->. congruence. }
      pose proof Hcur as (c & Hc & Hm & Hv).
      set (c1 := with_fMap c (Some (pre ++ rest')) (fMapVersion c)).
      set (w2 := set_colls (insert this (Live c1)) w1).
      assert (Hcur2 : current w2 this (pre ++ rest')).
      { exists c1. simpl. rewrite lookup_insert_eq. auto. }
      (* the hash list of the entry *)
      assert (Hdel : exists w3,
                 (match v with Some hlist => deleteList hlist | None => ret tt end) w2 =
                 Ok (tt, w3) /\ colls w3 = colls w2 /\
                 (forall hl, hl ∈ listsOf [(k, v)] -> hlists w3 !! hl = Some Deleted) /\
                 (forall hl, hl ∉ listsOf [(k, v)] -> hlists w3 !! hl = hlists w1 !! hl) /\
                 (forall o, o ∈ held w1 [(k, v)] -> objects w3 !! o = Some Deleted) /\
                 (forall o, o ∉ held w1 [(k, v)] -> objects w3 !! o = objects w1 !! o)).
      { destruct (deleteLists [(k, v)] w2) as (w3 & Hrun & Hc3 & _ & H1 & H2 & H3 & H4).
        - destruct v; simpl in *; [|constructor].
          apply NoDup_cons in Hl as [_ _]. apply NoDup_singleton.
        - change (held w2 [(k, v)]) with (held w1 [(k, v)]).
          destruct v as [hl|]; [|constructor].
          rewrite held_cons_Some in Hh. apply NoDup_app in Hh as (Hh & _ & _).
          unfold held. simpl. rewrite app_nil_r. exact Hh.
        - intros hl Hhl. apply Hlive.
          destruct v as [x|]; [|apply elem_of_nil in Hhl; contradiction].
          apply list_elem_of_singleton in Hhl. subst x. left.
        - intros o Ho. change (held w2 [(k, v)]) with (held w1 [(k, v)]) in Ho.
          apply Hobj. change ((k, v) :: rest') with ([(k, v)] ++ rest').
          rewrite held_app. apply elem_of_app. left. exact Ho.
        - exists w3. simpl forEach in Hrun.
          apply bind_inv in Hrun as ([] & w3' & Hrun & E). injection E as ->.
          split; [exact Hrun|]. split; [exact Hc3|]. split; [exact H1|].
          split; [exact H2|]. split; [exact H3|exact H4]. }
      destruct Hdel as (w3 & Hrun3 & Hc3 & Hdl3 & Hkl3 & Hdo3 & Hko3).
      assert (Hcur3 : current w3 this (pre ++ rest')).
      { destruct Hcur2 as (c2 & Hc2 & Hm2 & Hv2). exists c2. rewrite Hc3. auto. }
      assert (Hrun : Map_DeleteEntry this k w1 = Ok (true, w3)).
      { unfold Map_DeleteEntry. rewrite (bind_Ok _ _ _ _ _ (theMap_current _ _ _ Hcur)).
        rewrite Hfirst. rewrite (bind_Ok _ _ _ _ _ (derefColl_Ok _ _ _ Hc)).
        rewrite (bind_Ok (storeColl this c1) _ w1 w2 tt eq_refl).
        rewrite (bind_Ok _ _ _ _ _ Hrun3). reflexivity. }
      rewrite bind_assoc, (bind_Ok _ _ _ _ _ Hrun).
      rewrite (bind_Ok (ret _) _ w3 w3 _ eq_refl). cbv beta iota.
      (* what is left *)
      assert (Hnd : NoDup (listsOf [(k, v)] ++ listsOf rest')).
      { rewrite <- listsOf_app. exact Hl. }
      apply NoDup_app in Hnd as (_ & Hdisjl & Hl').
      assert (Hndh : NoDup (held w1 [(k, v)] ++ held w1 rest')).
      { rewrite <- held_app. exact Hh. }
      apply NoDup_app in Hndh as (_ & Hdisjo & Hh').
      assert (Hheld : forall es, (forall hl, hl ∈ listsOf es -> hl ∈ listsOf rest') ->
                                 held w3 es = held w1 es).
      { intros es Hes. apply held_same. intros x Hx. apply Hkl3.
        intros Hin. apply (Hdisjl x Hin). apply Hes, Hx. }
      destruct (IH pre w3 (n + 1)%Z Hcur3 Hpre Hl') as (w' & Hloop & Hcur' & Hdl & Hkl & Hdo & Hko).
      { rewrite Hheld by auto. exact Hh'. }
      { intros hl Hhl. destruct (Hlive hl) as [x Hx].
        - change ((k, v) :: rest') with ([(k, v)] ++ rest'). rewrite listsOf_app.
          apply elem_of_app. right. exact Hhl.
        - exists x. rewrite Hkl3; [exact Hx|]. intros Hin. apply (Hdisjl hl Hin Hhl). }
      { rewrite Hheld by auto. intros o Ho. destruct (Hobj o) as [x Hx].
        - change ((k, v) :: rest') with ([(k, v)] ++ rest'). rewrite held_app.
          apply elem_of_app. right. exact Ho.
        - exists x. rewrite Hko3; [exact Hx|]. intros Hin. apply (Hdisjo o Hin Ho). }
      assert (Hsub : forall hl, hl ∈ listsOf (List.filter (pruned identifier) rest') ->
                                hl ∈ listsOf rest').
      { intros hl Hhl. apply listsOf_elem in Hhl as [k' Hk'].
        apply list_elem_of_In, filter_In in Hk' as [Hk' _].
        apply listsOf_elem. exists k'. apply list_elem_of_In. exact Hk'. }
      rewrite (Hheld _ Hsub) in Hdo, Hko.
      exists w'. split.
      { rewrite Hloop. simpl length.
        replace (n + 1 + Z.of_nat (length (List.filter (pruned identifier) rest')))%Z
          with (n + Z.of_nat (S (length (List.filter (pruned identifier) rest'))))%Z by lia.
        reflexivity. }
      split; [exact Hcur'|].
      change ((k, v) :: List.filter (pruned identifier) rest')
        with ([(k, v)] ++ List.filter (pruned identifier) rest').
      rewrite listsOf_app, held_app. split; [|split; [|split]].
      * intros hl Hhl. apply elem_of_app in Hhl as [Hhl|Hhl]; [|auto].
        rewrite Hkl; [auto|]. intros Hin. apply (Hdisjl hl Hhl). auto.
      * intros hl Hhl. rewrite Hkl by (intros H; apply Hhl, elem_of_app; right; exact H).
        apply Hkl3. intros H. apply Hhl, elem_of_app. left. exact H.
      * intros o Ho. apply elem_of_app in Ho as [Ho|Ho]; [|auto].
        rewrite Hko; [auto|]. intros Hin. apply (Hdisjo o Ho).
        apply held_elem in Hin as (hl & Hhl & Hin). apply held_elem. exists hl. auto.
      * intros o Ho. rewrite Hko by (intros H; apply Ho, elem_of_app; right; exact H).
        apply Hko3. intros H. apply Ho, elem_of_app. left. exact H.
    + (* the entry stays *)
      rewrite (bind_Ok (ret n) _ w1 w1 n eq_refl).
      destruct (IH (pre ++ [(k, v)]) w1 n) as (w' & Hloop & Hcur' & H).
      * rewrite <- app_assoc. exact Hcur.
      * apply Forall_app. split; [exact Hpre|]. repeat constructor. exact Hk.
      * destruct v as [hl|]; [|exact Hl].
        change (listsOf ((k, Some hl) :: rest')) with (hl :: listsOf rest') in Hl.
        apply NoDup_cons in Hl as [_ Hl]. exact Hl.
      * change ((k, v) :: rest') with ([(k, v)] ++ rest') in Hh. rewrite held_app in Hh.
        apply NoDup_app in Hh as (_ & _ & Hh). exact Hh.
      * intros hl Hhl. apply Hlive. change ((k, v) :: rest') with ([(k, v)] ++ rest').
        rewrite listsOf_app. apply elem_of_app. right. exact Hhl.
      * intros o Ho. apply Hobj. change ((k, v) :: rest') with ([(k, v)] ++ rest').
        rewrite held_app. apply elem_of_app. right. exact Ho.
      * exists w'. split; [exact Hloop|]. split; [|exact H].
        rewrite <- app_assoc in Hcur'. exact Hcur'.
Qed.

End Pruning.

(** X14. prune(identifier), in a store without dangling pointer whose
    up-to-date map is the only owner of its hash lists and objects, returns
    the number of entries whose key begins with identifier, deletes their
    hash lists and objects, and keeps the other entries in order, with their
    lists and objects untouched. *)
Theorem prune_deletes_the_entries_of_the_prefix (w : World Payload) (this : loc) (m : TMap)
    (identifier : string) :
  current w this m -> closed w -> owned w m ->
  exists w',
    prune this identifier w =
    Ok (Z.of_nat (length (List.filter (pruned identifier) m)), w') /\
    current w' this (List.filter (fun kv => negb (pruned identifier kv)) m) /\
    numberOfKeys this w' =
    Ok ((Z.of_nat (length m) - Z.of_nat (length (List.filter (pruned identifier) m)))%Z, w') /\
    (forall hl, hl ∈ listsOf (List.filter (pruned identifier) m) ->
                hlists w' !! hl = Some Deleted) /\
    (forall hl, hl ∉ listsOf (List.filter (pruned identifier) m) ->
                hlists w' !! hl = hlists w !! hl) /\
    (forall o, o ∈ held w (List.filter (pruned identifier) m) ->
               objects w' !! o = Some Deleted) /\
    (forall o, o ∉ held w (List.filter (pruned identifier) m) ->
               objects w' !! o = objects w !! o).
Proof.
  intros Hcur Hcl [Hl Hh]. pose proof Hcur as (c & Hc & Hm & Hv).
  destruct (closed_held w this c m Hcl Hc Hm) as [Hlive Hobj].
  destruct (prune_loop this identifier m [] w 0%Z Hcur ltac:(constructor) Hl Hh Hlive Hobj)
    as (w' & Hloop & Hcur' & H).
  exists w'. unfold prune. rewrite (bind_Ok _ _ _ _ _ (keysOfMap_current _ _ _ Hcur)).
  split; [rewrite Hloop; reflexivity|]. split; [exact Hcur'|]. split; [|exact H].
  destruct Hcur' as (c' & Hc' & Hm' & _). unfold numberOfKeys.
  rewrite (bind_Ok _ _ _ _ _ (derefColl_Ok _ _ _ Hc')), Hm'. unfold MapOf.GetSize.
  simpl app.
  assert (E : forall l : TMap,
             (length (List.filter (fun kv => negb (pruned identifier kv)) l) +
              length (List.filter (pruned identifier) l) = length l)%nat).
  { induction l as [|x l IHl]; simpl; [reflexivity|].
    destruct (pruned identifier x); simpl; lia. }
  specialize (E m).
  replace (Z.of_nat (length m) - Z.of_nat (length (List.filter (pruned identifier) m)))%Z
    with (Z.of_nat (length (List.filter (fun kv => negb (pruned identifier kv)) m))) by lia.
  reflexivity.
Qed.

(** *** Relative paths, names of histograms, lists of names and keys *)

Lemma Tokenize_colons (n : nat) : TString.Tokenize ":" (colons n) = [].
Proof.
  unfold TString.Tokenize. induction n as [|n IH]; [reflexivity|].
  simpl. exact IH.
Qed.

(** X6. A full identifier that has a separator but does not begin with one
    is decoded without its keys: getIdentifier returns only separators, as
    many as the identifier has, getObjectName returns the empty name, and
    getObject looks up this key and the empty name. *)
Theorem relative_path_loses_its_keys (w : World Payload) (this : loc)
    (fullIdentifier : string) :
  TString.BeginsWith "/" fullIdentifier = false ->
  (0 < TString.CountChar TString.slash fullIdentifier)%nat ->
  getIdentifier fullIdentifier =
  Ok (slashes (TString.CountChar TString.slash fullIdentifier)) /\
  getObjectName fullIdentifier = Ok "" /\
  getObject this fullIdentifier w =
  internalObject this (slashes (TString.CountChar TString.slash fullIdentifier)) "" w.
Proof.
  intros Hb Hn.
  assert (Hnull : TString.IsNull fullIdentifier = false).
  { destruct fullIdentifier; [simpl in Hn; lia|reflexivity]. }
  destruct (relative_path_decoded fullIdentifier Hnull Hb) as [Hid Hname].
  rewrite Nat.max_r in Hid by lia.
  split; [exact Hid|]. split; [exact Hname|].
  apply getObject_below; assumption.
Qed.

(** X22. On a live collection, normalizeName returns a name without slash
    and without dash, as long as the name of the collection, the identifier
    and the action together plus two, and leaves the store unchanged. *)
Theorem normalizeName_has_no_separator (w : World Payload) (this : loc)
    (c : MergeableCollection) (identifier action : string) :
  colls w !! this = Some (Live c) ->
  exists name,
    normalizeName this identifier action w = Ok (name, w) /\
    TString.CountChar "/" name = 0%nat /\ TString.CountChar "-" name = 0%nat /\
    String.length name =
    (String.length (fName c) + String.length identifier + String.length action + 2)%nat.
Proof.
  intros Hc. eexists. unfold normalizeName.
  rewrite (bind_Ok _ _ _ _ _ (derefColl_Ok _ _ _ Hc)). split; [reflexivity|].
  rewrite !ReplaceAll_char. split; [|split].
  - rewrite CountChar_substitute by discriminate. simpl Ascii.eqb. cbv iota.
    rewrite CountChar_substitute by discriminate. reflexivity.
  - rewrite CountChar_substitute by discriminate. reflexivity.
  - rewrite !length_substitute, !string_length_app. simpl. lia.
Qed.

(** X23. For an argument made of colons only, histo(fullIdentifier) and the
    histo of a proxy take the first element of an empty array of tokens: a
    null pointer is dereferenced. *)
Theorem histo_of_colons_dereferences_null (w : World Payload) (this : loc)
    (p : MergeableCollectionProxy) (n : nat) :
  histo Transform this (colons (S n)) w = Undefined NullDereference /\
  Proxy_histo Transform p (colons (S n)) w = Undefined NullDereference.
Proof.
  split.
  - unfold histo. change (TString.First ":" (colons (S n))) with (Some 0%nat).
    cbv iota. rewrite Tokenize_colons. reflexivity.
  - unfold Proxy_histo. change (TString.First ":" (colons (S n))) with (Some 0%nat).
    cbv iota. rewrite Tokenize_colons. reflexivity.
Qed.

Lemma FindObjectIn_absent (w : World Payload) (items : list loc) (name : string) :
  (forall o, o ∈ items -> live (objects w) o) ->
  Forall (fun o => nameOf w o <> name) items ->
  FindObjectIn items name w = Ok (None, w).
Proof.
  intros Hlive Hno. induction Hno as [|o items Ho _ IH]; [reflexivity|].
  simpl. destruct (Hlive o ltac:(left)) as [ob Hob].
  rewrite (bind_Ok _ _ _ _ _ (derefObject_Ok _ _ _ Hob)).
  unfold nameOf in Ho. rewrite Hob in Ho.
  destruct (String.eqb_spec (GetName ob) name) as [E|_]; [contradiction|].
  apply IH. intros x Hx. apply Hlive. right. exact Hx.
Qed.

(** X24. In a store without dangling pointer, on a collection with an
    up-to-date map, histo(identifier, objectName) looks the object up under
    objectName as it is given, action included: when objectName contains a
    colon and no object of the hash list of identifier has a colon in its
    name, it returns null. *)
Theorem histoAt_with_an_action_finds_nothing (w : World Payload) (this : loc) (m : TMap)
    (identifier objectName : string) :
  current w this m -> closed w ->
  plain_names w (itemsIn w (MapOf.GetValue m (enclosed identifier))) ->
  TString.First ":" objectName <> None ->
  exists w', histoAt Transform this identifier objectName w = Ok (None, w').
Proof.
  intros Hcur Hcl Hplain Hcolon.
  assert (Hget : exists w', getObjectAt this identifier objectName w = Ok (None, w')).
  { rewrite getObjectAt_enclosed. pose proof Hcur as (c & Hc & Hm & Hv).
    destruct (MapOf.GetValue m (enclosed identifier)) as [hl|] eqn:Hkey.
    - destruct (GetValue_elem _ _ _ Hkey) as [k Hk].
      destruct (closed_map _ _ _ _ _ _ Hcl Hc Hm Hk) as [h Hh].
      unfold itemsIn in Hplain. rewrite Hh in Hplain.
      assert (Hfind : FindObjectIn (hl_items h) objectName w = Ok (None, w)).
      { apply FindObjectIn_absent.
        - intros o Ho. eapply closed_items; eassumption.
        - eapply Forall_impl; [exact Hplain|]. cbv beta. intros o Ho E.
          rewrite E in Ho. contradiction. }
      rewrite (internalObject_found _ _ _ _ _ _ _ _ Hcur Hkey Hh Hfind).
      unfold addMessage. rewrite bind_assoc, (bind_Ok _ _ _ _ _ (derefColl_Ok _ _ _ Hc)).
      eexists. reflexivity.
    - unfold internalObject. rewrite (bind_Ok _ _ _ _ _ (derefColl_Ok _ _ _ Hc)), Hm.
      rewrite (bind_Ok _ _ _ _ _ (Map_GetValue_current _ _ _ _ Hcur)), Hkey.
      rewrite (bind_Ok theWorld _ w w w eq_refl). unfold addMessage.
      rewrite !bind_assoc, (bind_Ok _ _ _ _ _ (derefColl_Ok _ _ _ Hc)).
      eexists. reflexivity. }
  destruct Hget as [w' Hget]. exists w'. unfold histoAt.
  rewrite (bind_Ok _ _ _ _ _ Hget).
  destruct (TString.First ":" objectName); [|contradiction].
  destruct (TString.Tokenize ":" objectName) as [|a [|b l]]; reflexivity.
Qed.

(** *** Lists of names *)

Lemma names_loop (w : World Payload) (items : list loc) (names : list string) :
  (forall o, o ∈ items -> live (objects w) o) ->
  foldM items names (fun names obj => let* o := derefObject obj in ret (names ++ [GetName o])) w =
  Ok (names ++ map (nameOf w) items, w).
Proof.
  revert names. induction items as [|o items IH]; intros names Hlive; simpl.
  - rewrite app_nil_r. reflexivity.
  - destruct (Hlive o ltac:(left)) as [ob Hob].
    rewrite bind_assoc, (bind_Ok _ _ _ _ _ (derefObject_Ok _ _ _ Hob)).
    rewrite (bind_Ok (ret _) _ w w _ eq_refl). cbv beta.
    rewrite IH by (intros x Hx; apply Hlive; right; exact Hx).
    unfold nameOf at 2. rewrite Hob. rewrite <- app_assoc. reflexivity.
Qed.

Lemma FindObjectIn_named (w : World Payload) (items : list loc) (name : string) :
  (forall o, o ∈ items -> live (objects w) o) ->
  name ∈ map (nameOf w) items ->
  exists o, FindObjectIn items name w = Ok (Some o, w) /\ nameOf w o = name.
Proof.
  intros Hlive. induction items as [|x items IH]; intros Hin.
  - apply elem_of_nil in Hin. contradiction.
  - simpl. destruct (Hlive x ltac:(left)) as [ob Hob].
    rewrite (bind_Ok _ _ _ _ _ (derefObject_Ok _ _ _ Hob)).
    destruct (String.eqb_spec (GetName ob) name) as [E|Hne].
    + exists x. split; [reflexivity|]. unfold nameOf. rewrite Hob. exact E.
    + apply IH.
      * intros o Ho. apply Hlive. right. exact Ho.
      * simpl in Hin. apply elem_of_cons in Hin as [E|Hin]; [|exact Hin].
        unfold nameOf in E. rewrite Hob in E. congruence.
Qed.

(** X19. In a store without dangling pointer, on a collection with an
    up-to-date map, createListOfObjectNames(identifier) returns, in order,
    the names of the objects of the hash list bound to the key that equals
    identifier exactly (nothing for an identifier that is not a key),
    without changing the store; when identifier begins and ends with the
    separator, each listed name is found by getObject(identifier, name). *)
Theorem createListOfObjectNames_lists_the_names (w : World Payload) (this : loc) (m : TMap)
    (identifier : string) :
  current w this m -> closed w ->
  createListOfObjectNames this identifier w =
  Ok (flat_map
        (fun k => if String.eqb k identifier
                  then map (nameOf w) (itemsIn w (MapOf.GetValue m identifier))
                  else [])
        (MapOf.keys m), w) /\
  (identifier = enclosed identifier ->
   forall name, name ∈ map (nameOf w) (itemsIn w (MapOf.GetValue m identifier)) ->
                exists o, getObjectAt this identifier name w = Ok (Some o, w) /\
                          nameOf w o = name).
Proof.
  intros Hcur Hcl. pose proof Hcur as (c & Hc & Hm & Hv).
  assert (Hitems : itemsOf (MapOf.GetValue m identifier) w =
                   Ok (itemsIn w (MapOf.GetValue m identifier), w) /\
                   forall o, o ∈ itemsIn w (MapOf.GetValue m identifier) ->
                             live (objects w) o).
  { apply (itemsOf_itemsIn w this m Hcur Hcl w identifier). split; reflexivity. }
  destruct Hitems as [Hitems Hlive]. split.
  - unfold createListOfObjectNames.
    rewrite (bind_Ok _ _ _ _ _ (keysOfMap_current _ _ _ Hcur)).
    assert (Hgen : forall (keys : list string) (acc : list string),
               foldM keys acc
                 (fun listOfNames currIdentifier =>
                    if negb (String.eqb currIdentifier identifier) then ret listOfNames
                    else
                      let* list := Map_GetValue this identifier in
                      let* objs := itemsOf list in
                      foldM objs listOfNames
                        (fun names obj =>
                           let* o := derefObject obj in ret (names ++ [GetName o]))) w =
               Ok (acc ++ flat_map
                     (fun k => if String.eqb k identifier
                               then map (nameOf w) (itemsIn w (MapOf.GetValue m identifier))
                               else [])
                     keys, w)).
    { induction keys as [|k keys IH]; intros acc.
      - simpl. rewrite app_nil_r. reflexivity.
      - simpl foldM. simpl flat_map. destruct (String.eqb k identifier); simpl negb; cbv iota.
        + rewrite !bind_assoc.
          rewrite (bind_Ok _ _ _ _ _ (Map_GetValue_current _ _ _ identifier Hcur)).
          rewrite bind_assoc, (bind_Ok _ _ _ _ _ Hitems). cbv beta.
          rewrite (bind_Ok _ _ _ _ _ (names_loop w _ acc Hlive)).
          rewrite IH, <- app_assoc. reflexivity.
        + rewrite (bind_Ok (ret acc) _ w w acc eq_refl). apply IH. }
    rewrite (Hgen (MapOf.keys m) []). reflexivity.
  - intros Hid name Hname. rewrite getObjectAt_enclosed, <- Hid.
    destruct (MapOf.GetValue m identifier) as [hl|] eqn:Hkey.
    + destruct (GetValue_elem _ _ _ Hkey) as [k Hk].
      destruct (closed_map _ _ _ _ _ _ Hcl Hc Hm Hk) as [h Hh].
      unfold itemsIn in Hname, Hlive. rewrite Hh in Hname, Hlive.
      destruct (FindObjectIn_named w (hl_items h) name Hlive Hname) as (o & Hfind & Ho).
      exists o. split; [|exact Ho].
      apply (internalObject_found _ _ _ _ _ _ _ _ Hcur Hkey Hh Hfind).
    + simpl in Hname. apply elem_of_nil in Hname. contradiction.
Qed.

(** *** Lists of keys *)

Lemma addKey_loop (w : World Payload) (i : nat) (ids acc : list string) :
  foldM ids acc (addKey (Z.of_nat i)) w = Ok (foldl (withKeyAt i) acc ids, w).
Proof.
  revert acc. induction ids as [|k ids IH]; intros acc; [reflexivity|].
  simpl foldM. unfold addKey at 1. rewrite getKey_total.
  rewrite bind_assoc, (bind_Ok (lift (Ok (keyAt k i))) _ w w _ eq_refl). cbv beta.
  simpl foldl. unfold withKeyAt at 2.
  destruct (_ && _).
  - rewrite (bind_Ok (ret _) _ w w _ eq_refl). apply IH.
  - rewrite (bind_Ok (ret _) _ w w _ eq_refl). apply IH.
Qed.

(** X21. On a collection with an up-to-date map, createListOfKeys(index),
    for an index from 0 on, returns without repetition, and without changing
    the store, exactly the non-empty strings that getKey gives at this index
    for the keys of the map. *)
Theorem createListOfKeys_lists_the_keys_of_a_level (w : World Payload) (this : loc)
    (m : TMap) (i : nat) :
  current w this m ->
  exists keys,
    createListOfKeys this (Z.of_nat i) w = Ok (keys, w) /\
    NoDup keys /\
    forall s, s ∈ keys <-> s <> "" /\ exists k, k ∈ MapOf.keys m /\ keyAt k i = s.
Proof.
  intros Hcur. eexists. unfold createListOfKeys, sortAllIdentifiers.
  rewrite !bind_assoc, (bind_Ok _ _ _ _ _ (keysOfMap_current _ _ _ Hcur)).
  rewrite (bind_Ok (ret _) _ w w _ eq_refl). cbv beta. rewrite addKey_loop.
  split; [reflexivity|].
  destruct (withKeyAt_keys i (TObjArray_Sort (foldl addIdentifier [] (MapOf.keys m))) [])
    as [H1 H2]; [constructor|apply not_elem_of_nil|].
  split; [exact H1|]. intros s. rewrite H2. split.
  - intros [H|(Hs & k & Hk & E)]; [apply elem_of_nil in H; contradiction|].
    split; [exact Hs|]. exists k. split; [|exact E].
    apply elem_of_TObjArray_Sort, elem_of_addIdentifiers in Hk as [Hk|Hk]; [|exact Hk].
    apply elem_of_nil in Hk. contradiction.
  - intros (Hs & k & Hk & E). right. split; [exact Hs|]. exists k. split; [|exact E].
    apply elem_of_TObjArray_Sort, elem_of_addIdentifiers. right. exact Hk.
Qed.

(** *** Sorted identifiers *)

(** X20. On a collection with an up-to-date map, sortAllIdentifiers returns
    the keys of the map, each once, in ascending byte order, and leaves the
    store unchanged. *)
Theorem sortAllIdentifiers_sorts_the_keys (w : World Payload) (this : loc) (m : TMap) :
  current w this m ->
  exists ids,
    sortAllIdentifiers this w = Ok (ids, w) /\
    (forall s, s ∈ ids <-> s ∈ MapOf.keys m) /\
    NoDup ids /\
    Sorted (fun a b => String.leb a b = true) ids.
Proof.
  intros Hcur. eexists. unfold sortAllIdentifiers.
  rewrite (bind_Ok _ _ _ _ _ (keysOfMap_current _ _ _ Hcur)).
  split; [reflexivity|]. split; [|split].
  - intros s. rewrite elem_of_TObjArray_Sort, elem_of_addIdentifiers. split.
    + intros [H|H]; [apply elem_of_nil in H; contradiction|exact H].
    + auto.
  - apply NoDup_TObjArray_Sort, NoDup_addIdentifiers. constructor.
  - apply Sorted_TObjArray_Sort.
Qed.

(** *** Removal by type *)

Lemma set_hlists_twice (w : World Payload) (hl : loc) (a b : cell THashList) :
  set_hlists <[hl:=a]> (set_hlists <[hl:=b]> w) = set_hlists <[hl:=a]> w.
Proof. unfold set_hlists. simpl. rewrite insert_insert_eq. reflexivity. Qed.

Lemma set_hlists_same (w : World Payload) (hl : loc) (a : cell THashList) :
  hlists w !! hl = Some a -> set_hlists <[hl:=a]> w = w.
Proof.
  intros H. destruct w as [o h c i g]. unfold set_hlists. simpl in *.
  rewrite insert_id by exact H. reflexivity.
Qed.

Lemma removeIfOfType_loop (w : World Payload) (typeName : string) (hl : loc) (name : string)
    (rest : list loc) :
  forall (pre : list loc) (w1 : World Payload) (n : Z),
    objects w1 = objects w ->
    hlists w1 !! hl = Some (Live (mkHashList name (pre ++ rest))) ->
    Forall (fun o => ofType w typeName o = false) pre ->
    (forall o, o ∈ rest -> live (objects w) o) ->
    foldM rest n (removeIfOfType typeName (Some hl)) w1 =
    Ok ((n + Z.of_nat (length (List.filter (ofType w typeName) rest)))%Z,
        set_hlists
          <[hl:=Live (mkHashList name
                        (pre ++ List.filter (fun o => negb (ofType w typeName o)) rest))]>
          w1).
Proof.
  induction rest as [|o rest IH]; intros pre w1 n Hobj Hhl Hpre Hlive.
  - simpl. rewrite Z.add_0_r, set_hlists_same by exact Hhl. reflexivity.
  - simpl foldM. destruct (Hlive o ltac:(left)) as [ob Hob].
    assert (Hob1 : objects w1 !! o = Some (Live ob)) by (rewrite Hobj; exact Hob).
    unfold removeIfOfType at 1.
    rewrite bind_assoc, (bind_Ok _ _ _ _ _ (derefObject_Ok _ _ _ Hob1)).
    assert (Hty : ofType w typeName o = String.eqb (ClassName (IsA ob)) typeName).
    { unfold ofType. rewrite Hob. reflexivity. }
    simpl List.filter. rewrite Hty.
    destruct (String.eqb (ClassName (IsA ob)) typeName) eqn:E; simpl negb; cbv iota.
    + unfold HashList_Remove.
      rewrite !bind_assoc, (bind_Ok _ _ _ _ _ (derefList_Ok _ _ _ Hhl)).
      simpl hl_items. simpl hl_name.
      assert (Hin : existsb (Nat.eqb o) (pre ++ o :: rest) = true).
      { apply existsb_exists. exists o. split; [|apply Nat.eqb_refl].
        apply in_or_app. right. left. reflexivity. }
      rewrite Hin. rewrite remove_first_middle.
      2:{ intros Ho. rewrite Forall_forall in Hpre. apply Hpre in Ho. congruence. }
      rewrite !bind_assoc.
      rewrite (bind_Ok (storeList _ _) _ w1 _ tt eq_refl).
      rewrite (bind_Ok (ret (Some o)) _ _ _ _ eq_refl).
      rewrite (bind_Ok (ret tt) _ _ _ _ eq_refl).
      rewrite (bind_Ok (ret _) _ _ _ _ eq_refl).
      rewrite (IH pre).
      * rewrite set_hlists_twice. simpl length.
        replace (n + 1 + Z.of_nat (length (List.filter (ofType w typeName) rest)))%Z
          with (n + Z.of_nat (S (length (List.filter (ofType w typeName) rest))))%Z by lia.
        reflexivity.
      * exact Hobj.
      * simpl. apply lookup_insert_eq.
      * exact Hpre.
      * intros x Hx. apply Hlive. right. exact Hx.
    + rewrite (bind_Ok (ret n) _ w1 w1 n eq_refl).
      rewrite (IH (pre ++ [o])).
      * rewrite <- app_assoc. reflexivity.
      * exact Hobj.
      * rewrite <- app_assoc. exact Hhl.
      * apply Forall_app. split; [exact Hpre|]. constructor; [|constructor].
        rewrite Hty. reflexivity.
      * intros x Hx. apply Hlive. right. exact Hx.
Qed.

Section Removing.
Variable w : World Payload.
Variable this : loc.
Variable m : TMap.
Variable typeName : string.
Hypothesis Hcur : current w this m.
Hypothesis Hcl : closed w.
Hypothesis Hkeys : NoDup (MapOf.keys m).

Lemma removeByType_loop (es : TMap) :
  forall (w1 : World Payload) (n : Z),
    (forall e, e ∈ es -> e ∈ m) ->
    NoDup (listsOf es) ->
    objects w1 = objects w -> colls w1 = colls w ->
    (forall hl, hl ∈ listsOf es -> hlists w1 !! hl = hlists w !! hl) ->
    exists w',
      foldM (MapOf.keys es) n
        (fun nremoved identifier =>
           let* list := Map_GetValue this identifier in
           let* objs := itemsOf list in
           foldM objs nremoved (removeIfOfType typeName list)) w1 =
      Ok ((n + Z.of_nat (length (List.filter (ofType w typeName) (held w es))))%Z, w') /\
      objects w' = objects w /\ colls w' = colls w /\
      (forall hl h, hl ∈ listsOf es -> hlists w !! hl = Some (Live h) ->
                    hlists w' !! hl = Some (Live (withoutType w typeName h))) /\
      (forall hl, hl ∉ listsOf es -> hlists w' !! hl = hlists w1 !! hl).
Proof.
  induction es as [|[k v] es IH]; intros w1 n Hin Hnd Hobj Hcolls Hsame.
  - exists w1. simpl. rewrite Z.add_0_r. repeat split; try assumption.
    intros hl h H. apply elem_of_nil in H. contradiction.
  - pose proof Hcur as (c & Hc & Hm & Hv).
    assert (Hcur1 : current w1 this m).
    { exists c. rewrite Hcolls. auto. }
    assert (Hget : MapOf.GetValue m k = v).
    { apply GetValue_NoDup; [exact Hkeys|]. apply Hin. left. }
    assert (Hin' : forall e, e ∈ es -> e ∈ m).
    { intros e He. apply Hin. right. exact He. }
    simpl MapOf.keys. simpl foldM.
    rewrite !bind_assoc, (bind_Ok _ _ _ _ _ (Map_GetValue_current _ _ _ k Hcur1)), Hget.
    destruct v as [hl|].
    + assert (Hkm : (k, Some hl) ∈ m) by (apply Hin; left).
      destruct (closed_map _ _ _ _ _ _ Hcl Hc Hm Hkm) as [h Hh].
      assert (Hh1 : hlists w1 !! hl = Some (Live h)).
      { rewrite Hsame; [exact Hh|]. left. }
      change (listsOf ((k, Some hl) :: es)) with (hl :: listsOf es) in *.
      apply NoDup_cons in Hnd as [Hnot Hnd].
      unfold itemsOf at 1.
      rewrite !bind_assoc, (bind_Ok _ _ _ _ _ (derefList_Ok _ _ _ Hh1)).
      rewrite (bind_Ok (ret _) _ w1 w1 _ eq_refl). cbv beta.
      assert (Hloop := removeIfOfType_loop w typeName hl (hl_name h) (hl_items h) [] w1 n Hobj).
      simpl app in Hloop. rewrite (bind_Ok _ _ _ _ _ (Hloop
        ltac:(destruct h; exact Hh1) ltac:(constructor)
        ltac:(intros o Ho; eapply closed_items; eassumption))).
      clear Hloop.
      destruct (IH (set_hlists <[hl:=Live (withoutType w typeName h)]> w1)
                  (n + Z.of_nat (length (List.filter (ofType w typeName) (hl_items h))))%Z
                  Hin' Hnd Hobj Hcolls) as (w' & Hrun & Ho' & Hc' & Hl' & Hn').
      { intros hl' Hhl'. simpl. rewrite lookup_insert_ne; [apply Hsame; right; exact Hhl'|].
        intros ->. contradiction. }
      exists w'. split; [|split; [exact Ho'|split; [exact Hc'|split]]].
      * unfold withoutType in Hrun. rewrite Hrun. rewrite held_cons_Some.
        unfold itemsIn at 1. rewrite Hh. rewrite List.filter_app, length_app.
        replace (n + Z.of_nat (length (List.filter (ofType w typeName) (hl_items h))) +
                 Z.of_nat (length (List.filter (ofType w typeName) (held w es))))%Z
          with (n + Z.of_nat (length (List.filter (ofType w typeName) (hl_items h)) +
                              length (List.filter (ofType w typeName) (held w es))))%Z by lia.
        reflexivity.
      * intros hl' h' Hhl' Hh'. apply elem_of_cons in Hhl' as [->|Hhl'].
        -- rewrite Hn' by exact Hnot. simpl. rewrite lookup_insert_eq.
           rewrite Hh in Hh'. injection Hh' as ->. reflexivity.
        -- apply Hl'; assumption.
      * intros hl' Hhl'. rewrite Hn'.
        -- simpl. apply lookup_insert_ne. intros ->. apply Hhl'. left.
        -- intros H. apply Hhl'. right. exact H.
    + change (listsOf ((k, None) :: es)) with (listsOf es) in *.
      unfold itemsOf at 1. rewrite !bind_assoc, (bind_Ok (ret _) _ w1 w1 _ eq_refl).
      simpl foldM at 2. rewrite (bind_Ok (ret n) _ w1 w1 n eq_refl).
      rewrite held_cons_None. apply IH; assumption.
Qed.

End Removing.

(** X17. removeByType(typeName), in a store without dangling pointer and on
    an up-to-date map without repeated key or hash list, returns the number
    of held objects whose class name is exactly typeName and takes exactly
    these out of their hash lists, the others keeping their order; no object
    is deleted and no collection changes. *)
Theorem removeByType_removes_the_objects_of_the_class (w : World Payload) (this : loc)
    (m : TMap) (typeName : string) :
  current w this m -> closed w -> NoDup (MapOf.keys m) -> NoDup (listsOf m) ->
  exists w',
    removeByType this typeName w =
    Ok (Z.of_nat (length (List.filter (ofType w typeName) (held w m))), w') /\
    objects w' = objects w /\ colls w' = colls w /\
    (forall hl h, hl ∈ listsOf m -> hlists w !! hl = Some (Live h) ->
                  hlists w' !! hl = Some (Live (withoutType w typeName h))) /\
    (forall hl, hl ∉ listsOf m -> hlists w' !! hl = hlists w !! hl).
Proof.
  intros Hcur Hcl Hkeys Hnd.
  destruct (removeByType_loop w this m typeName Hcur Hcl Hkeys m w 0%Z)
    as (w' & Hrun & H); try reflexivity; try assumption.
  - intros e He. exact He.
  - exists w'. split; [|exact H]. unfold removeByType.
    rewrite (bind_Ok _ _ _ _ _ (keysOfMap_current _ _ _ Hcur)). exact Hrun.
Qed.

(** *** Proxies *)

Lemma enclosed_shape (s : string) :
  TString.IsNull s = false ->
  TString.IsNull (enclosed s) = false /\
  TString.BeginsWith "/" (enclosed s) = true /\
  TString.EndsWith "/" (enclosed s) = true.
Proof.
  intros Hn. unfold enclosed. rewrite Hn. simpl negb. cbv iota.
  unfold TString.Prepend, TString.Append.
  change ("/" +:+ s) with (String "/" s).
  destruct (TString.BeginsWith "/" s) eqn:Hb; simpl negb; cbv iota.
  - destruct (TString.EndsWith "/" s) eqn:He; simpl negb; cbv iota; [auto|].
    split; [apply IsNull_app; reflexivity|]. split.
    + rewrite BeginsWith_app_l by exact Hn. exact Hb.
    + apply EndsWith_slash_app. reflexivity.
  - rewrite EndsWith_slash_cons, Hn.
    destruct (TString.EndsWith "/" s) eqn:He; simpl negb; cbv iota.
    + split; [reflexivity|]. split; [apply BeginsWith_slash_cons|].
      rewrite EndsWith_slash_cons, Hn. exact He.
    + split; [reflexivity|]. split; [apply BeginsWith_slash_cons|].
      change (String "/" s +:+ "/") with (String "/" (s +:+ "/")).
      rewrite EndsWith_slash_cons, IsNull_app by reflexivity.
      apply EndsWith_slash_app. reflexivity.
Qed.

Lemma correctIdentifier_twice (identifier : string) :
  TString.Contains "//" (enclosed identifier) = false ->
  correctIdentifier (enclosed identifier) = enclosed identifier.
Proof.
  intros Hfree. destruct (TString.IsNull identifier) eqn:Hn.
  - destruct identifier; [reflexivity|discriminate].
  - destruct (enclosed_shape identifier Hn) as (H1 & H2 & H3).
    assert (Hee : enclosed (enclosed identifier) = enclosed identifier).
    { unfold enclosed at 1. rewrite H1, H2. simpl negb. cbv iota. rewrite H3. reflexivity. }
    rewrite <- Hee at 2. apply correctIdentifier_enclosed. rewrite Hee. exact Hfree.
Qed.

(** X25. On a collection with an up-to-date map, createProxy with
    createIfNeeded, for an identifier without doubled separator whose key
    the map does not have, returns a proxy of this collection on a new hash
    list bound to the key; adopt(obj) of the proxy then returns true, the
    object is found by getObject of the proxy and by getObject(identifier,
    name) of the collection, and a second adopt of it returns false and
    changes nothing. *)
Theorem proxy_adopts_into_its_list (w : World Payload) (this : loc) (m : TMap)
    (identifier : string) (o : loc) (ob : TObject Payload) :
  current w this m ->
  objects w !! o = Some (Live ob) ->
  TString.Contains "//" (enclosed identifier) = false ->
  enclosed identifier ∉ MapOf.keys m ->
  exists p w1 w2,
    createProxy this identifier true w = Ok (Some p, w1) /\
    fOC p = this /\
    current w1 this (m ++ [(enclosed identifier, Some (fList p))]) /\
    Proxy_adopt p (Some o) w1 = Ok (true, w2) /\
    Proxy_getObject p (GetName ob) w2 = Ok (Some o, w2) /\
    getObjectAt this identifier (GetName ob) w2 = Ok (Some o, w2) /\
    Proxy_adopt p (Some o) w2 = Ok (false, w2).
Proof.
  intros Hcur Ho Hfree Hnotin. pose proof Hcur as (c & Hc & Hm & Hv).
  set (e := enclosed identifier) in *.
  assert (Hnew : MapOf.GetValue m e = None /\
                 MapOf.GetValue (m ++ [(e, Some (fresh (dom (hlists w))))]) e =
                 Some (fresh (dom (hlists w)))).
  { clear -Hnotin. induction m as [|[k v] rest IH]; simpl.
    - rewrite String.eqb_refl. auto.
    - destruct (String.eqb_spec k e) as [->|_]; [exfalso; apply Hnotin; left|].
      apply IH. intros H. apply Hnotin. right. exact H. }
  destruct Hnew as [Hnew Hkey].
  set (hl := fresh (dom (hlists w))) in *.
  set (wa := set_hlists (insert hl (Live (mkHashList "" []))) w).
  set (c1 := with_fMap c (Some (m ++ [(e, Some hl)])) (fMapVersion c)).
  set (wb := set_colls (insert this (Live c1)) wa).
  set (w1 := set_hlists (insert hl (Live (mkHashList e []))) wb).
  set (w2 := set_hlists (insert hl (Live (mkHashList e [o]))) w1).
  assert (Hcura : current wa this m) by (exists c; auto).
  assert (Hcur1 : current w1 this (m ++ [(e, Some hl)])).
  { exists c1. split; [apply lookup_insert_eq|]. split; [reflexivity|exact Hv]. }
  assert (Hcur2 : current w2 this (m ++ [(e, Some hl)])) by exact Hcur1.
  assert (Hh1 : hlists w1 !! hl = Some (Live (mkHashList e []))) by apply lookup_insert_eq.
  assert (Hh2 : hlists w2 !! hl = Some (Live (mkHashList e [o]))) by apply lookup_insert_eq.
  assert (Ho1 : objects w1 !! o = Some (Live ob)) by exact Ho.
  assert (Ho2 : objects w2 !! o = Some (Live ob)) by exact Ho.
  assert (Hfind : FindObjectIn [o] (GetName ob) w2 = Ok (Some o, w2)).
  { simpl. rewrite (bind_Ok _ _ _ _ _ (derefObject_Ok _ _ _ Ho2)), String.eqb_refl.
    reflexivity. }
  exists (mkProxy this hl), w1, w2.
  split; [|split; [reflexivity|split; [exact Hcur1|split; [|split; [|split]]]]].
  - unfold createProxy. rewrite correctIdentifier_enclosed by exact Hfree. fold e.
    rewrite (bind_Ok _ _ _ _ _ (Map_GetValue_current _ _ _ e Hcur)), Hnew.
    change (negb true) with false. cbv beta iota.
    rewrite (bind_Ok (newList _) _ w wa hl eq_refl).
    unfold Map_Add.
    rewrite !bind_assoc, (bind_Ok _ _ _ _ _ (theMap_current _ _ _ Hcura)).
    rewrite bind_assoc, (bind_Ok _ _ _ _ _ (derefColl_Ok wa this c Hc)).
    rewrite (bind_Ok (storeColl _ _) _ wa wb tt eq_refl).
    assert (Hhb : hlists wb !! hl = Some (Live (mkHashList "" []))) by apply lookup_insert_eq.
    rewrite (bind_Ok _ _ _ _ _ (derefList_Ok _ _ _ Hhb)).
    rewrite (bind_Ok (storeList _ _) _ wb w1 tt eq_refl). reflexivity.
  - unfold Proxy_adopt. simpl fList. simpl fOC.
    rewrite (bind_Ok _ _ _ _ _ (derefList_Ok _ _ _ Hh1)). simpl hl_name.
    unfold adopt. unfold e at 1. rewrite correctIdentifier_twice by exact Hfree. fold e.
    unfold internalAdopt.
    rewrite (bind_Ok _ _ _ _ _ (derefObject_Ok _ _ _ Ho1)).
    rewrite (bind_Ok _ _ _ _ _ (Map_GetValue_current _ _ _ e Hcur1)), Hkey.
    rewrite (bind_Ok (ret hl) _ w1 w1 hl eq_refl).
    unfold HashList_FindObject.
    rewrite bind_assoc, (bind_Ok _ _ _ _ _ (derefList_Ok _ _ _ Hh1)). simpl hl_items.
    simpl FindObjectIn. rewrite (bind_Ok (ret None) _ w1 w1 None eq_refl).
    unfold HashList_AddLast.
    rewrite bind_assoc, (bind_Ok _ _ _ _ _ (derefList_Ok _ _ _ Hh1)).
    simpl hl_items. simpl hl_name. simpl app.
    rewrite (bind_Ok (storeList _ _) _ w1 w2 tt eq_refl). reflexivity.
  - unfold Proxy_getObject, HashList_FindObject. simpl fList.
    rewrite (bind_Ok _ _ _ _ _ (derefList_Ok _ _ _ Hh2)). exact Hfind.
  - rewrite getObjectAt_enclosed. fold e.
    apply (internalObject_found _ _ _ _ _ _ _ _ Hcur2 Hkey Hh2 Hfind).
  - unfold Proxy_adopt. simpl fList. simpl fOC.
    rewrite (bind_Ok _ _ _ _ _ (derefList_Ok _ _ _ Hh2)). simpl hl_name.
    unfold adopt. unfold e at 1. rewrite correctIdentifier_twice by exact Hfree. fold e.
    unfold internalAdopt.
    rewrite (bind_Ok _ _ _ _ _ (derefObject_Ok _ _ _ Ho2)).
    rewrite (bind_Ok _ _ _ _ _ (Map_GetValue_current _ _ _ e Hcur2)), Hkey.
    rewrite (bind_Ok (ret hl) _ w2 w2 hl eq_refl).
    unfold HashList_FindObject.
    rewrite bind_assoc, (bind_Ok _ _ _ _ _ (derefList_Ok _ _ _ Hh2)). simpl hl_items.
    rewrite (bind_Ok _ _ _ _ _ Hfind). reflexivity.
Qed.

(** X26. For a proxy on a live hash list of live objects and a name that
    none of them has, getObject of the proxy returns null without changing
    the store, h2 and prof of the proxy dereference this null pointer, and
    histo of the proxy (name without colon) returns null. *)
Theorem proxy_accessors_of_a_missing_object (w : World Payload)
    (p : MergeableCollectionProxy) (h : THashList) (objectName : string) :
  hlists w !! fList p = Some (Live h) ->
  (forall o, o ∈ hl_items h -> live (objects w) o) ->
  Forall (fun o => nameOf w o <> objectName) (hl_items h) ->
  Proxy_getObject p objectName w = Ok (None, w) /\
  Proxy_h2 p objectName w = Undefined NullDereference /\
  Proxy_prof p objectName w = Undefined NullDereference /\
  (TString.First ":" objectName = None ->
   Proxy_histo Transform p objectName w = Ok (None, w)).
Proof.
  intros Hh Hlive Hno.
  assert (Hget : Proxy_getObject p objectName w = Ok (None, w)).
  { unfold Proxy_getObject, HashList_FindObject.
    rewrite (bind_Ok _ _ _ _ _ (derefList_Ok _ _ _ Hh)).
    apply FindObjectIn_absent; assumption. }
  split; [exact Hget|]. split; [|split].
  - unfold Proxy_h2. rewrite (bind_Ok _ _ _ _ _ Hget). reflexivity.
  - unfold Proxy_prof. rewrite (bind_Ok _ _ _ _ _ Hget). reflexivity.
  - intros Hcolon. unfold Proxy_histo. rewrite Hcolon.
    rewrite (bind_Ok _ _ _ _ _ Hget). reflexivity.
Qed.

(** *** Empty histograms *)

Variable GetEntries_is_zero : TObject Payload -> bool.

Lemma empty_loop (w : World Payload) (k : string) (items : list loc) (acc : list string) :
  (forall o, o ∈ items -> live (objects w) o) ->
  foldM items acc
    (fun toBeRemoved obj =>
       let* empty := IsEmptyObject GetEntries_is_zero (Some obj) in
       if empty : bool then
         let* ob := derefObject obj in
         ret (toBeRemoved ++ [k +:+ GetName ob])
       else ret toBeRemoved) w =
  Ok (acc ++ map (fun o => k +:+ nameOf w o)
                 (List.filter (emptyHistogram GetEntries_is_zero w) items), w).
Proof.
  revert acc. induction items as [|o items IH]; intros acc Hlive.
  - simpl. rewrite app_nil_r. reflexivity.
  - simpl foldM. simpl List.filter. destruct (Hlive o ltac:(left)) as [ob Hob].
    assert (Hrest : forall x, x ∈ items -> live (objects w) x).
    { intros x Hx. apply Hlive. right. exact Hx. }
    
    rewrite !bind_assoc, (bind_Ok _ _ _ _ _ (derefObject_Ok _ _ _ Hob)).
    unfold emptyHistogram at 1. rewrite Hob.
    destruct (InheritsFrom (IsA ob) TH1_Class); simpl andb; cbv iota.
    + destruct (GetEntries_is_zero ob).
      * rewrite (bind_Ok (ret true) _ w w true eq_refl). cbv iota.
        rewrite bind_assoc, (bind_Ok _ _ _ _ _ (derefObject_Ok _ _ _ Hob)).
        rewrite (bind_Ok (ret _) _ w w _ eq_refl). cbv beta.
        rewrite IH by exact Hrest. simpl map. unfold nameOf at 2. rewrite Hob.
        rewrite <- app_assoc. reflexivity.
      * rewrite (bind_Ok (ret false) _ w w false eq_refl). cbv iota.
        rewrite (bind_Ok (ret acc) _ w w acc eq_refl). apply IH, Hrest.
    + rewrite (bind_Ok (ret false) _ w w false eq_refl). cbv iota.
      rewrite (bind_Ok (ret acc) _ w w acc eq_refl). apply IH, Hrest.
Qed.

(** X18. In a store without dangling pointer, on a collection with an
    up-to-date map, pruneEmptyObjects calls remove, in the order of the
    keys, on the key followed by the name of each held TH1 without entries,
    and on nothing else; a store that holds no such object is left exactly
    as it was. *)
Theorem pruneEmptyObjects_removes_the_empty_histograms (w : World Payload) (this : loc)
    (m : TMap) :
  current w this m -> closed w ->
  pruneEmptyObjects GetEntries_is_zero this w =
  forEach (emptyOnes GetEntries_is_zero w m) (fun key => remove this key ;; ret tt) w /\
  (Forall (fun o => emptyHistogram GetEntries_is_zero w o = false) (held w m) ->
   pruneEmptyObjects GetEntries_is_zero this w = Ok (tt, w)).
Proof.
  intros Hcur Hcl.
  assert (Hrun : pruneEmptyObjects GetEntries_is_zero this w =
                 forEach (emptyOnes GetEntries_is_zero w m)
                   (fun key => remove this key ;; ret tt) w).
  { unfold pruneEmptyObjects.
    rewrite (bind_Ok _ _ _ _ _ (keysOfMap_current _ _ _ Hcur)).
    assert (Hgen : forall (keys : list string) (acc : list string),
               foldM keys acc
                 (fun toBeRemoved identifier =>
                    let* hlist := Map_GetValue this identifier in
                    let* objs := itemsOf hlist in
                    foldM objs toBeRemoved
                      (fun toBeRemoved obj =>
                         let* empty := IsEmptyObject GetEntries_is_zero (Some obj) in
                         if empty : bool then
                           let* ob := derefObject obj in
                           ret (toBeRemoved ++ [identifier +:+ GetName ob])
                         else ret toBeRemoved)) w =
               Ok (acc ++ flat_map
                     (fun k => map (fun o => k +:+ nameOf w o)
                                 (List.filter (emptyHistogram GetEntries_is_zero w)
                                    (itemsIn w (MapOf.GetValue m k))))
                     keys, w)).
    { induction keys as [|k keys IH]; intros acc.
      - simpl. rewrite app_nil_r. reflexivity.
      - simpl foldM. simpl flat_map.
        destruct (itemsOf_itemsIn w this m Hcur Hcl w k ltac:(split; reflexivity))
          as [Hitems Hlive].
        rewrite !bind_assoc.
        rewrite (bind_Ok _ _ _ _ _ (Map_GetValue_current _ _ _ k Hcur)).
        rewrite bind_assoc, (bind_Ok _ _ _ _ _ Hitems). cbv beta.
        rewrite (bind_Ok _ _ _ _ _ (empty_loop w k _ acc Hlive)).
        rewrite IH, <- app_assoc. reflexivity. }
    rewrite (bind_Ok _ _ _ _ _ (Hgen (MapOf.keys m) [])). reflexivity. }
  split; [exact Hrun|]. intros Hnone. rewrite Hrun.
  assert (Hempty : emptyOnes GetEntries_is_zero w m = []).
  { unfold emptyOnes. pose proof Hcur as (c & Hc & Hm & _).
    assert (Hk : forall k, k ∈ MapOf.keys m ->
                           List.filter (emptyHistogram GetEntries_is_zero w)
                             (itemsIn w (MapOf.GetValue m k)) = []).
    { intros k _. destruct (MapOf.GetValue m k) as [hl|] eqn:Hkey; [|reflexivity].
      destruct (GetValue_elem _ _ _ Hkey) as [k' Hk'].
      assert (Hsub : forall o, o ∈ itemsIn w (Some hl) -> o ∈ held w m).
      { intros o Ho. apply held_elem. exists hl. split; [|exact Ho].
        apply listsOf_elem. exists k'. exact Hk'. }
      rewrite Forall_forall in Hnone.
      induction (itemsIn w (Some hl)) as [|o l IHl]; [reflexivity|].
      simpl. rewrite (Hnone o) by (apply Hsub; left).
      apply IHl. intros x Hx. apply Hsub. right. exact Hx. }
    induction (MapOf.keys m) as [|k l IHl]; [reflexivity|].
    simpl. rewrite Hk by left. simpl. apply IHl. intros x Hx. apply Hk. right. exact Hx. }
  rewrite Hempty. reflexivity.
Qed.

(** *** Histograms with an action *)




(** *** Accessors with two arguments, adoption through a proxy *)

(** X28. For a name without colon: when getObject(identifier, objectName)
    returns null, histo(identifier, objectName) returns null whereas h2 and
    prof with these arguments dereference the null pointer; when it returns
    an object, histo, h2 and prof return this object if its class inherits
    from TH1, TH2 and TProfile respectively, and null otherwise. None of
    them changes the store beyond what the lookup does. *)
Theorem two_argument_accessors (w w' : World Payload) (this : loc)
    (identifier objectName : string) (r : option loc) :
  getObjectAt this identifier objectName w = Ok (r, w') ->
  TString.First ":" objectName = None ->
  match r with
  | None =>
      histoAt Transform this identifier objectName w = Ok (None, w') /\
      h2At this identifier objectName w = Undefined NullDereference /\
      profAt this identifier objectName w = Undefined NullDereference
  | Some o =>
      forall ob, objects w' !! o = Some (Live ob) ->
        histoAt Transform this identifier objectName w =
        Ok (if InheritsFrom (IsA ob) TH1_Class then Some o else None, w') /\
        h2At this identifier objectName w =
        Ok (if InheritsFrom (IsA ob) TH2_Class then Some o else None, w') /\
        profAt this identifier objectName w =
        Ok (if InheritsFrom (IsA ob) TProfile_Class then Some o else None, w')
  end.
Proof.
  intros Hget Hcolon. destruct r as [o|].
  - intros ob Ho. split; [|split].
    + unfold histoAt. rewrite (bind_Ok _ _ _ _ _ Hget), Hcolon.
      rewrite (bind_Ok _ _ _ _ _ (derefObject_Ok _ _ _ Ho)).
      destruct (InheritsFrom (IsA ob) TH1_Class); reflexivity.
    + unfold h2At. rewrite (bind_Ok _ _ _ _ _ Hget). unfold IsA_of.
      rewrite bind_assoc, (bind_Ok _ _ _ _ _ (derefObject_Ok _ _ _ Ho)).
      rewrite (bind_Ok (ret _) _ w' w' _ eq_refl).
      destruct (InheritsFrom (IsA ob) TH2_Class); reflexivity.
    + unfold profAt. rewrite (bind_Ok _ _ _ _ _ Hget). unfold IsA_of.
      rewrite bind_assoc, (bind_Ok _ _ _ _ _ (derefObject_Ok _ _ _ Ho)).
      rewrite (bind_Ok (ret _) _ w' w' _ eq_refl).
      destruct (InheritsFrom (IsA ob) TProfile_Class); reflexivity.
  - split; [|split].
    + unfold histoAt. rewrite (bind_Ok _ _ _ _ _ Hget), Hcolon. reflexivity.
    + unfold h2At. rewrite (bind_Ok _ _ _ _ _ Hget). reflexivity.
    + unfold profAt. rewrite (bind_Ok _ _ _ _ _ Hget). reflexivity.
Qed.

(** X29. When adopt(identifier, obj) of a proxy returns true, in a store
    whose keys are all bound to a hash list, the object is found in the
    collection of the proxy by getObject under the name of the hash list of
    the proxy followed by identifier (a path without doubled separator) and
    the name of obj. *)
Theorem proxy_adopts_below_its_key (w w' : World Payload) (p : MergeableCollectionProxy)
    (h : THashList) (identifier : string) (o : loc) (ob : TObject Payload) :
  store_bound w (fOC p) ->
  hlists w !! fList p = Some (Live h) ->
  objects w !! o = Some (Live ob) ->
  TString.Contains "//" (enclosed (hl_name h +:+ identifier)) = false ->
  Proxy_adoptAt p identifier (Some o) w = Ok (true, w') ->
  getObjectAt (fOC p) (hl_name h +:+ identifier) (GetName ob) w' = Ok (Some o, w').
Proof.
  intros Hb Hh Ho Hfree Hadopt. unfold Proxy_adoptAt in Hadopt.
  rewrite (bind_Ok _ _ _ _ _ (derefList_Ok _ _ _ Hh)) in Hadopt.
  unfold adopt in Hadopt. rewrite correctIdentifier_enclosed in Hadopt by assumption.
  destruct (internalAdopt_adopted _ _ _ _ _ _ Hb Ho Hadopt)
    as (m' & hl & h' & Hcur & _ & Hkey & Hh' & Hfind & _).
  rewrite getObjectAt_enclosed.
  apply (internalObject_found _ _ _ _ _ _ _ _ Hcur Hkey Hh' Hfind).
Qed.

(** *** Adoption under a name that exists *)

Lemma FindObjectIn_live (w w' : World Payload) (items : list loc) (name : string) (o : loc) :
  FindObjectIn items name w = Ok (Some o, w') -> live (objects w) o.
Proof.
  induction items as [|l rest IH]; simpl; [discriminate|].
  intros H. apply bind_inv in H as (ob & w1 & H1 & H2).
  apply derefObject_inv in H1 as [-> Hl].
  destruct (String.eqb (GetName ob) name); [|auto].
  injection H2 as <- _. exists ob. exact Hl.
Qed.

(** The result and the store of [internalAdopt_reporting] are those of
    [internalAdopt], in either build. *)
Lemma internalAdopt_reporting_result (standalone : bool) (w : World Payload) (this : loc)
    (identifier : string) (obj : option loc) :
  (let* r := internalAdopt_reporting standalone this identifier obj in ret (fst r)) w =
  internalAdopt this identifier obj w.
Proof.
  unfold internalAdopt_reporting, internalAdopt. destruct obj as [o|]; [|reflexivity].
  rewrite bind_assoc. apply bind_ext_at. intros ob w1 _. cbv zeta.
  rewrite bind_assoc. apply bind_ext_at. intros found w2 _.
  rewrite bind_assoc. apply bind_ext_at. intros hlist w3 _.
  rewrite bind_assoc. apply bind_ext_at. intros [e|] w4 Hfind.
  - destruct standalone; [reflexivity|].
    apply HashList_FindObject_inv in Hfind as (-> & h & _ & Hfind).
    destruct (FindObjectIn_live _ _ _ _ _ Hfind) as [eo Heo].
    rewrite bind_assoc, (bind_Ok _ _ _ _ _ (derefObject_Ok _ _ _ Heo)). reflexivity.
  - rewrite bind_assoc. apply bind_ext_at. intros [] w5 _. reflexivity.
Qed.

(** C6. On a store whose map is in the current key format, adopting an
    object under a path where an object of the same name already exists
    fails without a hard error: [adopt] returns [false] and the world is
    left as it was. The object found under the name is still the one
    returned by a lookup of the path and the name, and of the full
    identifier (below a path as at top level); it is the object adopted
    first, when the store comes from its adoption. What reaches the
    diagnostics sink is the error of ROOT for an object that is not
    mergeable, and the report of the conflict in a build without
    [MERGEABLE_COLLECTION_STANDALONE] only. *)
Theorem adopt_existing_name_fails (standalone : bool) (w : World Payload) (this : loc)
    (identifier : string) (obj : loc) (ob : TObject Payload) (m : TMap)
    (hl existing : loc) :
  current w this m ->
  objects w !! obj = Some (Live ob) ->
  MapOf.GetValue m (correctIdentifier identifier) = Some hl ->
  HashList_FindObject hl (GetName ob) w = Ok (Some existing, w) ->
  adopt_reporting standalone this identifier (Some obj) w =
  Ok ((false,
       (if mergeable (IsA ob) then []
        else [RootError "adopt" "Cannot adopt an object which is not mergeable!"]) ++
       (if standalone then []
        else [Logged "error"
                ("Cannot adopt an already existing object : " +:+
                 correctIdentifier identifier +:+ " -> " +:+ GetName ob)])), w) /\
  adopt this identifier (Some obj) w = Ok (false, w) /\
  (forall fullIdentifier,
     (adopt this identifier (Some obj) ;; getObject this fullIdentifier) w =
     getObject this fullIdentifier w) /\
  (TString.Contains "//" (enclosed identifier) = false ->
   getObjectAt this identifier (GetName ob) w = Ok (Some existing, w)) /\
  (forall segs,
     Forall (fun s => slashFree s = true) segs ->
     correctIdentifier identifier = joinAll segs +:+ "/" ->
     slashFree (GetName ob) = true ->
     getObject this (joinAll segs +:+ "/" +:+ GetName ob) w = Ok (Some existing, w)) /\
  (identifier = "" -> slashFree (GetName ob) = true ->
   getObject this (GetName ob) w = Ok (Some existing, w)) /\
  (forall w0 first fob,
     store_bound w0 this -> objects w0 !! first = Some (Live fob) ->
     GetName fob = GetName ob ->
     adopt this identifier (Some first) w0 = Ok (true, w) ->
     existing = first).
Proof.
  intros Hcur Hobj Hkey Hfind.
  assert (Hadopt : adopt this identifier (Some obj) w = Ok (false, w)).
  { unfold adopt. eapply internalAdopt_existing; eassumption. }
  destruct (HashList_FindObject_inv _ _ _ _ _ Hfind) as (_ & h & Hh & Hin).
  destruct (FindObjectIn_live _ _ _ _ _ Hin) as [eo Heo].
  assert (Hname : GetName eo = GetName ob).
  { destruct (FindObjectIn_found _ _ _ _ Hin) as [_ Hn]. unfold nameOf in Hn.
    rewrite Heo in Hn. exact Hn. }
  split; [|split; [exact Hadopt|split; [|split; [|split; [|split]]]]].
  - unfold adopt_reporting, internalAdopt_reporting.
    rewrite (bind_Ok _ _ _ _ _ (derefObject_Ok _ _ _ Hobj)). cbv zeta.
    rewrite (bind_Ok _ _ _ _ _ (Map_GetValue_current _ _ _ _ Hcur)), Hkey.
    rewrite (bind_Ok (ret hl) _ w w hl eq_refl).
    rewrite (bind_Ok _ _ _ _ _ Hfind). cbv iota. unfold mergeable.
    assert (Hm : negb (InheritsFrom (IsA ob) TObject_Class) || negb (HasMergeMethod (IsA ob)) =
                 negb (InheritsFrom (IsA ob) TObject_Class && HasMergeMethod (IsA ob))).
    { destruct (InheritsFrom (IsA ob) TObject_Class), (HasMergeMethod (IsA ob)); reflexivity. }
    rewrite Hm.
    destruct standalone.
    + rewrite app_nil_r.
      destruct (InheritsFrom (IsA ob) TObject_Class && HasMergeMethod (IsA ob)); reflexivity.
    + rewrite (bind_Ok _ _ _ _ _ (derefObject_Ok _ _ _ Heo)), Hname.
      destruct (InheritsFrom (IsA ob) TObject_Class && HasMergeMethod (IsA ob)); reflexivity.
  - intros fid. rewrite (bind_Ok _ _ _ _ _ Hadopt). reflexivity.
  - intros Hfree. rewrite getObjectAt_enclosed.
    rewrite correctIdentifier_enclosed in Hkey by exact Hfree.
    apply (internalObject_found _ _ _ _ _ _ _ _ Hcur Hkey Hh Hin).
  - intros segs Hsegs Hcanon Hslash. rewrite Hcanon in Hkey.
    assert (Hpos : (0 < TString.CountChar TString.slash
                          (joinAll segs +:+ "/" +:+ GetName ob))%nat).
    { rewrite !CountChar_app. simpl. lia. }
    rewrite (getObject_below _ _ _ _ _ Hpos
               (getIdentifier_joinAll segs (GetName ob) Hsegs Hslash)
               (getObjectName_joinAll segs (GetName ob) Hsegs Hslash)).
    apply (internalObject_found _ _ _ _ _ _ _ _ Hcur Hkey Hh Hin).
  - intros -> Hslash. unfold getObject. unfold slashFree in Hslash. rewrite Hslash.
    rewrite getObjectAt_enclosed.
    apply (internalObject_found _ _ _ _ _ _ _ _ Hcur Hkey Hh Hin).
  - intros w0 first fob Hb Hfirst Hsame Hfirst_adopt. unfold adopt in Hfirst_adopt.
    destruct (internalAdopt_adopted _ _ _ _ _ _ Hb Hfirst Hfirst_adopt)
      as (m' & hl' & h' & Hcur' & _ & Hkey' & Hh' & Hfind' & _).
    destruct Hcur as (c & Hc & Hm & _). destruct Hcur' as (c' & Hc' & Hm' & _).
    rewrite Hc in Hc'. injection Hc' as <-. rewrite Hm in Hm'. injection Hm' as <-.
    rewrite Hkey in Hkey'. injection Hkey' as <-.
    rewrite Hh in Hh'. injection Hh' as <-.
    rewrite Hsame in Hfind'. rewrite Hin in Hfind'. injection Hfind' as ->. reflexivity.
Qed.

End Proofs.

(** ** Witnesses and concrete stores *)

Lemma canonicalize_decode_roundtrip_witness :
  internalDecode (correctIdentifier (joinSegments ["A"; "B"])) (Z.of_nat 1) = Ok "B" /\
  getKey (correctIdentifier (joinSegments ["A"; "B"])) (Z.of_nat 1) false = Ok "B".
Proof.
  apply (canonicalize_decode_roundtrip ["A"; "B"] 1 "B").
  - repeat constructor.
  - reflexivity.
Defined.

Lemma Merge_counts_the_sources_witness :
  exists w',
    Merge Scenario.counterMerge 0 (Some (map ACollection [1]))
      (Scenario.world_after Scenario.mismatched_pair) =
    Ok ((Z.of_nat (length [1]) + 1)%Z, w').
Proof.
  apply (Merge_counts_the_sources Scenario.counterMerge
           (Scenario.world_after Scenario.mismatched_pair) 0 [1]).
  - apply closedb_closed. vm_compute. reflexivity.
  - apply liveb_live. vm_compute. reflexivity.
  - intros s Hs. apply list_elem_of_singleton in Hs. subst s.
    apply liveb_live. vm_compute. reflexivity.
Defined.

Lemma adopt_existing_name_fails_witness :
  adopt_reporting MERGEABLE_COLLECTION_STANDALONE 0 "/DET/" (Some 1)
    (Scenario.world_after Scenario.det_store) =
  Ok ((false, []), Scenario.world_after Scenario.det_store) /\
  adopt_reporting false 0 "/DET/" (Some 1) (Scenario.world_after Scenario.det_store) =
  Ok ((false, [Logged "error" "Cannot adopt an already existing object : /DET/ -> h"]),
      Scenario.world_after Scenario.det_store) /\
  adopt 0 "/DET/" (Some 1) (Scenario.world_after Scenario.det_store) =
  Ok (false, Scenario.world_after Scenario.det_store) /\
  getObjectAt 0 "/DET/" "h" (Scenario.world_after Scenario.det_store) =
  Ok (Some 0, Scenario.world_after Scenario.det_store) /\
  getObject 0 "/DET/h" (Scenario.world_after Scenario.det_store) =
  Ok (Some 0, Scenario.world_after Scenario.det_store).
Proof.
  destruct (adopt_existing_name_fails MERGEABLE_COLLECTION_STANDALONE
              (Scenario.world_after Scenario.det_store) 0 "/DET/" 1
              (mkObject "h" Scenario.TH1F_Class 7%Z) [("/DET/", Some 0)] 0 0)
    as (H1 & H2 & _ & H4 & H5 & _).
  - eexists. split; [vm_compute; reflexivity|]. split; [reflexivity|]. simpl. lia.
  - vm_compute. reflexivity.
  - vm_compute. reflexivity.
  - vm_compute. reflexivity.
  - destruct (adopt_existing_name_fails false
                (Scenario.world_after Scenario.det_store) 0 "/DET/" 1
                (mkObject "h" Scenario.TH1F_Class 7%Z) [("/DET/", Some 0)] 0 0)
      as (H1' & _).
    + eexists. split; [vm_compute; reflexivity|]. split; [reflexivity|]. simpl. lia.
    + vm_compute. reflexivity.
    + vm_compute. reflexivity.
    + vm_compute. reflexivity.
    + split; [exact H1|]. split; [exact H1'|]. split; [exact H2|].
      split; [apply H4; reflexivity|].
      apply (H5 ["DET"]); [repeat constructor|reflexivity|reflexivity].
Defined.

(** C6, as stated, fails in two ways. In the build of the repository the
    conflict is not reported: nothing reaches the diagnostics sink. And on
    a store in the old key format the failing [adopt] changes the store:
    the key [./RUN/] becomes [RUN/] and the version of the map 1. *)
Lemma adopt_conflict_is_silent_and_converts_an_old_store :
  adopt_reporting MERGEABLE_COLLECTION_STANDALONE 0 "/DET/" (Some 1)
    (Scenario.world_after Scenario.det_store) =
  Ok ((false, []), Scenario.world_after Scenario.det_store) /\
  colls Scenario.legacy !! 0 =
  Some (Live (mkCollection "store" "" (Some [("/DET/", Some 0); ("./RUN/", Some 1)])
                false 0 ∅)) /\
  exists w',
    adopt 0 "/DET/" (Some 1) Scenario.legacy = Ok (false, w') /\
    colls w' !! 0 =
    Some (Live (mkCollection "store" "" (Some [("/DET/", Some 0); ("RUN/", Some 1)])
                  false 1 ∅)) /\
    w' <> Scenario.legacy.
Proof.
  split; [vm_compute; reflexivity|]. split; [vm_compute; reflexivity|].
  eexists. split; [vm_compute; reflexivity|]. split; [vm_compute; reflexivity|].
  intros E. apply (f_equal (fun w => colls w !! 0)) in E. vm_compute in E. discriminate E.
Qed.

Lemma null_object_dereferenced_by_h2_and_prof_witness :
  exists w',
    getObject 0 "/DET/nothere" (Scenario.world_after Scenario.det_store) = Ok (None, w') /\
    h2 0 "/DET/nothere" (Scenario.world_after Scenario.det_store) =
    Undefined NullDereference /\
    prof 0 "/DET/nothere" (Scenario.world_after Scenario.det_store) =
    Undefined NullDereference /\
    histo Scenario.renamed 0 "/DET/nothere" (Scenario.world_after Scenario.det_store) =
    Ok (None, w').
Proof.
  eexists.
  assert (H : getObject 0 "/DET/nothere" (Scenario.world_after Scenario.det_store) =
              Ok (None, _)) by (vm_compute; reflexivity).
  split; [exact H|].
  destruct (null_object_dereferenced_by_h2_and_prof Scenario.renamed _ _ 0 "/DET/nothere" H)
    as (H1 & H2 & H3).
  split; [exact H1|]. split; [exact H2|]. apply H3. reflexivity.
Defined.

Lemma getSum_sums_the_selected_entries_witness :
  getSum Scenario.counterMerge 0 "A/h" (Scenario.world_after Scenario.two_levels) =
  sumOf Scenario.counterMerge
    (map snd (selected (Scenario.world_after Scenario.two_levels) (patternGroups "A/h")
                [("/A/B/", Some 0); ("/A/C/", Some 1)]))
    (Scenario.world_after Scenario.two_levels).
Proof.
  apply (getSum_sums_the_selected_entries Scenario.counterMerge
           (Scenario.world_after Scenario.two_levels) 0
           [("/A/B/", Some 0); ("/A/C/", Some 1)] "A/h").
  - eexists. split; [vm_compute; reflexivity|]. split; [reflexivity|]. simpl. lia.
  - apply closedb_closed. vm_compute. reflexivity.
Defined.

(** C8, as stated, fails: for the pattern [A/h], the entry [h] of the
    path [/A/B/] is summed, although the key [B] of its second level is in
    no group of the pattern. *)
Lemma getSum_selects_beyond_the_pattern :
  selects_every_level (patternGroups "A/h") "/A/B/" "h" = false /\
  selects (patternGroups "A/h") "/A/B/" "h" = true /\
  Scenario.outcome Scenario.sum_beyond_the_pattern =
  Ok (Some (mkObject "h" Scenario.TH1F_Class 5%Z)).
Proof. repeat split; vm_compute; reflexivity. Qed.

(** C1. The destination holds a [TH1F] named [h] at [/A/], the source a
    [TH2F] of the same name at the same path. [MergeObject] returns [true]
    and [Merge] returns 2: the mismatch is not found, the [Merge] method of
    the destination object is called with the object of the other class,
    and the destination object changes (its counter goes from 5 to 12). *)
Theorem MergeObject_does_not_find_the_mismatch :
  Scenario.TH1F_Class <> Scenario.TH2F_Class /\
  Scenario.outcome Scenario.mergeObject_mismatched =
  Ok (true, mkObject "h" Scenario.TH1F_Class 12%Z) /\
  Scenario.outcome Scenario.merge_mismatched =
  Ok (2%Z, mkObject "h" Scenario.TH1F_Class 12%Z).
Proof. split; [discriminate|]. split; vm_compute; reflexivity. Qed.

(** C3. After [attach] of a source holding [h] at [/B/], the destination
    has the key [/A/B/], bound to the hash list of the source; the source
    has kept its key and its hash list, and still answers with [h]: its
    entries are shared with the destination, not moved out. *)
Theorem attach_leaves_the_source_as_it_was :
  Scenario.outcome Scenario.attached =
  Ok (true, Some [("/A/B/", Some 0)], Some [("/B/", Some 0)], Some 0, 1%Z, 0).
Proof. vm_compute. reflexivity. Qed.

(** C4. The projection on [/x/] of a store holding [name] at [/x/y/] has no
    key, and does not hold [/y/name]: the objects are looked for under the
    key [/x/] itself, where there is none. When the store also holds [top]
    at [/x/], the projection holds a clone of [top] under each of the keys
    [y/] and [""], and no clone of [name]. *)
Theorem project_loses_the_objects_below :
  Scenario.outcome Scenario.projected = Ok (Some (0%Z, None)) /\
  Scenario.outcome Scenario.projected_with_top = Ok (["y/"; ""], ["top"], ["top"], []).
Proof. split; vm_compute; reflexivity. Qed.

(** C7. For the object [h] adopted at top level, [getObject("h")] finds
    it, [remove("h")] returns null, and [getObject("h")] still finds it
    afterwards. *)
Theorem remove_misses_the_top_level :
  Scenario.outcome Scenario.removed_top_level = Ok (0, Some 0, None, Some 0).
Proof. vm_compute. reflexivity. Qed.

(** C9. After [Reset], in the middle of the iteration as at its end, [Next]
    uses a deleted iterator; [Reset] is harmless only on an iterator that
    has not moved yet. Without [Reset], the two calls of [Next] give the
    two objects. *)
Theorem Next_after_Reset_uses_deleted_iterators :
  Scenario.outcome Scenario.reset_then_next = Undefined UseAfterDelete /\
  Scenario.outcome Scenario.reset_after_the_end = Undefined UseAfterDelete /\
  Scenario.outcome Scenario.reset_at_the_start = Ok (0, Some 0) /\
  Scenario.outcome Scenario.next_twice = Ok (0, 1, Some 0, Some 1).
Proof. repeat split; vm_compute; reflexivity. Qed.

(** ** Witnesses of the further properties *)

(** A decidable proposition that evaluates to true. *)
Ltac decided :=
  match goal with
  | |- ?P => apply (bool_decide_eq_true_1 P); vm_compute; reflexivity
  end.

Lemma full_identifier_splits_witness :
  getIdentifier "/A/B/h" = Ok "/A/B/" /\
  getObjectName "/A/B/h" = Ok "h" /\
  forall i seg, ["A"; "B"] !! i = Some seg -> getKey "/A/B/h" (Z.of_nat i) true = Ok seg.
Proof.
  apply (full_identifier_splits ["A"; "B"] "h").
  - repeat constructor.
  - reflexivity.
Defined.

Lemma getKey_beyond_the_last_level_witness : getKey "/A/B/" 3 false = Ok "".
Proof. apply (getKey_beyond_the_last_level "/A/B/" 3). simpl. lia. Defined.

Lemma getKey_negative_index_witness : getKey "/A/B/" (-2) false = Ok "dummy".
Proof.
  apply (getKey_negative_index "/A/B/" (-2)).
  - lia.
  - right. reflexivity.
Defined.

Lemma correctIdentifier_encloses_witness :
  TString.IsNull (correctIdentifier "A//B") = false /\
  TString.BeginsWith "/" (correctIdentifier "A//B") = true /\
  TString.EndsWith "/" (correctIdentifier "A//B") = true.
Proof. apply (correctIdentifier_encloses "A//B"). reflexivity. Defined.

Lemma relative_path_loses_its_keys_witness :
  getIdentifier "A/B/h" = Ok "//" /\
  getObjectName "A/B/h" = Ok "" /\
  getObject 0 "A/B/h" (Scenario.world_after Scenario.deeper) =
  internalObject 0 "//" "" (Scenario.world_after Scenario.deeper).
Proof.
  apply (relative_path_loses_its_keys (Scenario.world_after Scenario.deeper) 0 "A/B/h").
  - reflexivity.
  - simpl. lia.
Defined.

Lemma normalizeName_has_no_separator_witness :
  exists name,
    normalizeName 0 "/A/B-1/h" "PX" (Scenario.world_after Scenario.deeper) =
    Ok (name, Scenario.world_after Scenario.deeper) /\
    TString.CountChar "/" name = 0%nat /\ TString.CountChar "-" name = 0%nat /\
    String.length name = (String.length "store" + String.length "/A/B-1/h" +
                          String.length "PX" + 2)%nat.
Proof.
  apply (normalizeName_has_no_separator (Scenario.world_after Scenario.deeper) 0
           (mkCollection "store" "" (Some [("/A/B/", Some 0)]) false 1 ∅) "/A/B-1/h" "PX").
  vm_compute. reflexivity.
Defined.

Lemma adopted_object_is_found_under_its_identifier_witness :
  getObjectAt 0 "X" "h"
    (Scenario.world_after (Scenario.det_store ;; adopt 0 "X" (Some 1))) =
  Ok (Some 1, Scenario.world_after (Scenario.det_store ;; adopt 0 "X" (Some 1))).
Proof.
  apply (adopted_object_is_found_under_its_identifier
           (Scenario.world_after Scenario.det_store)
           (Scenario.world_after (Scenario.det_store ;; adopt 0 "X" (Some 1)))
           0 "X" 1 (mkObject "h" Scenario.TH1F_Class 7%Z)).
  - intros c m Hc Hm. vm_compute in Hc. injection Hc as <-. injection Hm as <-.
    repeat constructor. discriminate.
  - vm_compute. reflexivity.
  - reflexivity.
  - vm_compute. reflexivity.
Defined.

Lemma adopted_object_is_found_by_its_full_identifier_witness :
  getObject 0 "/X/Y/h"
    (Scenario.world_after (Scenario.det_store ;; adopt 0 "X/Y" (Some 1))) =
  Ok (Some 1, Scenario.world_after (Scenario.det_store ;; adopt 0 "X/Y" (Some 1))).
Proof.
  apply (proj2 (adopted_object_is_found_by_its_full_identifier
                  (Scenario.world_after Scenario.det_store)
                  (Scenario.world_after (Scenario.det_store ;; adopt 0 "X/Y" (Some 1)))
                  0 1 (mkObject "h" Scenario.TH1F_Class 7%Z)
                  ltac:(intros c m Hc Hm; vm_compute in Hc; injection Hc as <-;
                        injection Hm as <-; repeat constructor; discriminate)
                  ltac:(vm_compute; reflexivity)
                  ltac:(reflexivity))
         ["X"; "Y"]).
  - discriminate.
  - repeat constructor.
  - vm_compute. reflexivity.
Defined.

Lemma lookup_changes_only_the_messages_witness :
  exists w' msg,
    getObject 0 "/DET/nothere" (Scenario.world_after Scenario.det_store) = Ok (None, w') /\
    objects w' = objects (Scenario.world_after Scenario.det_store) /\
    hlists w' = hlists (Scenario.world_after Scenario.det_store) /\
    current w' 0 [("/DET/", Some 0)] /\
    messages w' 0 =
    <[msg := (default 0%Z (messages (Scenario.world_after Scenario.det_store) 0%nat !! msg) + 1)%Z]>
      (messages (Scenario.world_after Scenario.det_store) 0) /\
    exists w'', clearMessages 0 w' = Ok (tt, w'') /\ messages w'' 0 = ∅.
Proof.
  assert (H : getObject 0 "/DET/nothere" (Scenario.world_after Scenario.det_store) =
              Ok (None, Scenario.world_after
                          (Scenario.det_store ;; getObject 0 "/DET/nothere")))
    by (vm_compute; reflexivity).
  destruct (lookup_changes_only_the_messages
              (Scenario.world_after Scenario.det_store) _ 0 [("/DET/", Some 0)]
              "/DET/nothere" None
              ltac:(eexists; split; [vm_compute; reflexivity|]; split; [reflexivity|];
                    simpl; lia)
              H)
    as (H1 & H2 & H3 & _ & _ & H6 & w'' & H7 & H8 & _).
  destruct (H6 eq_refl) as [msg Hmsg].
  exists (Scenario.world_after (Scenario.det_store ;; getObject 0 "/DET/nothere")), msg.
  split; [exact H|]. split; [exact H1|]. split; [exact H2|]. split; [exact H3|].
  split; [exact Hmsg|]. exists w''. split; assumption.
Defined.

Lemma Map_returns_the_map_witness :
  exists w' m',
    Map 0 (Scenario.world_after Scenario.det_store) = Ok (true, w') /\
    current w' 0 m' /\ Map 0 w' = Ok (true, w') /\
    objects w' = objects (Scenario.world_after Scenario.det_store) /\
    hlists w' = hlists (Scenario.world_after Scenario.det_store).
Proof.
  destruct (Map_returns_the_map (Scenario.world_after Scenario.det_store) 0
              ltac:(apply liveb_live; vm_compute; reflexivity))
    as (w' & m' & H1 & H2 & H3 & _ & _ & H6 & H7).
  exists w', m'. auto.
Defined.

Lemma iteration_visits_every_object_witness :
  exists it w' it',
    createIterator 0 kIterForward (Scenario.world_after Scenario.two_levels) =
    Ok (Some it, Scenario.world_after Scenario.two_levels) /\
    nextN 4 3 it (Scenario.world_after Scenario.two_levels) =
    Ok (([Some 0; Some 1; None], it'), w') /\
    colls w' = colls (Scenario.world_after Scenario.two_levels) /\
    hlists w' = hlists (Scenario.world_after Scenario.two_levels) /\
    objects w' = objects (Scenario.world_after Scenario.two_levels).
Proof.
  apply (iteration_visits_every_object (Scenario.world_after Scenario.two_levels) 0
           [("/A/B/", Some 0); ("/A/C/", Some 1)] kIterForward 4).
  - eexists. split; [vm_compute; reflexivity|]. split; [reflexivity|]. simpl. lia.
  - repeat constructor; discriminate.
  - apply closedb_closed. vm_compute. reflexivity.
  - simpl. lia.
Defined.

Lemma numberOfObjects_counts_the_objects_witness :
  exists w',
    numberOfObjects 6 0 (Scenario.world_after Scenario.two_levels) = Ok (2%Z, w') /\
    colls w' = colls (Scenario.world_after Scenario.two_levels) /\
    hlists w' = hlists (Scenario.world_after Scenario.two_levels) /\
    objects w' = objects (Scenario.world_after Scenario.two_levels).
Proof.
  apply (numberOfObjects_counts_the_objects (Scenario.world_after Scenario.two_levels) 0
           [("/A/B/", Some 0); ("/A/C/", Some 1)] 6).
  - eexists. split; [vm_compute; reflexivity|]. split; [reflexivity|]. simpl. lia.
  - repeat constructor; discriminate.
  - apply closedb_closed. vm_compute. reflexivity.
  - vm_compute. lia.
Defined.

Lemma Delete_deletes_the_objects_witness :
  exists w',
    Delete 0 (Scenario.world_after Scenario.two_levels) = Ok (tt, w') /\
    hlists w' !! 0 = Some Deleted /\ hlists w' !! 1 = Some Deleted /\
    objects w' !! 0 = Some Deleted /\ objects w' !! 1 = Some Deleted /\
    numberOfKeys 0 w' = Ok (0%Z, w') /\
    getObject 0 "/A/B/h" w' = Ok (None, w') /\
    createIterator 0 kIterForward w' = Ok (None, w').
Proof.
  destruct (Delete_deletes_the_objects (Scenario.world_after Scenario.two_levels) 0
              (mkCollection "store" "" (Some [("/A/B/", Some 0); ("/A/C/", Some 1)])
                 false 1 ∅)
              [("/A/B/", Some 0); ("/A/C/", Some 1)])
    as (w' & H1 & H2 & H3 & _ & _ & H6 & H7 & H8).
  - vm_compute. reflexivity.
  - reflexivity.
  - apply closedb_closed. vm_compute. reflexivity.
  - split; decided.
  - exists w'. split; [exact H1|].
    split; [apply H2; decided|].
    split; [apply H2; decided|].
    split; [apply H3; decided|].
    split; [apply H3; decided|].
    split; [exact H6|]. split; [apply H7|apply H8].
Defined.

Lemma prune_deletes_the_entries_of_the_prefix_witness :
  exists w',
    prune 0 "/A/B" (Scenario.world_after Scenario.two_levels) = Ok (1%Z, w') /\
    current w' 0 [("/A/C/", Some 1)] /\
    numberOfKeys 0 w' = Ok (1%Z, w') /\
    hlists w' !! 0 = Some Deleted /\
    objects w' !! 0 = Some Deleted /\
    hlists w' !! 1 = hlists (Scenario.world_after Scenario.two_levels) !! 1 /\
    objects w' !! 1 = objects (Scenario.world_after Scenario.two_levels) !! 1.
Proof.
  destruct (prune_deletes_the_entries_of_the_prefix
              (Scenario.world_after Scenario.two_levels) 0
              [("/A/B/", Some 0); ("/A/C/", Some 1)] "/A/B")
    as (w' & H1 & H2 & H3 & H4 & H5 & H6 & H7).
  - eexists. split; [vm_compute; reflexivity|]. split; [reflexivity|]. simpl. lia.
  - apply closedb_closed. vm_compute. reflexivity.
  - split; decided.
  - exists w'. split; [exact H1|]. split; [exact H2|]. split; [exact H3|].
    split; [apply H4; decided|].
    split; [apply H6; decided|].
    split; [apply H5; decided|apply H7; decided].
Defined.

Lemma remove_below_the_top_level_witness :
  getObject 0 "/A/B/h" (Scenario.world_after Scenario.two_levels) =
  Ok (Some 0, Scenario.world_after Scenario.two_levels) /\
  numberOfKeys 0 (Scenario.world_after Scenario.two_levels) =
  Ok (2%Z, Scenario.world_after Scenario.two_levels) /\
  exists w' w'',
    remove 0 "/A/B/h" (Scenario.world_after Scenario.two_levels) = Ok (Some 0, w') /\
    hlists w' !! 0 = Some (Live (mkHashList "/A/B/" [])) /\
    numberOfKeys 0 w' = Ok (2%Z, w') /\
    getObject 0 "/A/B/h" w' = Ok (None, w'').
Proof.
  apply (remove_below_the_top_level (Scenario.world_after Scenario.two_levels) 0
           [("/A/B/", Some 0); ("/A/C/", Some 1)] "/A/B/h" "/A/B/" "h" 0
           (mkHashList "/A/B/" [0]) 0).
  - eexists. split; [vm_compute; reflexivity|]. split; [reflexivity|]. simpl. lia.
  - simpl. lia.
  - reflexivity.
  - reflexivity.
  - reflexivity.
  - vm_compute. reflexivity.
  - intros x Hx. apply list_elem_of_singleton in Hx. subst x.
    apply liveb_live. vm_compute. reflexivity.
  - decided.
  - vm_compute. reflexivity.
Defined.

Lemma attach_shares_the_lists_witness :
  exists w',
    attach 0 1 "/Z/" false (Scenario.world_after Scenario.mismatched_pair) = Ok (true, w') /\
    current w' 0 [("/A/", Some 0); ("/Z/A/", Some 1)] /\
    current w' 1 [("/A/", Some 1)] /\
    hlists w' = hlists (Scenario.world_after Scenario.mismatched_pair) /\
    objects w' = objects (Scenario.world_after Scenario.mismatched_pair).
Proof.
  apply (attach_shares_the_lists (Scenario.world_after Scenario.mismatched_pair) 0 1
           [("/A/", Some 0)] [("/A/", Some 1)] "/Z/" false).
  - discriminate.
  - eexists. split; [vm_compute; reflexivity|]. split; [reflexivity|]. simpl. lia.
  - eexists. split; [vm_compute; reflexivity|]. split; [reflexivity|]. simpl. lia.
  - reflexivity.
Defined.

Lemma removeByType_removes_the_objects_of_the_class_witness :
  exists w',
    removeByType 0 "TH1F" (Scenario.world_after Scenario.mixed) = Ok (2%Z, w') /\
    objects w' = objects (Scenario.world_after Scenario.mixed) /\
    colls w' = colls (Scenario.world_after Scenario.mixed) /\
    hlists w' !! 0 = Some (Live (mkHashList "/A/" [1])) /\
    hlists w' !! 1 = Some (Live (mkHashList "/B/" [])).
Proof.
  destruct (removeByType_removes_the_objects_of_the_class
              (Scenario.world_after Scenario.mixed) 0
              [("/A/", Some 0); ("/B/", Some 1)] "TH1F")
    as (w' & H1 & H2 & H3 & H4 & _).
  - eexists. split; [vm_compute; reflexivity|]. split; [reflexivity|]. simpl. lia.
  - apply closedb_closed. vm_compute. reflexivity.
  - decided.
  - decided.
  - exists w'. split; [exact H1|]. split; [exact H2|]. split; [exact H3|]. split.
    + apply (H4 0 (mkHashList "/A/" [0; 1])); [decided|].
      vm_compute. reflexivity.
    + apply (H4 1 (mkHashList "/B/" [2])); [decided|].
      vm_compute. reflexivity.
Defined.

Lemma pruneEmptyObjects_removes_the_empty_histograms_witness :
  pruneEmptyObjects Scenario.noEntries 0 (Scenario.world_after Scenario.mixed) =
  forEach ["/A/h"] (fun key => remove 0 key ;; ret tt) (Scenario.world_after Scenario.mixed) /\
  pruneEmptyObjects Scenario.noEntries 0 (Scenario.world_after Scenario.two_levels) =
  Ok (tt, Scenario.world_after Scenario.two_levels).
Proof.
  split.
  - apply (pruneEmptyObjects_removes_the_empty_histograms Scenario.noEntries
             (Scenario.world_after Scenario.mixed) 0 [("/A/", Some 0); ("/B/", Some 1)]).
    + eexists. split; [vm_compute; reflexivity|]. split; [reflexivity|]. simpl. lia.
    + apply closedb_closed. vm_compute. reflexivity.
  - apply (pruneEmptyObjects_removes_the_empty_histograms Scenario.noEntries
             (Scenario.world_after Scenario.two_levels) 0
             [("/A/B/", Some 0); ("/A/C/", Some 1)]).
    + eexists. split; [vm_compute; reflexivity|]. split; [reflexivity|]. simpl. lia.
    + apply closedb_closed. vm_compute. reflexivity.
    + vm_compute. repeat constructor.
Defined.

Lemma createListOfObjectNames_lists_the_names_witness :
  createListOfObjectNames 0 "/A/" (Scenario.world_after Scenario.mixed) =
  Ok (["h"; "g"], Scenario.world_after Scenario.mixed) /\
  exists o, getObjectAt 0 "/A/" "g" (Scenario.world_after Scenario.mixed) =
            Ok (Some o, Scenario.world_after Scenario.mixed) /\
            nameOf (Scenario.world_after Scenario.mixed) o = "g".
Proof.
  destruct (createListOfObjectNames_lists_the_names
              (Scenario.world_after Scenario.mixed) 0
              [("/A/", Some 0); ("/B/", Some 1)] "/A/")
    as [H1 H2].
  - eexists. split; [vm_compute; reflexivity|]. split; [reflexivity|]. simpl. lia.
  - apply closedb_closed. vm_compute. reflexivity.
  - split; [exact H1|]. apply (H2 eq_refl "g"). decided.
Defined.

Lemma sortAllIdentifiers_sorts_the_keys_witness :
  exists ids,
    sortAllIdentifiers 0 (Scenario.world_after Scenario.two_levels) =
    Ok (ids, Scenario.world_after Scenario.two_levels) /\
    (forall s, s ∈ ids <-> s ∈ ["/A/B/"; "/A/C/"]) /\
    NoDup ids /\
    Sorted (fun a b => String.leb a b = true) ids.
Proof.
  apply (sortAllIdentifiers_sorts_the_keys (Scenario.world_after Scenario.two_levels) 0
           [("/A/B/", Some 0); ("/A/C/", Some 1)]).
  eexists. split; [vm_compute; reflexivity|]. split; [reflexivity|]. simpl. lia.
Defined.

Lemma createListOfKeys_lists_the_keys_of_a_level_witness :
  exists keys,
    createListOfKeys 0 (Z.of_nat 1) (Scenario.world_after Scenario.two_levels) =
    Ok (keys, Scenario.world_after Scenario.two_levels) /\
    NoDup keys /\
    forall s, s ∈ keys <->
              s <> "" /\ exists k, k ∈ ["/A/B/"; "/A/C/"] /\ keyAt k 1 = s.
Proof.
  apply (createListOfKeys_lists_the_keys_of_a_level
           (Scenario.world_after Scenario.two_levels) 0
           [("/A/B/", Some 0); ("/A/C/", Some 1)] 1).
  eexists. split; [vm_compute; reflexivity|]. split; [reflexivity|]. simpl. lia.
Defined.

Lemma histoAt_with_an_action_finds_nothing_witness :
  exists w',
    histoAt Scenario.renamed 0 "/A/" "g:px" (Scenario.world_after Scenario.mixed) =
    Ok (None, w').
Proof.
  apply (histoAt_with_an_action_finds_nothing Scenario.renamed
           (Scenario.world_after Scenario.mixed) 0 [("/A/", Some 0); ("/B/", Some 1)]
           "/A/" "g:px").
  - eexists. split; [vm_compute; reflexivity|]. split; [reflexivity|]. simpl. lia.
  - apply closedb_closed. vm_compute. reflexivity.
  - vm_compute. repeat constructor.
  - discriminate.
Defined.

Lemma proxy_adopts_into_its_list_witness :
  exists p w1 w2,
    createProxy 0 "X" true (Scenario.world_after Scenario.det_store) = Ok (Some p, w1) /\
    fOC p = 0 /\
    current w1 0 ([("/DET/", Some 0)] ++ [("/X/", Some (fList p))]) /\
    Proxy_adopt p (Some 1) w1 = Ok (true, w2) /\
    Proxy_getObject p "h" w2 = Ok (Some 1, w2) /\
    getObjectAt 0 "X" "h" w2 = Ok (Some 1, w2) /\
    Proxy_adopt p (Some 1) w2 = Ok (false, w2).
Proof.
  apply (proxy_adopts_into_its_list (Scenario.world_after Scenario.det_store) 0
           [("/DET/", Some 0)] "X" 1 (mkObject "h" Scenario.TH1F_Class 7%Z)).
  - eexists. split; [vm_compute; reflexivity|]. split; [reflexivity|]. simpl. lia.
  - vm_compute. reflexivity.
  - reflexivity.
  - decided.
Defined.

Lemma proxy_accessors_of_a_missing_object_witness :
  Proxy_getObject (mkProxy 0 0) "nothere" (Scenario.world_after Scenario.mixed) =
  Ok (None, Scenario.world_after Scenario.mixed) /\
  Proxy_h2 (mkProxy 0 0) "nothere" (Scenario.world_after Scenario.mixed) =
  Undefined NullDereference /\
  Proxy_prof (mkProxy 0 0) "nothere" (Scenario.world_after Scenario.mixed) =
  Undefined NullDereference /\
  Proxy_histo Scenario.renamed (mkProxy 0 0) "nothere" (Scenario.world_after Scenario.mixed) =
  Ok (None, Scenario.world_after Scenario.mixed).
Proof.
  destruct (proxy_accessors_of_a_missing_object Scenario.renamed
              (Scenario.world_after Scenario.mixed) (mkProxy 0 0)
              (mkHashList "/A/" [0; 1]) "nothere")
    as (H1 & H2 & H3 & H4).
  - vm_compute. reflexivity.
  - intros o Ho. apply liveb_live.
    apply elem_of_cons in Ho as [->|Ho]; [vm_compute; reflexivity|].
    apply list_elem_of_singleton in Ho. subst o. vm_compute. reflexivity.
  - vm_compute. repeat constructor; discriminate.
  - split; [exact H1|]. split; [exact H2|]. split; [exact H3|]. apply H4. reflexivity.
Defined.


Lemma two_argument_accessors_witness :
  (histoAt Scenario.renamed 0 "/A/" "g" (Scenario.world_after Scenario.mixed) =
   Ok (Some 1, Scenario.world_after Scenario.mixed) /\
   h2At 0 "/A/" "g" (Scenario.world_after Scenario.mixed) =
   Ok (Some 1, Scenario.world_after Scenario.mixed) /\
   profAt 0 "/A/" "g" (Scenario.world_after Scenario.mixed) =
   Ok (None, Scenario.world_after Scenario.mixed)) /\
  (histoAt Scenario.renamed 0 "/A/" "nothere" (Scenario.world_after Scenario.mixed) =
   Ok (None, Scenario.world_after (Scenario.mixed ;; getObjectAt 0 "/A/" "nothere")) /\
   h2At 0 "/A/" "nothere" (Scenario.world_after Scenario.mixed) =
   Undefined NullDereference /\
   profAt 0 "/A/" "nothere" (Scenario.world_after Scenario.mixed) =
   Undefined NullDereference).
Proof.
  split.
  - apply (two_argument_accessors Scenario.renamed
             (Scenario.world_after Scenario.mixed) (Scenario.world_after Scenario.mixed)
             0 "/A/" "g" (Some 1)
             ltac:(vm_compute; reflexivity) ltac:(reflexivity)
             (mkObject "g" Scenario.TH2F_Class 7%Z)).
    vm_compute. reflexivity.
  - apply (two_argument_accessors Scenario.renamed
             (Scenario.world_after Scenario.mixed)
             (Scenario.world_after (Scenario.mixed ;; getObjectAt 0 "/A/" "nothere"))
             0 "/A/" "nothere" None
             ltac:(vm_compute; reflexivity) ltac:(reflexivity)).
Defined.

Lemma proxy_adopts_below_its_key_witness :
  getObjectAt 0 "/DET/SUB" "h"
    (Scenario.world_after
       (Scenario.det_store ;; Proxy_adoptAt (mkProxy 0 0) "SUB" (Some 1))) =
  Ok (Some 1,
      Scenario.world_after
        (Scenario.det_store ;; Proxy_adoptAt (mkProxy 0 0) "SUB" (Some 1))).
Proof.
  apply (proxy_adopts_below_its_key
           (Scenario.world_after Scenario.det_store)
           (Scenario.world_after
              (Scenario.det_store ;; Proxy_adoptAt (mkProxy 0 0) "SUB" (Some 1)))
           (mkProxy 0 0) (mkHashList "/DET/" [0]) "SUB" 1
           (mkObject "h" Scenario.TH1F_Class 7%Z)).
  - intros c m Hc Hm. vm_compute in Hc. injection Hc as <-. injection Hm as <-.
    repeat constructor. discriminate.
  - vm_compute. reflexivity.
  - vm_compute. reflexivity.
  - reflexivity.
  - vm_compute. reflexivity.
Defined.

Lemma getKey_returns_unless_the_identifier_is_empty_witness :
  getKey "" (-2) true = Undefined VectorOutOfRange /\
  exists s, getKey "/A/h" (-2) true = Ok s.
Proof.
  split.
  - apply (proj1 (getKey_returns_unless_the_identifier_is_empty "" (-2))).
    split; [reflexivity|lia].
  - apply (proj2 (getKey_returns_unless_the_identifier_is_empty "/A/h" (-2))).
    left. discriminate.
Defined.
